(** * Financial forensic engine: detection, merging, scoring and assembly

    A shallow embedding of the TypeScript pipeline
    (graph builder, cycle / smurfing / shell-chain detectors, ring merger,
    scorer and output assembler) together with the properties stated about
    it.

    Conventions of the embedding.
    - A JavaScript [number] is an exact rational ([Q]); timestamps, which the
      parser floors to integers, are [Z].  Binary rounding error of IEEE
      doubles is not modelled.
    - A JavaScript [string] is a [string] of 8-bit characters; the relational
      operator [<] and the default [Array.prototype.sort] order are
      [String.compare].  [localeCompare] depends on the host collation and is
      a parameter of the sections that use it.
    - [Set] and [Map] iterate in insertion order, and the code relies on it,
      so they are lists without repeated keys, kept in insertion order.
    - [Array.prototype.sort] is stable; it is an insertion sort here. *)

From Stdlib Require Import String Ascii DecimalString.
From Stdlib Require Import List Bool Arith ZArith QArith Qround Qminmax Qabs Lia Lqa.
From Stdlib Require Import Sorted Permutation.
Import ListNotations.

Close Scope Q_scope.
Local Open Scope list_scope.

(** ** JavaScript containers and helpers *)

Module JS.

(** [Set<string>]: elements in insertion order, no repeats. *)
Definition JsSet := list string.

Definition has (s : JsSet) (x : string) : bool := existsb (String.eqb x) s.

Definition add (s : JsSet) (x : string) : JsSet :=
  if has s x then s else s ++ [x].

Definition delete (s : JsSet) (x : string) : JsSet :=
  filter (fun y => negb (String.eqb x y)) s.

(** [new Set(xs)] *)
Definition of_list (xs : list string) : JsSet := fold_left add xs [].

Definition size (s : JsSet) : nat := length s.

(** [Map<string, V>]: bindings in insertion order of their keys. *)
Definition JsMap (V : Type) := list (string * V).

Fixpoint get {V} (m : JsMap V) (k : string) : option V :=
  match m with
  | [] => None
  | (k', v) :: m' => if String.eqb k k' then Some v else get m' k
  end.

Fixpoint set {V} (m : JsMap V) (k : string) (v : V) : JsMap V :=
  match m with
  | [] => [(k, v)]
  | (k', v') :: m' =>
      if String.eqb k k' then (k, v) :: m' else (k', v') :: set m' k v
  end.

Definition keys {V} (m : JsMap V) : list string := map fst m.
Definition values {V} (m : JsMap V) : list V := map snd m.

(** [xs.join(sep)] *)
Definition join (sep : string) (xs : list string) : string := String.concat sep xs.

(** [Array.prototype.sort(cmp)]: stable; the comparator's sign is a
    [comparison] ([Lt] negative, [Eq] zero, [Gt] positive). *)
Section Sort.
Context {A : Type} (cmp : A -> A -> comparison).

Fixpoint insert (x : A) (l : list A) : list A :=
  match l with
  | [] => [x]
  | y :: l' =>
      match cmp x y with
      | Gt => y :: insert x l'
      | _ => x :: l
      end
  end.

Definition sort (l : list A) : list A := fold_right insert [] l.

(** [x] may stand before [y]: the comparator does not put [y] first. *)
Definition cmp_le (x y : A) : Prop := cmp x y <> Gt.
End Sort.

(** [String(n)] for a non-negative integer. *)
Definition String_of_nat (n : nat) : string :=
  NilZero.string_of_uint (Nat.to_uint n).

(** [xs.sort()] on strings *)
Definition sort_strings : list string -> list string := sort String.compare.

(** [Number(x.toFixed(digits))]: nearest multiple of [10^-digits], halves
    away from zero. *)
Definition toFixed (digits : nat) (x : Q) : Q :=
  let s := (10 ^ Z.of_nat digits)%Z in
  if Qle_bool 0 x
  then (Qfloor (x * inject_Z s + (1 # 2)) # Z.to_pos s)%Q
  else (- (Qfloor (- x * inject_Z s + (1 # 2)) # Z.to_pos s))%Q.

End JS.

(** [clamp(n, lo = 0, hi = 100)], the same helper in every source file. *)
Definition clamp (n : Q) : Q := Qmax 0%Q (Qmin 100%Q n).

(** ** Data model *)

Record Tx := mkTx {
  transaction_id : option string;
  sender_id : string;
  receiver_id : string;
  amount : Q;
  t : Z
}.

Record RingCandidate := mkRing {
  pattern_type : string;
  member_accounts : list string;
  risk_score : Q
}.

(** ** Graph builder (graph) *)

Record Graph := mkGraph {
  nodes : JS.JsSet;
  outNeighbors : JS.JsMap JS.JsSet;
  inNeighbors : JS.JsMap JS.JsSet;
  txIn : JS.JsMap (list Tx);
  txOut : JS.JsMap (list Tx);
  edgeTx : JS.JsMap (list Tx);
  degreeTotal : JS.JsMap nat
}.

Definition edgeKey (a b : string) : string := (a ++ "|" ++ b)%string.

Module GraphBuilder.

Definition push (m : JS.JsMap (list Tx)) (k : string) (tx : Tx) : JS.JsMap (list Tx) :=
  match JS.get m k with
  | Some a => JS.set m k (a ++ [tx])
  | None => JS.set m k [tx]
  end.

Definition addNeighbor (m : JS.JsMap JS.JsSet) (a b : string) : JS.JsMap JS.JsSet :=
  match JS.get m a with
  | Some s => JS.set m a (JS.add s b)
  | None => JS.set m a (JS.of_list [b])
  end.

Definition bump (m : JS.JsMap nat) (k : string) : JS.JsMap nat :=
  JS.set m k (match JS.get m k with Some n => n | None => 0 end + 1).

Definition empty : Graph := mkGraph [] [] [] [] [] [] [].

(** One iteration of [for (const tx of txs)]. *)
Definition ingest (g : Graph) (tx : Tx) : Graph :=
  let s := sender_id tx in
  let r := receiver_id tx in
  mkGraph
    (JS.add (JS.add (nodes g) s) r)
    (addNeighbor (outNeighbors g) s r)
    (addNeighbor (inNeighbors g) r s)
    (push (txIn g) r tx)
    (push (txOut g) s tx)
    (push (edgeTx g) (edgeKey s r) tx)
    (bump (bump (degreeTotal g) s) r).

(** [arr.sort((a, b) => a.t - b.t)] *)
Definition by_time (a b : Tx) : comparison := Z.compare (t a) (t b).

Definition sort_lists (m : JS.JsMap (list Tx)) : JS.JsMap (list Tx) :=
  map (fun kv => (fst kv, JS.sort by_time (snd kv))) m.

Definition buildGraph (txs : list Tx) : Graph :=
  let g := fold_left ingest txs empty in
  mkGraph (nodes g) (outNeighbors g) (inNeighbors g)
          (sort_lists (txIn g)) (sort_lists (txOut g)) (sort_lists (edgeTx g))
          (degreeTotal g).

End GraphBuilder.

(** Evidence map: account -> set of tags; [add] of the detectors. *)
Definition EvidenceMap := JS.JsMap JS.JsSet.

Definition add_evidence (ev : EvidenceMap) (a p : string) : EvidenceMap :=
  JS.set ev a (JS.add (match JS.get ev a with Some s => s | None => [] end) p).

(** The account has at least one evidence tag. *)
Definition has_evidence (ev : EvidenceMap) (a : string) : Prop :=
  exists s p, JS.get ev a = Some s /\ In p s.

(** First and last timestamps of the transactions of the edges [edges],
    folded as the detectors do: [minT] starts at [+infinity] ([None]),
    [maxT] at [0]; edges without transactions are skipped. *)
Definition min_opt (m : option Z) (x : Z) : option Z :=
  match m with None => Some x | Some y => Some (Z.min y x) end.

Definition first_t (arr : list Tx) : Z := match arr with [] => 0%Z | x :: _ => t x end.
Definition last_t (arr : list Tx) : Z := t (last arr (mkTx None "" "" 0%Q 0%Z)).

(** [if (!Number.isFinite(minT)) { minT = 0; maxT = 0 }; span = max(0, maxT - minT)] *)
Definition span_of (minT : option Z) (maxT : Z) : Z :=
  match minT with
  | None => Z.max 0 (0 - 0)
  | Some lo => Z.max 0 (maxT - lo)
  end.

(** [b] is an out-neighbour of [a]. *)
Definition has_edge (g : Graph) (a b : string) : Prop :=
  In b (match JS.get (outNeighbors g) a with Some s => s | None => [] end).

(** Every step of [p] follows an out-edge. *)
Definition is_walk (g : Graph) (p : list string) : Prop :=
  Forall (fun e => has_edge g (fst e) (snd e)) (combine p (tl p)).

(** Every member of every ring has at least one evidence tag. *)
Definition tagged (rings : list RingCandidate) (ev : EvidenceMap) : Prop :=
  forall r a, In r rings -> In a (member_accounts r) -> has_evidence ev a.

(** The pattern types of the detectors and the range of the risk each gives
    a ring of its pattern. *)
Definition rated (r : RingCandidate) : Prop :=
  (pattern_type r = "cycle"%string /\ (85 <= risk_score r <= 100)%Q)
  \/ (pattern_type r = "smurfing"%string /\ (94 <= risk_score r <= 100)%Q)
  \/ (pattern_type r = "layered_shell"%string /\ (78 <= risk_score r <= 100)%Q).

(** ** Cycle detector (detect/cycles) *)

Module Cycles.

Definition canonicalCycle (nodes : list string) : list string :=
  let n := length nodes in
  fold_left
    (fun best s =>
       let rot := skipn s nodes ++ firstn s nodes in
       if String.ltb (JS.join "|" rot) (JS.join "|" best) then rot else best)
    (seq 1 (n - 1)) nodes.

Definition cycleRisk (len : nat) (spanSeconds : Z) : Q :=
  (let base := if Nat.eqb len 3 then 893 # 10
              else if Nat.eqb len 4 then 877 # 10 else 85 in
  let hours := inject_Z spanSeconds / 3600 in
  let bonus := if Qle_bool hours 1 then 10
               else if Qle_bool hours 6 then 6
               else if Qle_bool hours 24 then 3 else 0 in
  clamp (base + bonus))%Q.

(** Mutable state of one run: [path] and [visited] of the current start, and
    the accumulators shared by all starts. *)
Record St := mkSt {
  path : list string;
  visited : JS.JsSet;
  seen : JS.JsSet;
  rings : list RingCandidate;
  evidenceByAccount : EvidenceMap
}.

(** Edges [(cyc[i], cyc[(i + 1) % n])]. *)
Definition cycle_edges (cyc : list string) : list (string * string) :=
  combine cyc (skipn 1 cyc ++ firstn 1 cyc).

Definition cycle_span (g : Graph) (cyc : list string) : Z :=
  let '(minT, maxT) :=
    fold_left
      (fun acc e =>
         match JS.get (edgeTx g) (edgeKey (fst e) (snd e)) with
         | Some (x :: arr) =>
             (min_opt (fst acc) (first_t (x :: arr)),
              Z.max (snd acc) (last_t (x :: arr)))
         | _ => acc
         end)
      (cycle_edges cyc) (None, 0%Z) in
  span_of minT maxT.

Definition tag_all (tag : string) (accts : list string) (ev : EvidenceMap) : EvidenceMap :=
  fold_left (fun ev a => add_evidence ev a tag) accts ev.

(** The body of [if (depth >= 3 && depth <= 5)]. *)
Definition close_cycle (g : Graph) (st : St) : St :=
  let cyc := canonicalCycle (path st) in
  let key := JS.join "|" cyc in
  if JS.has (seen st) key then st
  else
    let span := cycle_span g cyc in
    let ring := mkRing "cycle" (JS.sort_strings cyc) (cycleRisk (length cyc) span) in
    let pat := ("cycle_length_" ++ JS.String_of_nat (length cyc))%string in
    mkSt (path st) (visited st) (JS.add (seen st) key) (rings st ++ [ring])
         (tag_all "cycle" cyc (tag_all pat cyc (evidenceByAccount st))).

(** [dfs(u, depth)].  [fuel] bounds the recursion; the source stops at
    [depth > 5], so fuel [7 - depth] is never exhausted
    (lemma [Cycles_dfs_fuel]). *)
Fixpoint dfs (fuel : nat) (g : Graph) (idx : JS.JsMap nat) (start : string)
    (startIdx : nat) (u : string) (depth : nat) (st : St) : St :=
  match fuel with
  | O => st
  | S fuel' =>
      if Nat.ltb 5 depth then st
      else
        match JS.get (outNeighbors g) u with
        | None => st
        | Some nbrs =>
            fold_left
              (fun st v =>
                 match JS.get idx v with
                 | None => st
                 | Some vi =>
                     if Nat.ltb vi startIdx then st
                     else if String.eqb v start then
                       if Nat.leb 3 depth && Nat.leb depth 5
                       then close_cycle g st else st
                     else if JS.has (visited st) v then st
                     else
                       let st1 := mkSt (path st ++ [v]) (JS.add (visited st) v)
                                       (seen st) (rings st) (evidenceByAccount st) in
                       let st2 := dfs fuel' g idx start startIdx v (depth + 1) st1 in
                       mkSt (removelast (path st2)) (JS.delete (visited st2) v)
                            (seen st2) (rings st2) (evidenceByAccount st2)
                 end)
              nbrs st
        end
  end.

(** [new Map(nodes.map((id, i) => [id, i]))] *)
Definition index_map (nodes : list string) : JS.JsMap nat :=
  fold_left (fun m kv => JS.set m (fst kv) (snd kv))
            (combine nodes (seq 0 (length nodes))) [].

(** One iteration of [for (const start of nodes)]. *)
Definition from_start (g : Graph) (idx : JS.JsMap nat) (acc : St) (start : string) : St :=
  match JS.get idx start with
  | None => acc
  | Some startIdx =>
      dfs 6 g idx start startIdx start 1
          (mkSt [start] (JS.of_list [start])
                (seen acc) (rings acc) (evidenceByAccount acc))
  end.

Definition detectCycles35 (g : Graph) : list RingCandidate * EvidenceMap :=
  let nodes := JS.sort_strings (nodes g) in
  let idx := index_map nodes in
  let st := fold_left (from_start g idx) nodes (mkSt [] [] [] [] []) in
  (rings st, evidenceByAccount st).

(** [cyc] is a closed walk: every node has an out-edge to the next one, the
    last to the first. *)
Definition is_cycle (g : Graph) (cyc : list string) : Prop :=
  Forall (fun e => has_edge g (fst e) (snd e)) (cycle_edges cyc).

(** The ring lists the nodes of a directed cycle of the graph. *)
Definition sound (g : Graph) (r : RingCandidate) : Prop :=
  exists cyc, Permutation cyc (member_accounts r) /\ NoDup cyc /\ is_cycle g cyc.

(** The ring's risk is [cycleRisk] of its size at some non-negative span. *)
Definition priced (r : RingCandidate) : Prop :=
  exists span, (0 <= span)%Z
               /\ risk_score r = cycleRisk (length (member_accounts r)) span.

(** What every emitted cycle ring satisfies. *)
Definition good (r : RingCandidate) : Prop :=
  pattern_type r = "cycle"%string
  /\ (3 <= length (member_accounts r) <= 5)%nat
  /\ NoDup (member_accounts r).

End Cycles.

(** ** Numeric helpers shared by the detectors *)

Definition Qlt_bool (a b : Q) : bool := negb (Qle_bool b a).

(** [median(nums)]: numeric sort, middle element or mean of the two middle
    ones; [0] on the empty list. *)
Definition median (nums : list Q) : Q :=
  match nums with
  | [] => 0%Q
  | _ =>
      let a := JS.sort Qcompare nums in
      let mid := (length a / 2)%nat in
      if Nat.odd (length a) then nth mid a 0%Q
      else ((nth (mid - 1) a 0 + nth mid a 0) / 2)%Q
  end.

(** ** Shell-chain detector (detect/shellChains) *)

Module ShellChains.

Definition MAX_DEPTH : nat := 6.
Definition MAX_PATHS_PER_START : nat := 25.

Definition chainRisk (hops : nat) (spanSeconds : Z) : Q :=
  (let base := 78 + (35 # 10) * (inject_Z (Z.of_nat hops) - 3) in
   let hours := inject_Z spanSeconds / 3600 in
   let bonus := if Qle_bool hours 2 then 10
                else if Qle_bool hours 12 then 6
                else if Qle_bool hours 48 then 3 else 0 in
   clamp (base + bonus))%Q.

Definition edgeMedianAmount (g : Graph) (a b : string) : Q :=
  let arr := match JS.get (edgeTx g) (edgeKey a b) with Some l => l | None => [] end in
  match arr with
  | [] => 0%Q
  | _ =>
      let amts := JS.sort Qcompare (map amount arr) in
      let mid := (length amts / 2)%nat in
      if Nat.odd (length amts) then nth mid amts 0%Q
      else ((nth (mid - 1) amts 0 + nth mid amts 0) / 2)%Q
  end.

(** Low-activity shells: nodes with 2 or 3 incident transactions. *)
Definition low_set (g : Graph) : JS.JsSet :=
  fold_left
    (fun low kv => if Nat.leb 2 (snd kv) && Nat.leb (snd kv) 3
                   then JS.add low (fst kv) else low)
    (degreeTotal g) [].

Record St := mkSt {
  path : list string;
  visited : JS.JsSet;
  seen : JS.JsSet;
  rings : list RingCandidate;
  evidenceByAccount : EvidenceMap;
  found : nat
}.

Definition degree_in (m : JS.JsMap JS.JsSet) (node : string) : nat :=
  match JS.get m node with Some s => JS.size s | None => 0 end.

(** [path[1 .. path.length - 2]] *)
Definition intermediates (p : list string) : list string := removelast (tl p).

(** The loop [for (i = 1; i <= path.length - 2; i++)] with its breaks. *)
Definition shell_like (g : Graph) (low : JS.JsSet) (p : list string) : bool :=
  forallb
    (fun node =>
       JS.has low node
       && Nat.eqb (degree_in (inNeighbors g) node) 1
       && Nat.eqb (degree_in (outNeighbors g) node) 1)
    (intermediates p).

Record Walk := mkWalk {
  minT : option Z;
  maxT : Z;
  prevEdgeT : option Z;
  prevAmt : option Q
}.

(** The loop over the edges [(path[i], path[i+1])]; [None] when it breaks
    with [ok = false].  The ratio test is exact here; the source divides in
    double precision, so two medians whose ratio is within rounding error of
    1.35 can be judged differently there. *)
Fixpoint walk_edges (g : Graph) (edges : list (string * string)) (w : Walk)
    : option Walk :=
  match edges with
  | [] => Some w
  | (a, b) :: rest =>
      match JS.get (edgeTx g) (edgeKey a b) with
      | Some (x :: arr') =>
          let arr := x :: arr' in
          let edgeT := first_t arr in
          let amt := edgeMedianAmount g a b in
          let minT' := min_opt (minT w) (first_t arr) in
          let maxT' := Z.max (maxT w) (last_t arr) in
          let late :=
            match prevEdgeT w with
            | Some p =>
                Z.ltb (edgeT + 3600) p || Z.gtb (Z.abs (edgeT - p)) (24 * 3600)
            | None => false
            end in
          if late then None
          else
            let apart :=
              match prevAmt w with
              | Some pa =>
                  Qlt_bool 0 amt && Qlt_bool 0 pa
                  && (let ratio := if Qlt_bool pa amt then (amt / pa)%Q
                                   else (pa / amt)%Q in
                      Qlt_bool (135 # 100) ratio)
              | None => false
              end in
            if apart then None
            else walk_edges g rest (mkWalk minT' maxT' (Some edgeT) (Some amt))
      | _ => None
      end
  end.

Definition path_edges (p : list string) : list (string * string) := combine p (tl p).

Definition tag_path (p : list string) (ev : EvidenceMap) : EvidenceMap :=
  let n := length p in
  let at_ i := nth i p ""%string in
  let ev := add_evidence ev (at_ 0%nat) "layered_shell_chain" in
  let ev := add_evidence ev (at_ 0%nat) "source_funds" in
  let ev := fold_left
              (fun ev i => add_evidence (add_evidence ev (at_ i) "layered_shell_chain")
                                        (at_ i) "low_activity_shell")
              (seq 1 (n - 3)) ev in
  let ev := add_evidence ev (at_ (n - 2)%nat) "layered_shell_chain" in
  let ev := add_evidence ev (at_ (n - 2)%nat) "pre_cashout" in
  let ev := add_evidence ev (at_ (n - 1)%nat) "layered_shell_chain" in
  add_evidence ev (at_ (n - 1)%nat) "cash_out".

(** The body of [if (nextDepth >= 3)]. *)
Definition try_emit (g : Graph) (low : JS.JsSet) (nextDepth : nat) (st : St) : St :=
  if shell_like g low (path st) then
    match walk_edges g (path_edges (path st)) (mkWalk None 0%Z None None) with
    | None => st
    | Some w =>
        let sig := ("layered_shell|" ++ JS.join "->" (path st))%string in
        if JS.has (seen st) sig then st
        else
          let span := span_of (minT w) (maxT w) in
          let ring := mkRing "layered_shell" (path st)
                             (JS.toFixed 1 (chainRisk nextDepth span)) in
          mkSt (path st) (visited st) (JS.add (seen st) sig) (rings st ++ [ring])
               (tag_path (path st) (evidenceByAccount st)) (found st + 1)
    end
  else st.

(** [dfs(u, depthEdges)].  The source stops at [depthEdges > MAX_DEPTH], so
    fuel [8 - depthEdges] is never exhausted (lemma [ShellChains_dfs_fuel]). *)
Fixpoint dfs (fuel : nat) (g : Graph) (low : JS.JsSet) (u : string)
    (depthEdges : nat) (st : St) : St :=
  match fuel with
  | O => st
  | S fuel' =>
      if Nat.leb MAX_PATHS_PER_START (found st) then st
      else if Nat.ltb MAX_DEPTH depthEdges then st
      else
        match JS.get (outNeighbors g) u with
        | None => st
        | Some nbrs =>
            fold_left
              (fun st v =>
                 if Nat.leb MAX_PATHS_PER_START (found st) then st
                 else if JS.has (visited st) v then st
                 else
                   let nextDepth := (depthEdges + 1)%nat in
                   if Nat.ltb nextDepth 2 && negb (JS.has low v) then st
                   else
                     let st1 := mkSt (path st ++ [v]) (JS.add (visited st) v)
                                     (seen st) (rings st) (evidenceByAccount st)
                                     (found st) in
                     let st2 := if Nat.leb 3 nextDepth
                                then try_emit g low nextDepth st1 else st1 in
                     let st3 := dfs fuel' g low v nextDepth st2 in
                     mkSt (removelast (path st3)) (JS.delete (visited st3) v)
                          (seen st3) (rings st3) (evidenceByAccount st3) (found st3))
              nbrs st
        end
  end.

(** What the acceptance test establishes for an emitted chain. *)
Definition accepted (g : Graph) (low : JS.JsSet) (r : RingCandidate) : Prop :=
  pattern_type r = "layered_shell"%string
  /\ shell_like g low (member_accounts r) = true.

(** The shape of an emitted chain: between 4 and 8 distinct nodes, each with
    an out-edge to the next that carries at least one transaction. *)
Definition well_formed (g : Graph) (r : RingCandidate) : Prop :=
  (4 <= length (member_accounts r) <= 8)%nat
  /\ NoDup (member_accounts r)
  /\ is_walk g (member_accounts r)
  /\ Forall (fun e => exists x arr,
                JS.get (edgeTx g) (edgeKey (fst e) (snd e)) = Some (x :: arr))
            (path_edges (member_accounts r)).

(** One iteration of [for (const start of nodes)]. *)
Definition from_start (g : Graph) (low : JS.JsSet) (acc : St) (start : string) : St :=
  dfs 8 g low start 0
      (mkSt [start] (JS.of_list [start])
            (seen acc) (rings acc) (evidenceByAccount acc) 0).

Definition detectShellChains (g : Graph) : list RingCandidate * EvidenceMap :=
  let low := low_set g in
  let nodes := JS.sort_strings (nodes g) in
  let st := fold_left (from_start g low) nodes (mkSt [] [] [] [] [] 0) in
  (rings st, evidenceByAccount st).

End ShellChains.

(** ** Smurfing detector (detect/smurfing) *)

Module Smurfing.

Definition WINDOW_SEC : Z := 72 * 3600.
Definition MIN_UNIQUE : nat := 10.

(** [amountConsistency(amounts, tol)].  The comparison with the band is
    exact here; the source makes it in double precision, so an amount whose
    distance from the median is within rounding error of the band's edge can
    fall on the other side there (see [EDGE] below). *)
Definition amountConsistency (amounts : list Q) (tol : Q) : Q :=
  if Nat.ltb (length amounts) 6 then 0%Q
  else
    let med := median amounts in
    let band := Qmax 1%Q (med * tol)%Q in
    let close := length (filter (fun x => Qle_bool (Qabs (x - med)) band) amounts) in
    (inject_Z (Z.of_nat close) / inject_Z (Z.of_nat (Nat.max 1 (length amounts))))%Q.





Record WindowHit := mkHit {
  l : nat;
  r : nat;
  uniq : nat;
  minT : Z;
  maxT : Z;
  counterparties : JS.JsSet;
  amounts : list Q
}.

(** [counts.delete(k)] *)
Definition remove {V} (m : JS.JsMap V) (k : string) : JS.JsMap V :=
  filter (fun kv => negb (String.eqb k (fst kv))) m.

Section Window.
Context (getCounterparty : Tx -> string).

(** The [while (list[r].t - list[l].t > WINDOW_SEC)] loop.  [win] is
    [list[l..r]]; it ends with [list[r]], at which the test fails, so the
    empty case is not reached. *)
Fixpoint shrink (tr : Z) (l : nat) (win : list Tx) (counts : JS.JsMap Z)
    : nat * list Tx * JS.JsMap Z :=
  match win with
  | [] => (l, [], counts)
  | y :: win' =>
      if Z.gtb (tr - t y) WINDOW_SEC then
        let cpl := getCounterparty y in
        let v := (match JS.get counts cpl with Some c => c | None => 0 end - 1)%Z in
        let counts' := if Z.leb v 0 then remove counts cpl else JS.set counts cpl v in
        shrink tr (S l) win' counts'
      else (l, win, counts)
  end.

Record Scan := mkScan {
  s_l : nat;
  s_win : list Tx;
  s_counts : JS.JsMap Z;
  s_best : option WindowHit
}.

(** One iteration of [for (r = 0; r < list.length; r++)] at [x = list[r]]. *)
Definition scan_step (sc : Scan) (rx : nat * Tx) : Scan :=
  let '(r, x) := rx in
  let cp := getCounterparty x in
  let counts := JS.set (s_counts sc) cp
                  (match JS.get (s_counts sc) cp with Some c => c | None => 0 end + 1)%Z in
  let '(l, win, counts) := shrink (t x) (s_l sc) (s_win sc ++ [x]) counts in
  let uniq := length counts in
  let best :=
    if Nat.leb MIN_UNIQUE uniq then
      let minT := first_t win in
      let maxT := t x in
      let better :=
        match s_best sc with
        | None => true
        | Some b =>
            Nat.ltb (Smurfing.uniq b) uniq
            || (Nat.eqb uniq (Smurfing.uniq b)
                && Z.ltb (maxT - minT) (Smurfing.maxT b - Smurfing.minT b))
        end in
      if better then
        Some (mkHit l r uniq minT maxT
                    (JS.of_list (map getCounterparty win)) (map amount win))
      else s_best sc
    else s_best sc in
  mkScan l win counts best.

Definition bestUniqueWindow (list : list Tx) : option WindowHit :=
  match list with
  | [] => None
  | _ =>
      s_best (fold_left scan_step (combine (seq 0 (length list)) list)
                        (mkScan 0 [] [] None))
  end.

End Window.

(** What a hit says about [list]: it describes the contiguous window
    [list[l..r]], whose distinct counterparties number [uniq], at least
    [MIN_UNIQUE], and whose first and last entries are at most [WINDOW_SEC]
    apart. *)
Definition hit_ok (getCounterparty : Tx -> string) (list : list Tx) (b : WindowHit)
    : Prop :=
  exists pre win post,
    list = pre ++ win ++ post
    /\ win <> []
    /\ l b = length pre
    /\ r b = (length pre + length win - 1)%nat
    /\ amounts b = map amount win
    /\ counterparties b = JS.of_list (map getCounterparty win)
    /\ uniq b = JS.size (counterparties b)
    /\ (MIN_UNIQUE <= uniq b)%nat
    /\ minT b = first_t win
    /\ maxT b = last_t win
    /\ (maxT b - minT b <= WINDOW_SEC)%Z.

(** Invariant of the scan after the entries [done]: the window is a suffix
    of [done] starting at index [s_l], and [counts] maps every counterparty
    of the window to its number of occurrences there, and nothing else. *)
Definition scan_inv (getCounterparty : Tx -> string) (done : list Tx) (sc : Scan)
    : Prop :=
  (exists pre, done = pre ++ s_win sc /\ s_l sc = length pre)
  /\ NoDup (JS.keys (s_counts sc))
  /\ forall k,
       JS.get (s_counts sc) k
       = let c := Z.of_nat (count_occ string_dec (map getCounterparty (s_win sc)) k) in
         if Z.eqb c 0 then None else Some c.

Definition list_of (m : JS.JsMap (list Tx)) (k : string) : list Tx :=
  match JS.get m k with Some a => a | None => [] end.

(** Unique senders of [cand]'s in-list among [receivers] within [minT, maxT]. *)
Definition cash_senders (g : Graph) (receivers : JS.JsSet) (minT maxT : Z)
    (cand : string) : JS.JsSet :=
  fold_left
    (fun uniqSenders tx =>
       if Z.ltb (t tx) minT || Z.gtb (t tx) maxT then uniqSenders
       else if JS.has receivers (sender_id tx) then JS.add uniqSenders (sender_id tx)
       else uniqSenders)
    (list_of (txIn g) cand) [].

(** One iteration of the cash-out scan [for (const cand of graph.nodes)];
    the state is [(cashout, bestCashU)]. *)
Definition cash_step (g : Graph) (receivers : JS.JsSet) (minT maxT : Z)
    (acc : option string * nat) (cand : string) : option string * nat :=
  if Nat.ltb (length (list_of (txIn g) cand)) MIN_UNIQUE then acc
  else
    let u := JS.size (cash_senders g receivers minT maxT cand) in
    if Nat.leb MIN_UNIQUE u then
      let outCount := length (list_of (txOut g) cand) in
      if Nat.leb outCount 2 then
        if Nat.ltb (snd acc) u then (Some cand, u) else acc
      else acc
    else acc.

(** The count the scan maximises, and the candidates it admits: at least
    [MIN_UNIQUE] such senders and an out-list of length at most 2. *)
Definition cash_count (g : Graph) (receivers : JS.JsSet) (minT maxT : Z)
    (cand : string) : nat :=
  JS.size (cash_senders g receivers minT maxT cand).

Definition cash_candidate (g : Graph) (receivers : JS.JsSet) (minT maxT : Z)
    (cand : string) : bool :=
  Nat.leb MIN_UNIQUE (cash_count g receivers minT maxT cand)
  && Nat.leb (length (list_of (txOut g) cand)) 2.

Definition find_cashout (g : Graph) (receivers : JS.JsSet) (minT maxT : Z)
    : option string :=
  fst (fold_left (cash_step g receivers minT maxT) (nodes g) (None, 0%nat)).

Record HubHit := mkHub {
  hub : string;
  bestIn : WindowHit;
  bestOut : WindowHit;
  hub_minT : Z;
  hub_maxT : Z;
  inCons : Q;
  outCons : Q;
  cashout : option string
}.

(** The tests of one hub up to the cash-out scan; [None] is [continue]. *)
Definition analyze_hub (g : Graph) (hub : string) : option HubHit :=
  let inTx := list_of (txIn g) hub in
  let outTx := list_of (txOut g) hub in
  if Nat.ltb (length inTx) MIN_UNIQUE || Nat.ltb (length outTx) MIN_UNIQUE then None
  else
    match bestUniqueWindow sender_id inTx, bestUniqueWindow receiver_id outTx with
    | Some bestIn, Some bestOut =>
        let minT := Z.min (minT bestIn) (minT bestOut) in
        let maxT := Z.max (maxT bestIn) (maxT bestOut) in
        if Z.gtb (maxT - minT) WINDOW_SEC then None
        else
          let inCons := amountConsistency (amounts bestIn) (8 # 100)%Q in
          let outCons := amountConsistency (amounts bestOut) (8 # 100)%Q in
          let strongAmountSignature :=
            Qle_bool (5 # 10)%Q inCons || Qle_bool (45 # 100)%Q outCons in
          if negb strongAmountSignature then None
          else
            Some (mkHub hub bestIn bestOut minT maxT inCons outCons
                        (find_cashout g (counterparties bestOut) minT maxT))
    | _, _ => None
    end.

(** A string is truthy unless empty. *)
Definition truthy (c : option string) : bool :=
  match c with
  | Some s => negb (String.eqb s "")
  | None => false
  end.

Definition includes (xs : list string) (x : string) : bool := existsb (String.eqb x) xs.


Definition members_of (h : HubHit) : list string :=
  let senderList := JS.sort_strings (counterparties (bestIn h)) in
  let receiverList := JS.sort_strings (counterparties (bestOut h)) in
  let member_accounts := [hub h] ++ senderList ++ receiverList in
  match cashout h with
  | Some c =>
      if truthy (cashout h) && negb (includes member_accounts c)
      then member_accounts ++ [c] else member_accounts
  | None => member_accounts
  end.

(** The sum is exact here; the source adds in double precision, which can
    move the risk by one unit of the decimal that [toFixed(1)] keeps. *)
Definition risk_of (h : HubHit) : Q :=
  (let sizeScore := 70 + (12 # 10) * inject_Z (Z.of_nat (JS.size (counterparties (bestIn h))))
                       + (12 # 10) * inject_Z (Z.of_nat (JS.size (counterparties (bestOut h)))) in
   let amtBonus := 6 * Qmax (inCons h) (outCons h) in
   let cashBonus := if truthy (cashout h) then 4 else 0 in
   clamp (sizeScore + amtBonus + cashBonus))%Q.

Definition ring_of (h : HubHit) : RingCandidate :=
  mkRing "smurfing" (members_of h) (JS.toFixed 1 (risk_of h)).

Definition addPats (pats : list string) (ev : EvidenceMap) (acct : string) : EvidenceMap :=
  fold_left (fun ev p => add_evidence ev acct p) pats ev.

Definition tag_hub (h : HubHit) (ev : EvidenceMap) : EvidenceMap :=
  let ev := addPats ["smurfing_fan_in"; "smurfing_fan_out"; "temporal_72h"]%string ev (hub h) in
  let ev := fold_left (addPats ["smurfing_fan_in"; "temporal_72h"]%string)
                      (counterparties (bestIn h)) ev in
  let ev := fold_left (addPats ["smurfing_fan_out"; "temporal_72h"]%string)
                      (counterparties (bestOut h)) ev in
  match cashout h with
  | Some c =>
      if truthy (cashout h)
      then addPats ["smurfing_fan_out"; "temporal_72h"; "cash_out"]%string ev c
      else ev
  | None => ev
  end.

(** One iteration of [for (const hub of graph.nodes)]. *)
Definition hub_step (g : Graph) (acc : list RingCandidate * EvidenceMap) (hub : string)
    : list RingCandidate * EvidenceMap :=
  match analyze_hub g hub with
  | None => acc
  | Some h => (fst acc ++ [ring_of h], tag_hub h (snd acc))
  end.

Definition detectSmurfing (g : Graph) : list RingCandidate * EvidenceMap :=
  fold_left (hub_step g) (nodes g) ([], []).

End Smurfing.

(** ** Ring merger (rings/merge) *)

Module Merge.

Definition jaccard (a b : JS.JsSet) : Q :=
  let inter := length (filter (JS.has b) a) in
  let uni := (JS.size a + JS.size b - inter)%nat in
  if Nat.eqb uni 0 then 0%Q else (Z.of_nat inter # Pos.of_nat uni)%Q.

(** The inner [for (j = i + 1; ...)] loop.  [rest] is [rings[i+1..]] and [used]
    the matching suffix of the [used] array; [best] is
    [(bestRisk, bestMembers)]. *)
Fixpoint inner (J : Q) (base : RingCandidate) (members : JS.JsSet)
    (rest : list RingCandidate) (used : list bool) (best : Q * list string)
    : (Q * list string) * list bool :=
  match rest, used with
  | r :: rest', u :: used' =>
      if u then
        let '(b, us) := inner J base members rest' used' best in (b, u :: us)
      else if negb (String.eqb (pattern_type r) (pattern_type base)) then
        let '(b, us) := inner J base members rest' used' best in (b, u :: us)
      else
        let js := jaccard members (JS.of_list (member_accounts r)) in
        if Qle_bool J js then
          let best' :=
            if negb (Qle_bool (risk_score r) (fst best))
            then (risk_score r, member_accounts r) else best in
          let '(b, us) := inner J base members rest' used' best' in
          (b, true :: us)
        else
          let '(b, us) := inner J base members rest' used' best in (b, u :: us)
  | _, _ => (best, used)
  end.

(** The outer [for (i = 0; ...)] loop over [rings[i..]] and [used[i..]]. *)
Fixpoint outer (J : Q) (rings : list RingCandidate) (used : list bool)
    : list RingCandidate :=
  match rings, used with
  | base :: rest, u :: used' =>
      if u then outer J rest used'
      else
        let members := JS.of_list (member_accounts base) in
        let '((bestRisk, bestMembers), used'') :=
          inner J base members rest used'
                (risk_score base, member_accounts base) in
        mkRing (pattern_type base) bestMembers bestRisk :: outer J rest used''
  | _, _ => []
  end.

Definition mergeRings (rings : list RingCandidate) (J : Q) : list RingCandidate :=
  outer J rings (repeat false (length rings)).

(** Default threshold of the helper, and the one the pipeline passes. *)
Definition J_default : Q := (7 # 10)%Q.
Definition J_pipeline : Q := (6 # 10)%Q.

(** The update of [(bestRisk, bestMembers)] by a consumed ring. *)
Definition upd (best : Q * list string) (r : RingCandidate) : Q * list string :=
  if negb (Qle_bool (risk_score r) (fst best))
  then (risk_score r, member_accounts r) else best.

(** *** Merge classes (specification side)

    The rings the inner loop consumes for [base], in input order, and the
    class [(base, consumed)] of every outer iteration that emits a ring. *)
Fixpoint absorbed (J : Q) (base : RingCandidate) (members : JS.JsSet)
    (rest : list RingCandidate) (used : list bool) : list RingCandidate :=
  match rest, used with
  | r :: rest', u :: used' =>
      if u then absorbed J base members rest' used'
      else if negb (String.eqb (pattern_type r) (pattern_type base)) then
        absorbed J base members rest' used'
      else if Qle_bool J (jaccard members (JS.of_list (member_accounts r))) then
        r :: absorbed J base members rest' used'
      else absorbed J base members rest' used'
  | _, _ => []
  end.

Fixpoint classes (J : Q) (rings : list RingCandidate) (used : list bool)
    : list (RingCandidate * list RingCandidate) :=
  match rings, used with
  | base :: rest, u :: used' =>
      if u then classes J rest used'
      else
        let members := JS.of_list (member_accounts base) in
        (base, absorbed J base members rest used')
          :: classes J rest
               (snd (inner J base members rest used'
                       (risk_score base, member_accounts base)))
  | _, _ => []
  end.

Definition merge_classes (rings : list RingCandidate) (J : Q) :=
  classes J rings (repeat false (length rings)).

(** [a] would consume a later [b]: same pattern and Jaccard at least [J]. *)
Definition similar (J : Q) (a b : RingCandidate) : bool :=
  String.eqb (pattern_type b) (pattern_type a)
  && Qle_bool J (jaccard (JS.of_list (member_accounts a))
                         (JS.of_list (member_accounts b))).

(** No ring of the list is within the threshold of a later one: a pass of
    [mergeRings] over such a list consumes nothing. *)
Definition settled (J : Q) (rings : list RingCandidate) : Prop :=
  ForallOrdPairs (fun a b => similar J a b = false) rings.

(** No consumed ring out-risks the ring that consumed it: every
    representative keeps the member list and the risk of its class's first
    ring. *)
Definition bases_lead (J : Q) (rings : list RingCandidate) : Prop :=
  forall base cls r,
    In (base, cls) (merge_classes rings J) -> In r cls ->
    (risk_score r <= risk_score base)%Q.

End Merge.

(** ** Best binding per member (specification side)

    Invariant of the maps that keep, for every account, the best of the
    items met so far that list it: [Seen] tells the items met, [val] the
    binding an item offers, and [le x y] that [y] is at least as good as
    [x]. *)
Definition best_inv {I V : Type} (val : I -> V) (le : V -> V -> Prop) (a : string)
    (Seen : I -> Prop) (m : JS.JsMap V) : Prop :=
  match JS.get m a with
  | None => forall it, ~ Seen it
  | Some v => (exists it, Seen it /\ val it = v) /\ forall it, Seen it -> le (val it) v
  end.

(** ** Scorer (score) *)

Module Score.

Record AccountScoreState := mkState {
  score : Q;
  patterns : JS.JsSet;
  ringId : option string
}.

Definition initAccountScores (nodes : JS.JsSet) : JS.JsMap AccountScoreState :=
  fold_left (fun m n => JS.set m n (mkState 0%Q [] None)) nodes [].

(** FNV-1a over the character codes, in 32-bit arithmetic ([Math.imul],
    [>>> 0]), divided by [2 ** 32]. *)
Definition fnv1a (s : string) : Z :=
  fold_left
    (fun h c => ((Z.lxor h (Z.of_nat (nat_of_ascii c))) * 16777619) mod 2 ^ 32)%Z
    (list_ascii_of_string s) 2166136261%Z.

Definition stableJitter01 (s : string) : Q := (fnv1a s # 2 ^ 32)%Q.

(** No-op kept by the source for older wiring. *)
Definition adjustRingRisks (rings : list RingCandidate) : list RingCandidate := rings.

(** [bestRingByAccount]: the highest-risk ring of every member, the first one
    on ties. *)
Definition bestRingByAccount (rings : list RingCandidate) : JS.JsMap RingCandidate :=
  fold_left
    (fun m r =>
       fold_left
         (fun m a =>
            match JS.get m a with
            | Some prev =>
                if Qlt_bool (risk_score prev) (risk_score r) then JS.set m a r else m
            | None => JS.set m a r
            end)
         (member_accounts r) m)
    rings [].

Definition role_score (acct : string) (ring : RingCandidate) (pats : JS.JsSet) : Q :=
  (let jitter := (stableJitter01 (acct ++ "|" ++ pattern_type ring) - (5 # 10)) * (8 # 10) in
   let risk := risk_score ring in
   if String.eqb (pattern_type ring) "cycle" then risk - (31 # 10) + jitter
   else if String.eqb (pattern_type ring) "smurfing" then
     let isHub := match member_accounts ring with
                  | m0 :: _ => String.eqb m0 acct
                  | [] => false
                  end in
     let isCashout := JS.has pats "cash_out" in
     if isHub then risk + (28 # 10)
     else if isCashout then risk + (17 # 10)
     else if JS.has pats "smurfing_fan_out" then risk - (59 # 10) + jitter
     else if JS.has pats "smurfing_fan_in" then risk - (164 # 10) + jitter
     else risk - 10 + jitter
   else if String.eqb (pattern_type ring) "layered_shell" then
     if JS.has pats "cash_out" then risk + (22 # 10)
     else if JS.has pats "low_activity_shell" then risk + (4 # 10) + jitter
     else if JS.has pats "pre_cashout" then risk - (17 # 10) + jitter
     else if JS.has pats "source_funds" then risk - (54 # 10) + jitter
     else risk - 1 + jitter
   else risk)%Q.

(** One iteration of [for (const [acct, st] of accountScores.entries())]. *)
Definition score_account (best : JS.JsMap RingCandidate) (evidence : EvidenceMap)
    (entry : string * AccountScoreState) : string * AccountScoreState :=
  let '(acct, st) := entry in
  match JS.get best acct with
  | None => entry
  | Some ring =>
      let pats := match JS.get evidence acct with
                  | Some basePats => fold_left JS.add basePats (patterns st)
                  | None => patterns st
                  end in
      (acct, mkState (clamp (JS.toFixed 1 (role_score acct ring pats))) pats None)
  end.

Definition applyWinModeScoring (rings : list RingCandidate) (evidence : EvidenceMap)
    (accountScores : JS.JsMap AccountScoreState) : JS.JsMap AccountScoreState :=
  map (score_account (bestRingByAccount rings) evidence) accountScores.

End Score.

(** ** Output document (types/output) *)

Module Out.

Record FraudRing := mkFraudRing {
  ring_id : string;
  pattern_type : string;
  member_accounts : list string;
  risk_score : Q
}.

Record SuspiciousAccount := mkSuspicious {
  account_id : string;
  suspicion_score : Q;
  sa_ring_id : option string;
  detected_patterns : list string
}.

Record OutputSummary := mkSummary {
  total_accounts_analyzed : nat;
  suspicious_accounts_flagged : nat;
  fraud_rings_detected : nat;
  processing_time_seconds : Q
}.

Record OutputJSON := mkOutput {
  summary : OutputSummary;
  fraud_rings : list FraudRing;
  suspicious_accounts : list SuspiciousAccount
}.

End Out.

(** ** Output assembler (output) *)

Module Output.

Definition uniqPreserveOrder (xs : list string) : list string :=
  fst (fold_left
         (fun acc x =>
            if JS.has (snd acc) x then acc
            else (fst acc ++ [x], JS.add (snd acc) x))
         xs ([], [])).

(** In the specification's words: duplicates removed, first occurrences
    kept in place. *)
Fixpoint dedup_first (xs : list string) : list string :=
  match xs with
  | [] => []
  | x :: xs' => x :: filter (fun y => negb (String.eqb x y)) (dedup_first xs')
  end.

(** [[...new Set(r.member_accounts)].sort()] *)
Definition sorted_members (r : RingCandidate) : list string :=
  JS.sort_strings (JS.of_list (member_accounts r)).

Definition ringSignature (r : RingCandidate) : string :=
  (pattern_type r ++ "|" ++ JS.join "," (sorted_members r))%string.

(** An account id as the parser delivers it (not empty) that holds no comma,
    the separator of [ringSignature]. *)
Definition id_ok (s : string) : bool :=
  negb (String.eqb s "")
  && negb (existsb (Ascii.eqb ",") (list_ascii_of_string s)).

(** A ring whose signature determines its pattern type and its member set:
    the pattern type holds no [|] and every member id passes [id_ok]. *)
Definition ring_ok (r : RingCandidate) : bool :=
  negb (existsb (Ascii.eqb "|") (list_ascii_of_string (pattern_type r)))
  && forallb id_ok (member_accounts r).

Definition pattern_order : list string :=
  [ "cycle_length_3"; "cycle_length_4"; "cycle_length_5"; "cycle"
  ; "smurfing_fan_in"; "smurfing_fan_out"; "temporal_72h"
  ; "layered_shell_chain"; "source_funds"; "low_activity_shell"
  ; "pre_cashout"; "cash_out" ]%string.

Fixpoint indexOf (xs : list string) (p : string) (i : nat) : option nat :=
  match xs with
  | [] => None
  | x :: xs' => if String.eqb x p then Some i else indexOf xs' p (S i)
  end.

Definition patternRank (p : string) : nat :=
  match indexOf pattern_order p 0 with
  | Some i => i
  | None => 999
  end.

Definition patternPriority (pt : string) : nat :=
  if String.eqb pt "cycle" then 1
  else if String.eqb pt "smurfing" then 2
  else if String.eqb pt "layered_shell" then 3
  else 9.

(** [s.padStart(3, "0")] *)
Definition padStart3 (s : string) : string :=
  (match String.length s with
   | 0 => "000"
   | 1 => "00"
   | 2 => "0"
   | _ => ""
   end ++ s)%string.

Definition ring_id_of (idx : nat) : string :=
  ("RING_" ++ padStart3 (JS.String_of_nat (idx + 1)))%string.

(** Step 1: [bestBySig]. *)
Definition bestBySig (rings : list RingCandidate) : JS.JsMap RingCandidate :=
  fold_left
    (fun m r =>
       let sig := ringSignature r in
       match JS.get m sig with
       | Some prev =>
           if Qlt_bool (risk_score prev) (risk_score r) then JS.set m sig r else m
       | None => JS.set m sig r
       end)
    rings [].

(** Invariant of [bestBySig] after the rings [seen]: one binding per
    signature met, holding a ring of that signature with the highest risk. *)
Definition sig_inv (seen : list RingCandidate) (m : JS.JsMap RingCandidate) : Prop :=
  NoDup (JS.keys m)
  /\ (forall k r, In (k, r) m ->
        ringSignature r = k /\ In r seen
        /\ forall r', In r' seen -> ringSignature r' = k ->
                      (risk_score r' <= risk_score r)%Q)
  /\ (forall r, In r seen -> In (ringSignature r) (JS.keys m)).

Definition to_fraud_ring (idx : nat) (r : RingCandidate) : Out.FraudRing :=
  Out.mkFraudRing
    (ring_id_of idx)
    (pattern_type r)
    (if String.eqb (pattern_type r) "cycle" then sorted_members r
     else uniqPreserveOrder (member_accounts r))
    (clamp (JS.toFixed 1 (risk_score r))).

(** Step 3: [memberToBestRing], bindings [(ring_id, risk)]. *)
Definition memberToBestRing (fraud_rings : list Out.FraudRing) : JS.JsMap (string * Q) :=
  fold_left
    (fun m ring =>
       fold_left
         (fun m a =>
            match JS.get m a with
            | Some prev =>
                if Qlt_bool (snd prev) (Out.risk_score ring)
                   || (Qeq_bool (Out.risk_score ring) (snd prev)
                       && String.ltb (Out.ring_id ring) (fst prev))
                then JS.set m a (Out.ring_id ring, Out.risk_score ring) else m
            | None => JS.set m a (Out.ring_id ring, Out.risk_score ring)
            end)
         (Out.member_accounts ring) m)
    fraud_rings [].

(** Binding [y] is at least as good as [x] for step 3: a higher risk, or an
    equal risk and a ring id that is not greater. *)
Definition ring_pref (x y : string * Q) : Prop :=
  (snd x < snd y)%Q
  \/ ((snd x == snd y)%Q /\ String.compare (fst y) (fst x) <> Gt).

Section Assembler.
Variable localeCompare : string -> string -> comparison.

Definition orderPatterns (patterns : JS.JsSet) : list string :=
  JS.sort
    (fun a b =>
       let ra := patternRank a in
       let rb := patternRank b in
       if negb (Nat.eqb ra rb) then Nat.compare ra rb else localeCompare a b)
    patterns.

(** Comparator of step 2. *)
Definition ring_cmp (a b : RingCandidate) : comparison :=
  let pa := patternPriority (pattern_type a) in
  let pb := patternPriority (pattern_type b) in
  if negb (Nat.eqb pa pb) then Nat.compare pa pb
  else localeCompare (JS.join "|" (sorted_members a)) (JS.join "|" (sorted_members b)).


(** Comparator of the final sort:
    [(b.suspicion_score - a.suspicion_score) || a.account_id.localeCompare(b.account_id)]. *)
Definition account_cmp (a b : Out.SuspiciousAccount) : comparison :=
  match Qcompare (Out.suspicion_score b) (Out.suspicion_score a) with
  | Eq => localeCompare (Out.account_id a) (Out.account_id b)
  | c => c
  end.

(** [a] may be listed before [b]: higher score, or equal scores and an
    account id that does not collate after [b]'s. *)
Definition ranks_before (a b : Out.SuspiciousAccount) : Prop :=
  (Out.suspicion_score b < Out.suspicion_score a)%Q
  \/ ((Out.suspicion_score a == Out.suspicion_score b)%Q
      /\ localeCompare (Out.account_id a) (Out.account_id b) <> Gt).

Definition ringList (rings : list RingCandidate) : list RingCandidate :=
  JS.sort ring_cmp (JS.values (bestBySig rings)).

Definition fraud_rings_of (rings : list RingCandidate) : list Out.FraudRing :=
  map (fun ir => to_fraud_ring (fst ir) (snd ir))
      (combine (seq 0 (length (ringList rings))) (ringList rings)).

(** Step 4, one iteration of [for (const [account_id, v] of accountScores.entries())]:
    the account pushed, or [None] for [continue]. *)
Definition suspicious_entry (best : JS.JsMap (string * Q))
    (entry : string * Score.AccountScoreState) : option Out.SuspiciousAccount :=
  let '(account_id, v) := entry in
  let suspicion_score := clamp (JS.toFixed 1 (Score.score v)) in
  if Qlt_bool suspicion_score 60 then None
  else
    let ring_id := match JS.get best account_id with
                   | Some b => Some (fst b)
                   | None => Score.ringId v
                   end in
    let patterns := JS.of_list (Score.patterns v) in
    if Nat.eqb (JS.size patterns) 0 then None
    else Some (Out.mkSuspicious account_id suspicion_score ring_id
                                (orderPatterns patterns)).

Definition suspicious_step (best : JS.JsMap (string * Q))
    (acc : list Out.SuspiciousAccount) (entry : string * Score.AccountScoreState)
    : list Out.SuspiciousAccount :=
  match suspicious_entry best entry with
  | None => acc
  | Some sa => acc ++ [sa]
  end.

Definition suspicious_of (best : JS.JsMap (string * Q))
    (accountScores : JS.JsMap Score.AccountScoreState) : list Out.SuspiciousAccount :=
  JS.sort account_cmp (fold_left (suspicious_step best) accountScores []).

Definition buildDeterministicOutput (allNodes : JS.JsSet) (rings : list RingCandidate)
    (accountScores : JS.JsMap Score.AccountScoreState) (processingSeconds : Q)
    : Out.OutputJSON :=
  let fraud_rings := fraud_rings_of rings in
  let suspicious_accounts := suspicious_of (memberToBestRing fraud_rings) accountScores in
  Out.mkOutput
    (Out.mkSummary (JS.size allNodes) (length suspicious_accounts)
                   (length fraud_rings) (JS.toFixed 3 processingSeconds))
    fraud_rings suspicious_accounts.

End Assembler.

End Output.

(** ** Pipeline entry (app/api/analyze/route) *)

Module Route.


(** [mergeEv]: union of one detector's evidence into the accumulated map. *)
Definition mergeEv (acc m : EvidenceMap) : EvidenceMap :=
  fold_left
    (fun acc kv =>
       let cur := match JS.get acc (fst kv) with Some s => s | None => [] end in
       JS.set acc (fst kv) (fold_left JS.add (snd kv) cur))
    m acc.

(** Every account id of the input is non-empty and free of commas. *)
Definition ids_ok (txs : list Tx) : bool :=
  forallb (fun tx => Output.id_ok (sender_id tx) && Output.id_ok (receiver_id tx)) txs.

Section Pipeline.
Variable localeCompare : string -> string -> comparison.

(** The parser is an external collaborator: it returns the sorted
    transactions or throws with a message. *)
Variable parseCsvStrict : string -> string + list Tx.

(** The rings handed to the scorer and the assembler. *)
Definition detected_rings (g : Graph) : list RingCandidate :=
  let smurf := Smurfing.detectSmurfing g in
  let cycles := Cycles.detectCycles35 g in
  let shells := ShellChains.detectShellChains g in
  fst smurf ++ fst cycles ++ fst shells.

Definition merged_rings (g : Graph) : list RingCandidate :=
  Merge.mergeRings (Score.adjustRingRisks (detected_rings g)) Merge.J_pipeline.

Definition merged_evidence (g : Graph) : EvidenceMap :=
  let smurf := Smurfing.detectSmurfing g in
  let cycles := Cycles.detectCycles35 g in
  let shells := ShellChains.detectShellChains g in
  mergeEv (mergeEv (mergeEv [] (snd smurf)) (snd cycles)) (snd shells).

(** The pipeline from the parsed transactions on.  [t0] and [t1] are the two
    readings of [Date.now()], in milliseconds. *)
Definition analyze (txs : list Tx) (t0 t1 : Z) : Out.OutputJSON :=
  let g := GraphBuilder.buildGraph txs in
  let rings := merged_rings g in
  let accountScores :=
    Score.applyWinModeScoring rings (merged_evidence g)
                              (Score.initAccountScores (nodes g)) in
  let processingSeconds := (inject_Z (t1 - t0) / 1000)%Q in
  Output.buildDeterministicOutput localeCompare (nodes g) rings accountScores
                                  processingSeconds.


End Pipeline.

End Route.

(** ** Example inputs *)

Module Examples.

Definition tx (s r : string) (a : Q) (time : Z) : Tx := mkTx None s r a time.

Definition names (prefix : string) : list string :=
  map (fun d => (prefix ++ d)%string)
      ["0"; "1"; "2"; "3"; "4"; "5"; "6"; "7"; "8"; "9"]%string.

(** Ten senders pay the hub [H], which pays ten receivers; inside the same
    window every receiver also pays [z] and then [y]. *)
Definition tie_txs : list Tx :=
  map (fun s => tx s "H" 100%Q 10%Z) (names "s")
  ++ map (fun r => tx r "z" 100%Q 12%Z) (names "r")
  ++ map (fun r => tx r "y" 100%Q 14%Z) (names "r")
  ++ map (fun r => tx "H" r 100%Q 20%Z) (names "r").

(** One chain [a -> b -> c -> d], an hour between hops. *)
Definition chain_txs : list Tx :=
  [ tx "a" "b" 1000%Q 0%Z; tx "b" "c" 1000%Q 3600%Z; tx "c" "d" 1000%Q 7200%Z ].

(** A 3-cycle with a self-loop and a back-and-forth pair on the side. *)
Definition cycle_txs : list Tx :=
  [ tx "A" "A" 50%Q 900%Z; tx "A" "B" 50%Q 1000%Z; tx "B" "A" 50%Q 1100%Z
  ; tx "B" "C" 49%Q 1600%Z; tx "C" "A" 48%Q 2200%Z ].

End Examples.
(** * Properties *)

(** ** Lists, sets and sorting *)

Lemma fold_left_inv {A B} (P : A -> Prop) (f : A -> B -> A) (l : list B) :
  (forall a b, In b l -> P a -> P (f a b)) ->
  forall a, P a -> P (fold_left f l a).
Proof.
  induction l as [|b l IH]; simpl; intros Hf a Ha; [exact Ha|].
  apply IH; [intros; apply Hf; auto|]. apply Hf; auto.
Qed.

Lemma fold_left_ext_in {A B} (f g : A -> B -> A) (l : list B) :
  (forall a b, In b l -> f a b = g a b) ->
  forall a, fold_left f l a = fold_left g l a.
Proof.
  induction l as [|b l IH]; simpl; intros H a; [reflexivity|].
  rewrite H by auto. apply IH. intros; apply H; auto.
Qed.

Section SortFacts.
Context {A : Type} (cmp : A -> A -> comparison).

Lemma insert_perm x l : Permutation (JS.insert cmp x l) (x :: l).
Proof.
  induction l as [|y l IH]; simpl; [reflexivity|].
  destruct (cmp x y); try reflexivity.
  rewrite IH. apply perm_swap.
Qed.

Lemma sort_perm l : Permutation (JS.sort cmp l) l.
Proof.
  induction l as [|x l IH]; simpl; [reflexivity|].
  rewrite insert_perm. now constructor.
Qed.

Lemma sort_In l x : In x (JS.sort cmp l) <-> In x l.
Proof.
  split; apply Permutation_in; [|symmetry]; apply sort_perm.
Qed.

Lemma sort_length l : length (JS.sort cmp l) = length l.
Proof. apply Permutation_length, sort_perm. Qed.

Lemma sort_NoDup l : NoDup l -> NoDup (JS.sort cmp l).
Proof. apply Permutation_NoDup. symmetry. apply sort_perm. Qed.

Hypothesis cmp_total : forall x y, cmp x y = Gt -> cmp y x <> Gt.

Lemma insert_sorted x l :
  Sorted (JS.cmp_le cmp) l -> Sorted (JS.cmp_le cmp) (JS.insert cmp x l).
Proof.
  induction 1 as [|y l Hl IH Hy]; simpl; [repeat constructor|].
  destruct (cmp x y) eqn:E.
  - constructor; [now constructor|]. constructor. unfold JS.cmp_le. congruence.
  - constructor; [now constructor|]. constructor. unfold JS.cmp_le. congruence.
  - constructor; [exact IH|].
    destruct l as [|z l]; simpl.
    + constructor. now apply cmp_total.
    + destruct (cmp x z); constructor;
        try (now apply cmp_total); inversion Hy; assumption.
Qed.

Lemma sort_sorted l : Sorted (JS.cmp_le cmp) (JS.sort cmp l).
Proof.
  induction l as [|x l IH]; simpl; [constructor|]. now apply insert_sorted.
Qed.

End SortFacts.

Lemma has_true_iff s x : JS.has s x = true <-> In x s.
Proof.
  unfold JS.has. rewrite existsb_exists. split.
  - intros (y & Hy & E). apply String.eqb_eq in E. now subst.
  - intros H. exists x. split; [exact H|apply String.eqb_refl].
Qed.

Lemma has_false_iff s x : JS.has s x = false <-> ~ In x s.
Proof.
  rewrite <- has_true_iff. destruct (JS.has s x); split; congruence.
Qed.

Lemma add_In s x y : In y (JS.add s x) <-> In y s \/ y = x.
Proof.
  unfold JS.add. destruct (JS.has s x) eqn:E.
  - apply has_true_iff in E. split; [auto|]. intros [H| ->]; auto.
  - rewrite in_app_iff. simpl. split; intros [H|H]; auto.
    + destruct H as [<-|[]]; auto.
Qed.

Lemma add_NoDup s x : NoDup s -> NoDup (JS.add s x).
Proof.
  unfold JS.add. destruct (JS.has s x) eqn:E; [auto|].
  apply has_false_iff in E. intros H.
  apply NoDup_app; auto.
  - repeat constructor. simpl. tauto.
  - intros y Hy [<-|[]]. contradiction.
Qed.

Lemma delete_add s x : JS.has s x = false -> JS.delete (JS.add s x) x = s.
Proof.
  intros E. unfold JS.add. rewrite E. apply has_false_iff in E.
  unfold JS.delete. rewrite filter_app. simpl. rewrite String.eqb_refl. simpl.
  rewrite app_nil_r. induction s as [|y s IH]; simpl; [reflexivity|].
  destruct (String.eqb_spec x y) as [->|N]; simpl.
  - exfalso. apply E. now left.
  - f_equal. apply IH. intros H. apply E. now right.
Qed.

Lemma of_list_In l : forall x, In x (JS.of_list l) <-> In x l.
Proof.
  unfold JS.of_list. intros x.
  assert (G : forall acc, In x (fold_left JS.add l acc) <-> In x acc \/ In x l).
  { induction l as [|y l IH]; simpl; intros acc; [tauto|].
    rewrite IH, add_In. intuition. }
  rewrite G. simpl. tauto.
Qed.

Lemma of_list_NoDup l : NoDup (JS.of_list l).
Proof.
  unfold JS.of_list.
  assert (G : forall acc, NoDup acc -> NoDup (fold_left JS.add l acc)).
  { induction l as [|y l IH]; simpl; intros acc H; [exact H|].
    apply IH, add_NoDup, H. }
  apply G. constructor.
Qed.

(** ** Ring merger *)

Section MergeFacts.
Import Merge.
Variable J : Q.

Lemma inner_fst base members rest : forall used best,
  fst (inner J base members rest used best)
  = fold_left upd (absorbed J base members rest used) best.
Proof.
  induction rest as [|r rest IH]; intros [|u used] best; simpl; try reflexivity.
  destruct u.
  - specialize (IH used best).
    destruct (inner J base members rest used best); simpl in *; auto.
  - destruct (negb (pattern_type r =? pattern_type base)%string).
    + specialize (IH used best).
      destruct (inner J base members rest used best); simpl in *; auto.
    + destruct (Qle_bool J _).
      * simpl. fold (upd best r). specialize (IH used (upd best r)).
        destruct (inner J base members rest used (upd best r)); simpl in *; auto.
      * specialize (IH used best).
        destruct (inner J base members rest used best); simpl in *; auto.
Qed.

Lemma inner_length base members rest : forall used best,
  length (snd (inner J base members rest used best)) = length used.
Proof.
  induction rest as [|r rest IH]; intros [|u used] best; simpl; try reflexivity.
  destruct u; [|destruct (negb _); [|destruct (Qle_bool J _)]];
    match goal with
    | |- context [inner J base members rest used ?b] =>
        specialize (IH used b); destruct (inner J base members rest used b)
    end; simpl in *; congruence.
Qed.

Lemma absorbed_In base members rest : forall used r,
  In r (absorbed J base members rest used) ->
  In r rest /\ pattern_type r = pattern_type base
  /\ Qle_bool J (jaccard members (JS.of_list (member_accounts r))) = true.
Proof.
  induction rest as [|r0 rest IH]; intros [|u used] r; simpl; try tauto.
  destruct u; [intros H; apply IH in H; tauto|].
  destruct (String.eqb_spec (pattern_type r0) (pattern_type base)) as [E|E]; simpl.
  - destruct (Qle_bool J _) eqn:EJ.
    + intros [<-|H]; [tauto|]. apply IH in H; tauto.
    + intros H; apply IH in H; tauto.
  - intros H; apply IH in H; tauto.
Qed.

Lemma upd_fst_le best r : (fst best <= fst (upd best r))%Q.
Proof.
  unfold upd. destruct (Qle_bool (risk_score r) (fst best)) eqn:E; simpl.
  - apply Qle_refl.
  - apply Qlt_le_weak, Qnot_le_lt. intros H. apply Qle_bool_iff in H. congruence.
Qed.

Lemma upd_ge best r : (risk_score r <= fst (upd best r))%Q.
Proof.
  unfold upd. destruct (Qle_bool (risk_score r) (fst best)) eqn:E; simpl.
  - now apply Qle_bool_iff.
  - apply Qle_refl.
Qed.

Lemma pick_fst_le l : forall best, (fst best <= fst (fold_left upd l best))%Q.
Proof.
  induction l as [|r l IH]; intros best; simpl; [apply Qle_refl|].
  eapply Qle_trans; [apply (upd_fst_le best r)|apply IH].
Qed.

Lemma pick_ge l : forall best r,
  In r l -> (risk_score r <= fst (fold_left upd l best))%Q.
Proof.
  induction l as [|r0 l IH]; intros best r; simpl; [tauto|].
  intros [<-|H]; [|now apply IH].
  eapply Qle_trans; [apply (upd_ge best r0)|apply pick_fst_le].
Qed.

Lemma pick_cases l : forall best,
  fold_left upd l best = best
  \/ exists r, In r l /\ fold_left upd l best = (risk_score r, member_accounts r).
Proof.
  induction l as [|r l IH]; intros best; simpl; [now left|].
  destruct (IH (upd best r)) as [E|(r' & Hin & E)].
  - rewrite E. unfold upd. destruct (negb _); [right; exists r|left]; auto.
  - right; exists r'; auto.
Qed.

Lemma classes_sound rings : forall used base cls,
  In (base, cls) (classes J rings used) ->
  In base rings /\
  forall r, In r cls ->
    In r rings /\ pattern_type r = pattern_type base
    /\ similar J base r = true.
Proof.
  induction rings as [|b rest IH]; intros [|u used] base cls; simpl; try tauto.
  destruct u.
  - intros H. apply IH in H. destruct H as [H1 H2]. split; [auto|].
    intros r Hr. apply H2 in Hr. tauto.
  - intros [E|H].
    + inversion E; subst. split; [auto|]. intros r Hr.
      apply absorbed_In in Hr. destruct Hr as (H1 & H2 & H3).
      unfold similar. rewrite H2, String.eqb_refl, H3. auto.
    + apply IH in H. destruct H as [H1 H2]. split; [auto|].
      intros r Hr. apply H2 in Hr. tauto.
Qed.

Lemma outer_sound rings : forall used o,
  In o (outer J rings used) ->
  exists base cls,
    In (base, cls) (classes J rings used)
    /\ In o (base :: cls)
    /\ forall r, In r (base :: cls) -> (risk_score r <= risk_score o)%Q.
Proof.
  induction rings as [|b rest IH]; intros [|u used] o; simpl; try tauto.
  destruct u.
  - intros H. apply IH in H. exact H.
  - pose proof (inner_fst b (JS.of_list (member_accounts b)) rest used
                  (risk_score b, member_accounts b)) as Hf.
    destruct (inner J b (JS.of_list (member_accounts b)) rest used
                (risk_score b, member_accounts b)) as [[bestRisk bestMembers] used''].
    simpl in *. intros [E|H].
    + exists b, (absorbed J b (JS.of_list (member_accounts b)) rest used).
      split; [now left|]. subst o.
      set (cls := absorbed J b (JS.of_list (member_accounts b)) rest used) in *.
      split.
      * destruct (pick_cases cls (risk_score b, member_accounts b))
          as [E|(r & Hin & E)]; rewrite E in Hf; inversion Hf; subst.
        -- left. now destruct b.
        -- right. apply absorbed_In in Hin as Hin'.
           destruct Hin' as (_ & Hp & _). rewrite <- Hp. now destruct r.
      * simpl. intros r [<-|Hr].
        -- replace bestRisk with (fst (bestRisk, bestMembers)) by reflexivity.
           rewrite Hf. apply (pick_fst_le cls (risk_score b, member_accounts b)).
        -- replace bestRisk with (fst (bestRisk, bestMembers)) by reflexivity.
           rewrite Hf. now apply pick_ge.
    + apply IH in H. destruct H as (base & cls & H1 & H2).
      exists base, cls. split; [now right|exact H2].
Qed.

Lemma outer_length rings : forall used,
  (length (outer J rings used) <= length rings)%nat.
Proof.
  induction rings as [|b rest IH]; intros [|u used]; simpl; try lia.
  destruct u.
  - specialize (IH used). lia.
  - destruct (inner J b _ rest used _) as [[bestRisk bestMembers] used''].
    simpl. specialize (IH used''). lia.
Qed.

Lemma outer_In rings used o : In o (outer J rings used) -> In o rings.
Proof.
  intros H. apply outer_sound in H. destruct H as (base & cls & Hc & Hin & _).
  apply classes_sound in Hc. destruct Hc as [Hb Hcls].
  destruct Hin as [<-|Hin]; [exact Hb|]. now apply Hcls.
Qed.

End MergeFacts.

(** C9. [mergeRings] never synthesises ring content: every ring of
    [mergeRings x J] is, field for field, one ring of [x]; it belongs to the
    merge class [(base, consumed)] of one outer iteration, every ring of that
    class is a ring of [x] with that same pattern type, the consumed ones
    within the threshold of [base], and none of them has a higher risk; the
    output is no longer than the input, and is non-empty when the input is. *)
Theorem mergeRings_no_synthesis (x : list RingCandidate) (J : Q) :
  (forall o, In o (Merge.mergeRings x J) ->
     In o x /\
     exists base cls,
       In (base, cls) (Merge.merge_classes x J)
       /\ In o (base :: cls)
       /\ forall r, In r (base :: cls) ->
            In r x /\ pattern_type r = pattern_type o
            /\ (r = base \/ Merge.similar J base r = true)
            /\ (risk_score r <= risk_score o)%Q)
  /\ (length (Merge.mergeRings x J) <= length x)%nat
  /\ (x <> [] -> Merge.mergeRings x J <> []).
Proof.
  unfold Merge.mergeRings, Merge.merge_classes. split; [|split].
  - intros o Ho. apply outer_sound in Ho.
    destruct Ho as (base & cls & Hc & Hin & Hmax).
    pose proof (classes_sound J x _ _ _ Hc) as [Hb Hcls].
    assert (Hall : forall r, In r (base :: cls) ->
              In r x /\ pattern_type r = pattern_type base
              /\ (r = base \/ Merge.similar J base r = true)).
    { intros r [<-|Hr]; [auto|]. destruct (Hcls r Hr) as (H1 & H2 & H3). auto. }
    split; [apply (Hall o Hin)|].
    exists base, cls. split; [exact Hc|]. split; [exact Hin|].
    intros r Hr. destruct (Hall r Hr) as (H1 & H2 & H3).
    destruct (Hall o Hin) as (_ & H2' & _).
    split; [exact H1|]. split; [congruence|]. split; [exact H3|]. now apply Hmax.
  - apply outer_length.
  - destruct x as [|b rest]; [congruence|]. intros _. simpl.
    destruct (Merge.inner J b _ rest _ _) as [[bestRisk bestMembers] used''].
    discriminate.
Qed.

Lemma mergeRings_no_synthesis_witness :
  let ls := "layered_shell"%string in
  let x := [ mkRing ls ["a"; "b"; "c"; "d"]%string 84%Q
           ; mkRing ls ["a"; "b"; "c"; "d"; "e"]%string (875 # 10)%Q
           ; mkRing "cycle"%string ["a"; "b"; "c"]%string (993 # 10)%Q ] in
  Merge.mergeRings x Merge.J_pipeline
  = [ mkRing ls ["a"; "b"; "c"; "d"; "e"]%string (875 # 10)%Q
    ; mkRing "cycle"%string ["a"; "b"; "c"]%string (993 # 10)%Q ]
  /\ In (mkRing ls ["a"; "b"; "c"; "d"; "e"]%string (875 # 10)%Q) x.
Proof.
  split; [reflexivity|].
  apply (proj1 (mergeRings_no_synthesis
                  [ mkRing "layered_shell" ["a"; "b"; "c"; "d"]%string 84%Q
                  ; mkRing "layered_shell" ["a"; "b"; "c"; "d"; "e"]%string (875 # 10)%Q
                  ; mkRing "cycle"%string ["a"; "b"; "c"]%string (993 # 10)%Q ]
                  Merge.J_pipeline)).
  left. reflexivity.
Defined.

(** *** Idempotence *)

Section MergeIdempotence.
Import Merge.
Variable J : Q.

Lemma pick_keep l : forall best,
  (forall r, In r l -> Qle_bool (risk_score r) (fst best) = true) ->
  fold_left upd l best = best.
Proof.
  induction l as [|r l IH]; intros best H; simpl; [reflexivity|].
  assert (E : upd best r = best).
  { unfold upd. rewrite (H r); simpl; auto. }
  rewrite E. apply IH. intros r' Hr'. apply H. now right.
Qed.

(** A position left unmarked by the inner loop was unmarked before and holds
    a ring that [base] does not consume. *)
Lemma inner_marks base rest : forall used best r,
  In (r, false)
     (combine rest (snd (inner J base (JS.of_list (member_accounts base))
                           rest used best))) ->
  In (r, false) (combine rest used) /\ similar J base r = false.
Proof.
  induction rest as [|r0 rest IH]; intros [|u used] best r; simpl; try tauto.
  unfold similar in *.
  destruct u.
  - specialize (IH used best r).
    destruct (inner J base _ rest used best) as [b us]; simpl in *.
    intros [E|H]; [discriminate|]. apply IH in H. tauto.
  - destruct (String.eqb_spec (pattern_type r0) (pattern_type base)) as [E|E]; simpl.
    + destruct (Qle_bool J _) eqn:EJ.
      * specialize (IH used (upd best r0) r). fold (upd best r0).
        destruct (inner J base _ rest used (upd best r0)) as [b us]; simpl in *.
        intros [E'|H]; [discriminate|]. apply IH in H. tauto.
      * specialize (IH used best r).
        destruct (inner J base _ rest used best) as [b us]; simpl in *.
        intros [E'|H].
        -- inversion E'; subst. rewrite E, String.eqb_refl, EJ. auto.
        -- apply IH in H. tauto.
    + specialize (IH used best r).
      destruct (inner J base _ rest used best) as [b us]; simpl in *.
      intros [E'|H].
      * inversion E'; subst.
        destruct (String.eqb_spec (pattern_type r) (pattern_type base)); [contradiction|].
        auto.
      * apply IH in H. tauto.
Qed.

Lemma outer_survivors rings : forall used,
  (forall base cls r, In (base, cls) (classes J rings used) -> In r cls ->
                      (risk_score r <= risk_score base)%Q) ->
  ForallOrdPairs (fun a b => similar J a b = false) (outer J rings used)
  /\ forall o, In o (outer J rings used) -> In (o, false) (combine rings used).
Proof.
  induction rings as [|b rest IH]; intros [|u used] Hno; simpl;
    try (split; [constructor|tauto]).
  simpl in Hno. destruct u.
  - destruct (IH used Hno) as [H1 H2]. split; [exact H1|]. intros o Ho. right. auto.
  - pose proof (inner_fst J b (JS.of_list (member_accounts b)) rest used
                  (risk_score b, member_accounts b)) as Hf.
    pose proof (inner_marks b rest used (risk_score b, member_accounts b)) as Hm.
    assert (Hcls : forall r,
              In r (absorbed J b (JS.of_list (member_accounts b)) rest used) ->
              (risk_score r <= risk_score b)%Q).
    { intros r Hr.
      apply (Hno b (absorbed J b (JS.of_list (member_accounts b)) rest used) r);
        [left; reflexivity|exact Hr]. }
    assert (Hrest : forall base cls r,
              In (base, cls)
                 (classes J rest
                    (snd (inner J b (JS.of_list (member_accounts b)) rest used
                            (risk_score b, member_accounts b)))) ->
              In r cls -> (risk_score r <= risk_score base)%Q).
    { intros base cls r Hc Hr. apply (Hno base cls r); [right; exact Hc|exact Hr]. }
    destruct (inner J b (JS.of_list (member_accounts b)) rest used
                (risk_score b, member_accounts b)) as [[bestRisk bestMembers] used''].
    simpl in Hf, Hm, Hrest.
    rewrite pick_keep in Hf.
    2:{ intros r Hr. apply Qle_bool_iff. simpl. now apply Hcls. }
    inversion Hf; subst. destruct (IH used'' Hrest) as [H1 H2].
    replace (mkRing (pattern_type b) (member_accounts b) (risk_score b)) with b
      by now destruct b.
    split.
    + constructor; [|exact H1]. apply Forall_forall. intros o Ho.
      apply H2, Hm in Ho. tauto.
    + intros o [<-|Ho]; [now left|]. right. apply H2, Hm in Ho. tauto.
Qed.

Lemma inner_nothing base rest : forall best,
  Forall (fun r => similar J base r = false) rest ->
  inner J base (JS.of_list (member_accounts base)) rest
        (repeat false (length rest)) best
  = (best, repeat false (length rest)).
Proof.
  induction rest as [|r rest IH]; intros best H; simpl; [reflexivity|].
  inversion H as [|? ? Hr Hrest]; subst. unfold similar in Hr.
  destruct (String.eqb (pattern_type r) (pattern_type base)); simpl in *.
  - rewrite Hr, IH; auto.
  - rewrite IH; auto.
Qed.

Lemma outer_fixed M :
  ForallOrdPairs (fun a b => similar J a b = false) M ->
  outer J M (repeat false (length M)) = M.
Proof.
  induction 1 as [|b rest Hb Hrest IH]; simpl; [reflexivity|].
  rewrite inner_nothing by exact Hb. rewrite IH. now destruct b.
Qed.

(** The number of unmarked positions never grows, and drops when [base]
    consumes a ring. *)
Lemma unused_repeat n : length (filter negb (repeat false n)) = n.
Proof. induction n as [|n IH]; simpl; [reflexivity|now rewrite IH]. Qed.

Lemma inner_unused_le base members rest : forall used best,
  (length (filter negb (snd (inner J base members rest used best)))
   <= length (filter negb used))%nat.
Proof.
  induction rest as [|r rest IH]; intros [|u used] best; simpl; try lia.
  destruct u; [|destruct (negb _); [|destruct (Qle_bool J _)]];
    match goal with
    | |- context [inner J base members rest used ?b] =>
        specialize (IH used b); destruct (inner J base members rest used b)
    end; simpl in *; lia.
Qed.

Lemma inner_unused_lt base rest : forall used best r,
  In (r, false) (combine rest used) -> similar J base r = true ->
  (length (filter negb (snd (inner J base (JS.of_list (member_accounts base))
                                   rest used best)))
   < length (filter negb used))%nat.
Proof.
  induction rest as [|r0 rest IH]; intros [|u used] best r; simpl; try tauto.
  intros Hin Hs. destruct u.
  - destruct Hin as [E|Hin]; [discriminate|].
    specialize (IH used best r Hin Hs).
    destruct (inner J base _ rest used best) as [b us]; simpl in *. exact IH.
  - destruct (String.eqb_spec (pattern_type r0) (pattern_type base)) as [E|E]; simpl.
    + destruct (Qle_bool J _) eqn:EJ.
      * fold (upd best r0).
        pose proof (inner_unused_le base (JS.of_list (member_accounts base)) rest used
                      (upd best r0)) as Hle.
        destruct (inner J base _ rest used (upd best r0)) as [b us]; simpl in *. lia.
      * destruct Hin as [E'|Hin].
        -- inversion E'; subst. unfold similar in Hs.
           rewrite EJ, andb_false_r in Hs. discriminate.
        -- specialize (IH used best r Hin Hs).
           destruct (inner J base _ rest used best) as [b us]; simpl in *. lia.
    + destruct Hin as [E'|Hin].
      * inversion E'; subst. unfold similar in Hs.
        destruct (String.eqb_spec (pattern_type r) (pattern_type base));
          [contradiction|discriminate].
      * specialize (IH used best r Hin Hs).
        destruct (inner J base _ rest used best) as [b us]; simpl in *. lia.
Qed.

Lemma outer_length_unused rings : forall used,
  (length (outer J rings used) <= length (filter negb used))%nat.
Proof.
  induction rings as [|b rest IH]; intros [|u used]; simpl; try lia.
  destruct u; simpl; [apply IH|].
  pose proof (inner_unused_le b (JS.of_list (member_accounts b)) rest used
                (risk_score b, member_accounts b)) as Hle.
  destruct (inner J b _ rest used _) as [[bestRisk bestMembers] used''].
  simpl in *. specialize (IH used''). lia.
Qed.

(** A pass over a list either finds it settled or returns fewer rings. *)
Lemma outer_fixed_or_shrinks M :
  ForallOrdPairs (fun a b => similar J a b = false) M
  \/ (length (outer J M (repeat false (length M))) < length M)%nat.
Proof.
  induction M as [|b rest IH]; [left; constructor|].
  destruct (forallb (fun r => negb (similar J b r)) rest) eqn:Ef.
  - assert (Hb : Forall (fun r => similar J b r = false) rest).
    { apply Forall_forall. intros r Hr. rewrite forallb_forall in Ef.
      apply negb_true_iff. now apply Ef. }
    destruct IH as [IH|IH].
    + left. now constructor.
    + right. simpl. rewrite inner_nothing by exact Hb. simpl. lia.
  - right. simpl.
    assert (Hex : exists r, In r rest /\ similar J b r = true).
    { destruct (forallb_forall (fun r => negb (similar J b r)) rest) as [_ Hall].
      destruct (existsb (similar J b) rest) eqn:Ee.
      - apply existsb_exists in Ee. exact Ee.
      - exfalso. rewrite Hall in Ef; [discriminate|].
        intros r Hr. apply negb_true_iff.
        destruct (similar J b r) eqn:Es; [|reflexivity].
        assert (Hc : existsb (similar J b) rest = true)
          by (apply existsb_exists; exists r; auto).
        congruence. }
    destruct Hex as (r & Hr & Hs).
    assert (Hin : In (r, false) (combine rest (repeat false (length rest)))).
    { clear -Hr. induction rest as [|y rest IH]; simpl in *; [tauto|].
      destruct Hr as [<-|Hr]; [now left|right; auto]. }
    pose proof (inner_unused_lt b rest (repeat false (length rest))
                  (risk_score b, member_accounts b) r Hin Hs) as Hlt.
    rewrite unused_repeat in Hlt.
    destruct (inner J b (JS.of_list (member_accounts b)) rest
                (repeat false (length rest)) (risk_score b, member_accounts b))
      as [[bestRisk bestMembers] used''].
    simpl in *. pose proof (outer_length_unused rest used''). lia.
Qed.

End MergeIdempotence.

(** C5 (as stated) fails: a representative that adopts the member list of a
    consumed ring can consume, in a second pass, a ring its class's first
    ring did not reach.  Three shell-chain candidates over one path
    [a -> b -> c -> d -> e -> f] at the pipeline's threshold. *)
Lemma mergeRings_not_idempotent :
  let ls := "layered_shell"%string in
  let x := [ mkRing ls ["a"; "b"; "c"; "d"]%string 84%Q
           ; mkRing ls ["a"; "b"; "c"; "d"; "e"]%string (875 # 10)%Q
           ; mkRing ls ["b"; "c"; "d"; "e"; "f"]%string (875 # 10)%Q ] in
  Merge.mergeRings (Merge.mergeRings x Merge.J_pipeline) Merge.J_pipeline
  <> Merge.mergeRings x Merge.J_pipeline.
Proof.
  vm_compute. intros H. discriminate H.
Qed.

(** C5 (amended). A second pass changes nothing exactly when the first
    pass's result is settled: none of its rings is within the threshold (same
    pattern type, Jaccard at least [J]) of a later one.  That is the case in
    particular when no consumed ring out-risks the ring that consumed it, so
    that every representative keeps its first ring's member list. *)
Theorem mergeRings_idempotent_iff (x : list RingCandidate) (J : Q) :
  (Merge.mergeRings (Merge.mergeRings x J) J = Merge.mergeRings x J
   <-> Merge.settled J (Merge.mergeRings x J))
  /\ (Merge.bases_lead J x -> Merge.settled J (Merge.mergeRings x J)).
Proof.
  unfold Merge.settled. split; [split|].
  - intros H. unfold Merge.mergeRings at 1 in H.
    destruct (outer_fixed_or_shrinks J (Merge.mergeRings x J)) as [Hs|Hlt];
      [exact Hs|].
    rewrite H in Hlt. lia.
  - intros H. unfold Merge.mergeRings at 1. now apply outer_fixed.
  - intros H. unfold Merge.mergeRings.
    apply (outer_survivors J x (repeat false (length x))).
    intros base cls r Hc Hr. exact (H base cls r Hc Hr).
Qed.

Lemma mergeRings_idempotent_iff_witness :
  let ls := "layered_shell"%string in
  let x := [ mkRing ls ["a"; "b"; "c"; "d"; "e"]%string (875 # 10)%Q
           ; mkRing ls ["a"; "b"; "c"; "d"]%string 84%Q
           ; mkRing ls ["b"; "c"; "d"; "e"; "f"]%string (875 # 10)%Q
           ; mkRing "cycle"%string ["a"; "b"; "c"]%string (993 # 10)%Q ] in
  let y := [ mkRing "cycle"%string ["a"; "b"; "c"]%string 80%Q
           ; mkRing "cycle"%string ["a"; "b"; "c"; "d"]%string 90%Q ] in
  Merge.bases_lead Merge.J_pipeline x
  /\ Merge.mergeRings (Merge.mergeRings x Merge.J_pipeline) Merge.J_pipeline
     = Merge.mergeRings x Merge.J_pipeline
  /\ ~ Merge.bases_lead Merge.J_pipeline y
  /\ Merge.mergeRings (Merge.mergeRings y Merge.J_pipeline) Merge.J_pipeline
     = Merge.mergeRings y Merge.J_pipeline.
Proof.
  cbv zeta.
  assert (Hx : Merge.bases_lead Merge.J_pipeline
                 [ mkRing "layered_shell" ["a"; "b"; "c"; "d"; "e"]%string (875 # 10)%Q
                 ; mkRing "layered_shell" ["a"; "b"; "c"; "d"]%string 84%Q
                 ; mkRing "layered_shell" ["b"; "c"; "d"; "e"; "f"]%string (875 # 10)%Q
                 ; mkRing "cycle"%string ["a"; "b"; "c"]%string (993 # 10)%Q ]).
  { intros base cls r Hc Hr. vm_compute in Hc.
    destruct Hc as [E|[E|[]]]; inversion E; subst; clear E.
    - destruct Hr as [<-|[<-|[]]]; vm_compute; discriminate.
    - destruct Hr. }
  split; [exact Hx|]. split.
  - apply (proj1 (mergeRings_idempotent_iff _ Merge.J_pipeline)).
    apply (proj2 (mergeRings_idempotent_iff _ Merge.J_pipeline)). exact Hx.
  - split.
    + intros H.
      specialize (H (mkRing "cycle"%string ["a"; "b"; "c"]%string 80%Q)
                    [mkRing "cycle"%string ["a"; "b"; "c"; "d"]%string 90%Q]
                    (mkRing "cycle"%string ["a"; "b"; "c"; "d"]%string 90%Q)
                    (or_introl eq_refl) (or_introl eq_refl)).
      vm_compute in H. apply H. reflexivity.
    + apply (proj1 (mergeRings_idempotent_iff _ Merge.J_pipeline)).
      vm_compute. repeat constructor.
Defined.

(** ** Cycle detector *)

Section CycleFacts.
Import Cycles.
Variables (g : Graph) (idx : JS.JsMap nat) (start : string) (startIdx : nat).

(** The depth bound makes the fuel irrelevant from [7 - depth] on. *)
Lemma Cycles_dfs_fuel : forall f1 f2 u depth st,
  (7 - depth <= f1)%nat -> (7 - depth <= f2)%nat ->
  dfs f1 g idx start startIdx u depth st = dfs f2 g idx start startIdx u depth st.
Proof.
  induction f1 as [|f1 IH]; intros [|f2] u depth st H1 H2; simpl; try reflexivity.
  - assert (E : Nat.ltb 5 depth = true) by (apply Nat.ltb_lt; lia). now rewrite E.
  - assert (E : Nat.ltb 5 depth = true) by (apply Nat.ltb_lt; lia). now rewrite E.
  - destruct (Nat.ltb 5 depth) eqn:E; [reflexivity|]. apply Nat.ltb_ge in E.
    destruct (JS.get (outNeighbors g) u) as [nbrs|]; [|reflexivity].
    apply fold_left_ext_in. intros a v _.
    destruct (JS.get idx v); [|reflexivity].
    destruct (Nat.ltb n startIdx); [reflexivity|].
    destruct (String.eqb v start); [reflexivity|].
    destruct (JS.has (visited a) v); [reflexivity|].
    rewrite (IH f2) by lia. reflexivity.
Qed.

Lemma canonicalCycle_perm l : Permutation (canonicalCycle l) l.
Proof.
  unfold canonicalCycle. apply fold_left_inv; [|reflexivity].
  intros best s _ Hb. destruct (String.ltb _ _); [|exact Hb].
  rewrite Permutation_app_comm. now rewrite firstn_skipn.
Qed.

Lemma close_cycle_frame st :
  path (close_cycle g st) = path st /\ visited (close_cycle g st) = visited st.
Proof.
  unfold close_cycle. destruct (JS.has _ _); simpl; auto.
Qed.

Lemma close_cycle_good st :
  (3 <= length (path st) <= 5)%nat -> NoDup (path st) ->
  Forall Cycles.good (rings st) -> Forall Cycles.good (rings (close_cycle g st)).
Proof.
  intros Hl Hn Hr. unfold close_cycle. destruct (JS.has _ _); simpl; [exact Hr|].
  apply Forall_app. split; [exact Hr|]. constructor; [|constructor].
  pose proof (canonicalCycle_perm (path st)) as Hp.
  unfold good; simpl. split; [reflexivity|]. split.
  - unfold JS.sort_strings. rewrite sort_length, (Permutation_length Hp). exact Hl.
  - apply sort_NoDup. eapply Permutation_NoDup; [symmetry; exact Hp|exact Hn].
Qed.

(** The loop restores [path] and [visited] on backtrack. *)
Lemma dfs_frame : forall fuel u depth st,
  path (dfs fuel g idx start startIdx u depth st) = path st
  /\ visited (dfs fuel g idx start startIdx u depth st) = visited st.
Proof.
  induction fuel as [|fuel IH]; intros u depth st; simpl; [auto|].
  destruct (Nat.ltb 5 depth); [auto|].
  destruct (JS.get (outNeighbors g) u) as [nbrs|]; [|auto].
  apply (fold_left_inv (fun s => path s = path st /\ visited s = visited st));
    [|auto].
  intros a v _ [Hp Hv].
  destruct (JS.get idx v); [|auto].
  destruct (Nat.ltb n startIdx); [auto|].
  destruct (String.eqb v start).
  { destruct (_ && _); [|auto].
    destruct (close_cycle_frame a) as [E1 E2]. rewrite E1, E2. auto. }
  destruct (JS.has (visited a) v) eqn:Ev; [auto|].
  destruct (IH v (depth + 1)%nat
              (mkSt (path a ++ [v]) (JS.add (visited a) v)
                    (seen a) (rings a) (evidenceByAccount a))) as [E1 E2].
  simpl. rewrite E1, E2. simpl.
  rewrite removelast_last, delete_add by exact Ev. auto.
Qed.

Lemma dfs_good : forall fuel u depth st,
  length (path st) = depth -> NoDup (path st) ->
  (forall x, In x (path st) -> In x (visited st)) ->
  Forall Cycles.good (rings st) ->
  Forall Cycles.good (rings (dfs fuel g idx start startIdx u depth st)).
Proof.
  induction fuel as [|fuel IH]; intros u depth st Hlen Hnd Hsub Hr; simpl; [auto|].
  destruct (Nat.ltb 5 depth); [auto|].
  destruct (JS.get (outNeighbors g) u) as [nbrs|]; [|auto].
  match goal with
  | |- Forall _ (rings (fold_left ?f ?l ?a)) =>
      enough (G : (path (fold_left f l a) = path st
                   /\ visited (fold_left f l a) = visited st)
                  /\ Forall Cycles.good (rings (fold_left f l a))) by apply G;
      apply (fold_left_inv
               (fun s => (path s = path st /\ visited s = visited st)
                         /\ Forall Cycles.good (rings s))); [|auto]
  end.
  intros a v _ [[Hp Hv] Ha]. cbv beta.
  destruct (JS.get idx v); [|auto].
  destruct (Nat.ltb n startIdx); [auto|].
  destruct (String.eqb v start).
  { destruct (_ && _) eqn:Ed; [|auto].
    apply andb_true_iff in Ed. destruct Ed as [Ed1 Ed2].
    apply Nat.leb_le in Ed2.
    assert (3 <= depth)%nat by (destruct depth as [|[|[|d]]]; try discriminate; lia).
    destruct (close_cycle_frame a) as [E1 E2]. rewrite E1, E2.
    split; [auto|]. apply close_cycle_good; auto; rewrite Hp; auto; lia. }
  destruct (JS.has (visited a) v) eqn:Ev; [auto|].
  destruct (dfs_frame fuel v (depth + 1)%nat
              (mkSt (path a ++ [v]) (JS.add (visited a) v)
                    (seen a) (rings a) (evidenceByAccount a))) as [E1 E2].
  simpl. rewrite E1, E2. simpl.
  rewrite removelast_last, delete_add by exact Ev.
  split; [auto|]. apply IH; simpl; auto.
  - rewrite length_app, Hp. simpl. lia.
  - rewrite Hp. apply NoDup_app; auto.
    + repeat constructor. simpl. tauto.
    + intros x Hx [<-|[]]. apply has_false_iff in Ev. apply Ev.
      rewrite Hv. now apply Hsub.
  - intros x Hx. apply add_In. apply in_app_iff in Hx.
    destruct Hx as [Hx|[<-|[]]]; [left|now right].
    rewrite Hv. apply Hsub. now rewrite <- Hp.
Qed.

End CycleFacts.

Lemma detectCycles35_good (g : Graph) :
  Forall Cycles.good (fst (Cycles.detectCycles35 g)).
Proof.
  unfold Cycles.detectCycles35. simpl.
  apply (fold_left_inv (fun s => Forall Cycles.good (Cycles.rings s))); [|constructor].
  intros a s _ Ha. unfold Cycles.from_start.
  destruct (JS.get _ s); [|exact Ha].
  apply dfs_good; simpl; auto.
  all: try (repeat constructor; simpl; tauto).
  all: try (intros x [<-|[]]; now left).
Qed.

Lemma three_distinct_not_two (xs : list string) (a b : string) :
  (3 <= length xs)%nat -> NoDup xs ->
  ~ (forall m, In m xs -> m = a \/ m = b).
Proof.
  intros Hlen Hnd H.
  destruct xs as [|x [|y [|z rest]]]; simpl in Hlen; try lia.
  inversion Hnd as [|? ? Hx Hnd1]; subst. inversion Hnd1 as [|? ? Hy Hnd2]; subst.
  simpl in Hx, Hy.
  destruct (H x) as [-> | ->]; [now left| |];
    (destruct (H y) as [-> | ->]; [right; now left| |]);
    (destruct (H z) as [-> | ->]; [right; right; now left| |]); tauto.
Qed.

(** C10. Every ring emitted by the cycle detector is a [cycle] ring with
    between 3 and 5 pairwise-distinct member accounts; in particular its
    members never fit into one or two accounts, so neither a self-loop nor a
    two-node back-and-forth pair is ever emitted as a ring. *)
Theorem detectCycles35_ring_size (g : Graph) (r : RingCandidate) :
  In r (fst (Cycles.detectCycles35 g)) ->
  pattern_type r = "cycle"%string
  /\ (3 <= length (member_accounts r) <= 5)%nat
  /\ NoDup (member_accounts r)
  /\ forall a b, ~ (forall m, In m (member_accounts r) -> m = a \/ m = b).
Proof.
  intros H. pose proof (detectCycles35_good g) as G.
  rewrite Forall_forall in G. destruct (G r H) as (Hp & Hl & Hn).
  repeat split; auto; try lia.
  intros a b. apply three_distinct_not_two; [lia|exact Hn].
Qed.

Lemma detectCycles35_ring_size_witness :
  let g := GraphBuilder.buildGraph Examples.cycle_txs in
  let r := mkRing "cycle" ["A"; "B"; "C"]%string (993 # 10)%Q in
  fst (Cycles.detectCycles35 g) = [r]
  /\ (pattern_type r = "cycle"%string
      /\ (3 <= length (member_accounts r) <= 5)%nat
      /\ NoDup (member_accounts r)
      /\ forall a b, ~ (forall m, In m (member_accounts r) -> m = a \/ m = b)).
Proof.
  split; [reflexivity|].
  apply (detectCycles35_ring_size (GraphBuilder.buildGraph Examples.cycle_txs)).
  left. reflexivity.
Defined.

(** A graph of self-loops and back-and-forth pairs only has no cycle ring. *)
Lemma detectCycles35_no_short_cycles :
  let tx := Examples.tx in
  fst (Cycles.detectCycles35
         (GraphBuilder.buildGraph
            [ tx "A" "A" 10%Q 1%Z; tx "A" "B" 10%Q 2%Z; tx "B" "A" 10%Q 3%Z
            ; tx "B" "B" 10%Q 4%Z; tx "C" "D" 10%Q 5%Z; tx "D" "C" 10%Q 6%Z ]%string))
  = [].
Proof. reflexivity. Qed.

(** ** String order *)

Lemma string_compare_total (x y : string) :
  String.compare x y = Gt -> String.compare y x <> Gt.
Proof.
  intros H. rewrite String.compare_antisym, H. discriminate.
Qed.

Lemma ascii_compare_eq (x y : ascii) : Ascii.compare x y = Eq -> x = y.
Proof.
  unfold Ascii.compare. intros H. apply N.compare_eq in H.
  rewrite <- (ascii_N_embedding x), <- (ascii_N_embedding y). now rewrite H.
Qed.

Lemma string_compare_trans (x : string) : forall y z,
  String.compare x y <> Gt -> String.compare y z <> Gt -> String.compare x z <> Gt.
Proof.
  induction x as [|a x IH]; intros [|b y] [|c z]; simpl; try congruence.
  destruct (Ascii.compare a b) eqn:Eab; try congruence.
  - apply ascii_compare_eq in Eab. subst b.
    destruct (Ascii.compare a c); try congruence. apply IH.
  - intros _. destruct (Ascii.compare b c) eqn:Ebc; try congruence.
    + apply ascii_compare_eq in Ebc. subst c. rewrite Eab. congruence.
    + intros _. unfold Ascii.compare in *.
      rewrite N.compare_lt_iff in Eab, Ebc.
      assert (E : (N_of_ascii a ?= N_of_ascii c)%N = Lt)
        by (apply N.compare_lt_iff; lia).
      rewrite E. congruence.
Qed.

(** ** Rationals *)

Lemma Qlt_bool_false a b : Qlt_bool a b = false <-> (b <= a)%Q.
Proof.
  unfold Qlt_bool. rewrite negb_false_iff. apply Qle_bool_iff.
Qed.

Lemma Qlt_bool_true a b : Qlt_bool a b = true <-> (a < b)%Q.
Proof.
  unfold Qlt_bool. rewrite negb_true_iff. split.
  - intros H. apply Qnot_le_lt. intros H'. apply Qle_bool_iff in H'. congruence.
  - intros H. destruct (Qle_bool b a) eqn:E; [|reflexivity].
    apply Qle_bool_iff in E. exfalso. eapply Qlt_not_le; eauto.
Qed.

(** ** Output assembler: suspicious accounts *)

Section SuspiciousFacts.
Variable localeCompare : string -> string -> comparison.
Hypothesis localeCompare_total :
  forall x y, localeCompare x y = Gt -> localeCompare y x <> Gt.
Hypothesis localeCompare_trans :
  forall x y z, localeCompare x y <> Gt -> localeCompare y z <> Gt ->
                localeCompare x z <> Gt.

Lemma of_list_nil_iff l : JS.of_list l = [] <-> l = [].
Proof.
  split; [|intros ->; reflexivity].
  destruct l as [|x l]; [reflexivity|]. intros H. exfalso.
  assert (Hin : In x (JS.of_list (x :: l))) by (apply of_list_In; now left).
  rewrite H in Hin. exact Hin.
Qed.

Lemma suspicious_entry_Some best entry sa :
  Output.suspicious_entry localeCompare best entry = Some sa ->
  (60 <= clamp (JS.toFixed 1 (Score.score (snd entry))))%Q
  /\ Score.patterns (snd entry) <> []
  /\ Out.account_id sa = fst entry
  /\ Out.suspicion_score sa = clamp (JS.toFixed 1 (Score.score (snd entry))).
Proof.
  destruct entry as [acct v]. unfold Output.suspicious_entry. simpl.
  destruct (Qlt_bool _ 60) eqn:E; [discriminate|]. apply Qlt_bool_false in E.
  destruct (Nat.eqb _ 0) eqn:E0; [discriminate|]. apply Nat.eqb_neq in E0.
  intros H. inversion H; subst; simpl. repeat split; auto.
  intros Hn. apply E0. unfold JS.size. now rewrite Hn.
Qed.

Lemma suspicious_entry_complete best acct v :
  (60 <= clamp (JS.toFixed 1 (Score.score v)))%Q ->
  Score.patterns v <> [] ->
  exists sa, Output.suspicious_entry localeCompare best (acct, v) = Some sa
             /\ Out.account_id sa = acct.
Proof.
  intros H60 Hp. unfold Output.suspicious_entry.
  apply Qlt_bool_false in H60. rewrite H60.
  destruct (Nat.eqb _ 0) eqn:E0.
  - apply Nat.eqb_eq in E0. unfold JS.size in E0.
    apply length_zero_iff_nil in E0. apply -> of_list_nil_iff in E0. contradiction.
  - eexists. split; [reflexivity|reflexivity].
Qed.

Lemma suspicious_fold_In best accts : forall acc sa,
  In sa (fold_left (Output.suspicious_step localeCompare best) accts acc) <->
  In sa acc
  \/ exists entry, In entry accts
       /\ Output.suspicious_entry localeCompare best entry = Some sa.
Proof.
  induction accts as [|e accts IH]; intros acc sa; simpl.
  - split; [auto|]. intros [H|(entry & [] & _)]. exact H.
  - rewrite IH. unfold Output.suspicious_step.
    destruct (Output.suspicious_entry localeCompare best e) as [sa'|] eqn:E.
    + rewrite in_app_iff. simpl. split.
      * intros [[H|[<-|[]]]|(entry & H1 & H2)]; eauto.
      * intros [H|(entry & [<-|H1] & H2)]; eauto.
        rewrite E in H2. inversion H2; subst. auto.
    + split.
      * intros [H|(entry & H1 & H2)]; eauto.
      * intros [H|(entry & [<-|H1] & H2)]; eauto. congruence.
Qed.

Lemma account_cmp_total a b :
  Output.account_cmp localeCompare a b = Gt ->
  Output.account_cmp localeCompare b a <> Gt.
Proof.
  unfold Output.account_cmp.
  rewrite <- (Qcompare_antisym (Out.suspicion_score b) (Out.suspicion_score a)).
  destruct (Qcompare (Out.suspicion_score b) (Out.suspicion_score a));
    simpl; try congruence.
  apply localeCompare_total.
Qed.

Lemma account_cmp_ranks a b :
  Output.account_cmp localeCompare a b <> Gt ->
  Output.ranks_before localeCompare a b.
Proof.
  unfold Output.account_cmp, Output.ranks_before.
  destruct (Qcompare (Out.suspicion_score b) (Out.suspicion_score a)) eqn:E.
  - apply Qeq_alt in E. intros H. right. split; [now symmetry|exact H].
  - apply Qlt_alt in E. intros _. now left.
  - congruence.
Qed.

Lemma ranks_before_trans a b c :
  Output.ranks_before localeCompare a b ->
  Output.ranks_before localeCompare b c ->
  Output.ranks_before localeCompare a c.
Proof.
  unfold Output.ranks_before.
  intros [H1|[H1 L1]] [H2|[H2 L2]].
  - left. eapply Qlt_trans; eauto.
  - left. now rewrite <- H2.
  - left. now rewrite H1.
  - right. split; [now rewrite H1|]. eapply localeCompare_trans; eauto.
Qed.

(** C1. The assembler lists an account among the suspicious accounts exactly
    when its score, rounded to one decimal and clamped to [0, 100], is at
    least 60 and its tag set is not empty; every listed entry carries that
    score; and the list is ordered by descending score, equal scores by
    ascending account id (in the collation order of [localeCompare]). *)
Theorem suspicious_accounts_filter_and_order
    (allNodes : JS.JsSet) (rings : list RingCandidate)
    (accountScores : JS.JsMap Score.AccountScoreState) (processingSeconds : Q) :
  let out := Output.buildDeterministicOutput localeCompare allNodes rings
               accountScores processingSeconds in
  (forall acct,
     In acct (map Out.account_id (Out.suspicious_accounts out)) <->
     exists v, In (acct, v) accountScores
               /\ (60 <= clamp (JS.toFixed 1 (Score.score v)))%Q
               /\ Score.patterns v <> [])
  /\ (forall sa, In sa (Out.suspicious_accounts out) ->
        exists v, In (Out.account_id sa, v) accountScores
                  /\ Out.suspicion_score sa = clamp (JS.toFixed 1 (Score.score v))
                  /\ (60 <= Out.suspicion_score sa)%Q
                  /\ Out.detected_patterns sa <> [])
  /\ StronglySorted (Output.ranks_before localeCompare) (Out.suspicious_accounts out).
Proof.
  cbv zeta. unfold Output.buildDeterministicOutput. simpl.
  set (best := Output.memberToBestRing _). unfold Output.suspicious_of.
  split; [|split].
  - intros acct. rewrite in_map_iff. split.
    + intros (sa & <- & Hsa). apply sort_In, suspicious_fold_In in Hsa.
      destruct Hsa as [[]|([a v] & Hin & He)].
      apply suspicious_entry_Some in He. simpl in He.
      destruct He as (H1 & H2 & H3 & _). exists v. rewrite H3. auto.
    + intros (v & Hin & H60 & Hp).
      destruct (suspicious_entry_complete best acct v H60 Hp) as (sa & He & Hid).
      exists sa. split; [exact Hid|]. apply sort_In, suspicious_fold_In.
      right. exists (acct, v). auto.
  - intros sa Hsa. apply sort_In, suspicious_fold_In in Hsa.
    destruct Hsa as [[]|([a v] & Hin & He)].
    pose proof (suspicious_entry_Some _ _ _ He) as (H1 & H2 & H3 & H4).
    simpl in *. exists v. rewrite H3, H4. repeat split; auto.
    unfold Output.suspicious_entry in He.
    destruct (Qlt_bool _ 60); [discriminate|].
    destruct (Nat.eqb _ 0) eqn:E0; [discriminate|]. apply Nat.eqb_neq in E0.
    inversion He; subst; simpl. intros Hn. apply E0.
    unfold Output.orderPatterns in Hn.
    apply (f_equal (@length string)) in Hn. rewrite sort_length in Hn. exact Hn.
  - apply Sorted_StronglySorted.
    + intros a b c. apply ranks_before_trans.
    + eapply Sorted_ind with (P := fun l => Sorted (Output.ranks_before localeCompare) l);
        [constructor| |apply (sort_sorted _ account_cmp_total)].
      intros a l _ IH Hd. constructor; [exact IH|].
      destruct Hd; constructor. now apply account_cmp_ranks.
Qed.

End SuspiciousFacts.

Lemma suspicious_accounts_filter_and_order_witness :
  let accountScores :=
    [ ("A", Score.mkState (963 # 10)%Q ["cycle"] None)
    ; ("B", Score.mkState (599 # 10)%Q ["cycle"] None)
    ; ("C", Score.mkState (963 # 10)%Q ["cycle"] None)
    ; ("D", Score.mkState 99%Q [] None) ]%string in
  let out := Output.buildDeterministicOutput String.compare [] [] accountScores 0%Q in
  map Out.account_id (Out.suspicious_accounts out) = ["A"; "C"]%string
  /\ StronglySorted (Output.ranks_before String.compare) (Out.suspicious_accounts out).
Proof.
  split; [reflexivity|].
  apply (suspicious_accounts_filter_and_order String.compare
           string_compare_total string_compare_trans [] []
           [ ("A", Score.mkState (963 # 10)%Q ["cycle"] None)
           ; ("B", Score.mkState (599 # 10)%Q ["cycle"] None)
           ; ("C", Score.mkState (963 # 10)%Q ["cycle"] None)
           ; ("D", Score.mkState 99%Q [] None) ]%string 0%Q).
Defined.

(** ** Insertion-ordered maps *)

Section MapFacts.
Context {V : Type}.
Implicit Types (m : JS.JsMap V) (k : string) (v : V).

Lemma get_Some_In m k v : JS.get m k = Some v -> In (k, v) m.
Proof.
  induction m as [|[k' v'] m IH]; simpl; [discriminate|].
  destruct (String.eqb_spec k k') as [->|N].
  - intros H. inversion H. now left.
  - intros H. right. auto.
Qed.

Lemma get_None_iff m k : JS.get m k = None <-> ~ In k (JS.keys m).
Proof.
  induction m as [|[k' v'] m IH]; simpl; [tauto|].
  destruct (String.eqb_spec k k') as [->|N].
  - split; [discriminate|]. intros H. exfalso. apply H. now left.
  - rewrite IH. split; intros H; [intros [E|E]; [congruence|auto]|tauto].
Qed.

Lemma In_get_NoDup m k v :
  NoDup (JS.keys m) -> In (k, v) m -> JS.get m k = Some v.
Proof.
  induction m as [|[k' v'] m IH]; simpl; [tauto|].
  intros Hnd [E|H].
  - inversion E; subst. now rewrite String.eqb_refl.
  - inversion Hnd as [|? ? Hk Hnd']; subst.
    destruct (String.eqb_spec k k') as [->|N].
    + exfalso. apply Hk. change (In (fst (k', v)) (map fst m)). now apply in_map.
    + auto.
Qed.

Lemma keys_set m k v :
  JS.keys (JS.set m k v)
  = if JS.has (JS.keys m) k then JS.keys m else JS.keys m ++ [k].
Proof.
  unfold JS.has. induction m as [|[k' v'] m IH]; simpl; [reflexivity|].
  destruct (String.eqb_spec k k') as [->|N]; simpl; [reflexivity|].
  rewrite IH. destruct (existsb _ _); reflexivity.
Qed.

Lemma keys_set_NoDup m k v : NoDup (JS.keys m) -> NoDup (JS.keys (JS.set m k v)).
Proof.
  rewrite keys_set. intros H. apply (add_NoDup (JS.keys m) k H).
Qed.

Lemma keys_set_In m k v k' :
  In k' (JS.keys (JS.set m k v)) <-> In k' (JS.keys m) \/ k' = k.
Proof.
  rewrite keys_set. apply (add_In (JS.keys m) k k').
Qed.

Lemma set_In m k v k' v' :
  NoDup (JS.keys m) ->
  In (k', v') (JS.set m k v) <->
  (k' = k /\ v' = v) \/ (k' <> k /\ In (k', v') m).
Proof.
  induction m as [|[k0 v0] m IH]; simpl; intros Hnd.
  - split.
    + intros [E|[]]. inversion E. auto.
    + intros [[-> ->]|[_ []]]. now left.
  - inversion Hnd as [|? ? Hk Hnd']; subst.
    assert (Hm : forall v1, In (k0, v1) m -> False).
    { intros v1 H. apply Hk. change (In (fst (k0, v1)) (map fst m)). now apply in_map. }
    destruct (String.eqb_spec k k0) as [->|N]; simpl.
    + split.
      * intros [E|H]; [inversion E; auto|].
        right. split; [|auto]. intros ->. eapply Hm; eauto.
      * intros [[-> ->]|[N [E|H]]]; auto. inversion E; congruence.
    + rewrite (IH Hnd'). split.
      * intros [E|[H|[H1 H2]]]; auto. inversion E; subst. auto.
      * intros [[-> ->]|[N' [E|H]]]; auto.
Qed.

End MapFacts.

(** ** Output assembler: rings *)

Lemma bestBySig_step_inv seen m r :
  Output.sig_inv seen m ->
  Output.sig_inv (seen ++ [r])
    (match JS.get m (Output.ringSignature r) with
     | Some prev =>
         if Qlt_bool (risk_score prev) (risk_score r)
         then JS.set m (Output.ringSignature r) r else m
     | None => JS.set m (Output.ringSignature r) r
     end).
Proof.
  intros (Hnd & Hb & Hk). set (sig := Output.ringSignature r).
  assert (Hnew : (forall r', In r' seen -> Output.ringSignature r' = sig ->
                             (risk_score r' <= risk_score r)%Q) ->
                 Output.sig_inv (seen ++ [r]) (JS.set m sig r)).
  { intros Hmax. split; [now apply keys_set_NoDup|]. split.
    - intros k r0 Hin. apply set_In in Hin; [|exact Hnd].
      destruct Hin as [[-> ->]|[N Hin]].
      + split; [reflexivity|]. split; [apply in_app_iff; right; now left|].
        intros r' Hr' Hs. apply in_app_iff in Hr'.
        destruct Hr' as [Hr'|[<-|[]]]; [now apply Hmax|apply Qle_refl].
      + destruct (Hb k r0 Hin) as (H1 & H2 & H3).
        split; [exact H1|]. split; [apply in_app_iff; now left|].
        intros r' Hr' Hs. apply in_app_iff in Hr'.
        destruct Hr' as [Hr'|[<-|[]]]; [now apply H3|].
        exfalso. apply N. symmetry. exact Hs.
    - intros r' Hr'. apply keys_set_In. apply in_app_iff in Hr'.
      destruct Hr' as [Hr'|[<-|[]]]; [left; now apply Hk|now right]. }
  destruct (JS.get m sig) as [prev|] eqn:Eg.
  - pose proof (get_Some_In _ _ _ Eg) as Hprev.
    destruct (Hb sig prev Hprev) as (_ & _ & Hpmax).
    destruct (Qlt_bool (risk_score prev) (risk_score r)) eqn:El.
    + apply Hnew. apply Qlt_bool_true in El.
      intros r' Hr' Hs. apply Qlt_le_weak. eapply Qle_lt_trans; [|exact El]. auto.
    + apply Qlt_bool_false in El. split; [exact Hnd|]. split.
      * intros k r0 Hin. destruct (Hb k r0 Hin) as (H1 & H2 & H3).
        split; [exact H1|]. split; [apply in_app_iff; now left|].
        intros r' Hr' Hs. apply in_app_iff in Hr'.
        destruct Hr' as [Hr'|[<-|[]]]; [now apply H3|].
        subst k. rewrite <- Hs in Hin.
        pose proof (In_get_NoDup _ _ _ Hnd Hin) as Eg'.
        assert (E' : Some prev = Some r0) by exact (eq_trans (eq_sym Eg) Eg').
        inversion E'; subst. exact El.
      * intros r' Hr'. apply in_app_iff in Hr'.
        destruct Hr' as [Hr'|[<-|[]]]; [now apply Hk|].
        change (In (fst (sig, prev)) (map fst m)). now apply in_map.
  - apply Hnew. intros r' Hr' Hs.
    exfalso. apply get_None_iff in Eg. apply Eg. rewrite <- Hs. now apply Hk.
Qed.

Lemma bestBySig_inv rings : Output.sig_inv rings (Output.bestBySig rings).
Proof.
  unfold Output.bestBySig.
  assert (G : forall l seen m, Output.sig_inv seen m ->
              Output.sig_inv (seen ++ l)
                (fold_left
                   (fun m r =>
                      let sig := Output.ringSignature r in
                      match JS.get m sig with
                      | Some prev =>
                          if Qlt_bool (risk_score prev) (risk_score r)
                          then JS.set m sig r else m
                      | None => JS.set m sig r
                      end) l m)).
  { induction l as [|r l IH]; intros seen m H; simpl.
    - now rewrite app_nil_r.
    - replace (seen ++ r :: l) with ((seen ++ [r]) ++ l)
        by (rewrite <- app_assoc; reflexivity).
      apply IH. now apply bestBySig_step_inv. }
  apply (G rings [] []). split; [constructor|]. split; simpl; tauto.
Qed.



Section RingOrderFacts.
Variable localeCompare : string -> string -> comparison.
Hypothesis localeCompare_total :
  forall x y, localeCompare x y = Gt -> localeCompare y x <> Gt.
Hypothesis localeCompare_trans :
  forall x y z, localeCompare x y <> Gt -> localeCompare y z <> Gt ->
                localeCompare x z <> Gt.









End RingOrderFacts.


(** ** Smurfing detector *)

(** The two-pointer loop never empties the window: it stops at the latest at
    the entry just added. *)
Lemma shrink_keeps_last (getCounterparty : Tx -> string) (x : Tx) :
  forall win l counts,
    snd (fst (Smurfing.shrink getCounterparty (t x) l (win ++ [x]) counts)) <> [].
Proof.
  induction win as [|y win IH]; intros l counts; simpl.
  - rewrite Z.sub_diag. simpl. discriminate.
  - destruct (Z.gtb (t x - t y) Smurfing.WINDOW_SEC); [apply IH|].
    simpl. discriminate.
Qed.

Lemma detectSmurfing_rings (g : Graph) (r : RingCandidate) :
  In r (fst (Smurfing.detectSmurfing g)) <->
  exists hub h, In hub (nodes g)
                /\ Smurfing.analyze_hub g hub = Some h
                /\ r = Smurfing.ring_of h.
Proof.
  unfold Smurfing.detectSmurfing.
  assert (G : forall l acc,
            In r (fst (fold_left (Smurfing.hub_step g) l acc)) <->
            In r (fst acc)
            \/ exists hub h, In hub l /\ Smurfing.analyze_hub g hub = Some h
                             /\ r = Smurfing.ring_of h).
  { induction l as [|x l IH]; intros acc; simpl.
    - split; [auto|]. intros [H|(hub & h & [] & _)]. exact H.
    - rewrite IH. unfold Smurfing.hub_step.
      destruct (Smurfing.analyze_hub g x) as [h|] eqn:E; simpl.
      + rewrite in_app_iff. simpl. split.
        * intros [[H|[<-|[]]]|(hub & h' & H1 & H2 & H3)].
          -- now left.
          -- right. exists x, h. auto.
          -- right. exists hub, h'. auto.
        * intros [H|(hub & h' & [<-|H1] & H2 & H3)].
          -- auto.
          -- rewrite E in H2. inversion H2; subst. auto.
          -- right. exists hub, h'. auto.
      + split.
        * intros [H|(hub & h' & H1 & H2 & H3)]; [now left|].
          right. exists hub, h'. auto.
        * intros [H|(hub & h' & [<-|H1] & H2 & H3)]; [now left|congruence|].
          right. exists hub, h'. auto. }
  rewrite G. simpl. tauto.
Qed.

Lemma analyze_hub_gate (g : Graph) (hub : string) (h : Smurfing.HubHit) :
  Smurfing.analyze_hub g hub = Some h ->
  Smurfing.hub h = hub
  /\ Smurfing.bestUniqueWindow sender_id (Smurfing.list_of (txIn g) hub)
     = Some (Smurfing.bestIn h)
  /\ Smurfing.bestUniqueWindow receiver_id (Smurfing.list_of (txOut g) hub)
     = Some (Smurfing.bestOut h)
  /\ Smurfing.hub_minT h
     = Z.min (Smurfing.minT (Smurfing.bestIn h)) (Smurfing.minT (Smurfing.bestOut h))
  /\ Smurfing.hub_maxT h
     = Z.max (Smurfing.maxT (Smurfing.bestIn h)) (Smurfing.maxT (Smurfing.bestOut h))
  /\ (Smurfing.hub_maxT h - Smurfing.hub_minT h <= Smurfing.WINDOW_SEC)%Z
  /\ Smurfing.inCons h
     = Smurfing.amountConsistency (Smurfing.amounts (Smurfing.bestIn h)) (8 # 100)%Q
  /\ Smurfing.outCons h
     = Smurfing.amountConsistency (Smurfing.amounts (Smurfing.bestOut h)) (8 # 100)%Q
  /\ ((5 # 10 <= Smurfing.inCons h)%Q \/ (45 # 100 <= Smurfing.outCons h)%Q)
  /\ Smurfing.cashout h
     = Smurfing.find_cashout g (Smurfing.counterparties (Smurfing.bestOut h))
         (Smurfing.hub_minT h) (Smurfing.hub_maxT h).
Proof.
  unfold Smurfing.analyze_hub.
  destruct (_ || _); [discriminate|].
  destruct (Smurfing.bestUniqueWindow sender_id _) as [bi|]; [|discriminate].
  destruct (Smurfing.bestUniqueWindow receiver_id _) as [bo|]; [|discriminate].
  destruct (Z.gtb _ _) eqn:Ew; [discriminate|].
  destruct (Qle_bool (5 # 10) _ || Qle_bool (45 # 100) _) eqn:Eg; [|discriminate].
  simpl. intros H. inversion H; subst; simpl. clear H.
  repeat split; auto.
  - rewrite Z.gtb_ltb in Ew. apply Z.ltb_ge in Ew. exact Ew.
  - apply orb_true_iff in Eg. destruct Eg as [Eg|Eg]; apply Qle_bool_iff in Eg; auto.
Qed.

Lemma Qle_bool_ext a b b' : (b == b')%Q -> Qle_bool a b = Qle_bool a b'.
Proof.
  intros E. destruct (Qle_bool a b) eqn:E1, (Qle_bool a b') eqn:E2; auto.
  - apply Qle_bool_iff in E1. rewrite E in E1. apply Qle_bool_iff in E1. congruence.
  - apply Qle_bool_iff in E2. rewrite <- E in E2. apply Qle_bool_iff in E2. congruence.
Qed.











(** *** Cash-out scan *)

Section CashOutFacts.
Import Smurfing.
Variables (g : Graph) (receivers : JS.JsSet) (minT maxT : Z).

Lemma cash_senders_spec (c s : string) :
  In s (cash_senders g receivers minT maxT c) <->
  exists tx, In tx (list_of (txIn g) c) /\ sender_id tx = s
             /\ (minT <= t tx <= maxT)%Z /\ In s receivers.
Proof.
  unfold cash_senders.
  assert (G : forall xs acc,
            In s (fold_left
                    (fun uniqSenders tx =>
                       if Z.ltb (t tx) minT || Z.gtb (t tx) maxT then uniqSenders
                       else if JS.has receivers (sender_id tx)
                            then JS.add uniqSenders (sender_id tx) else uniqSenders)
                    xs acc) <->
            In s acc
            \/ exists tx, In tx xs /\ sender_id tx = s
                          /\ (minT <= t tx <= maxT)%Z /\ In s receivers).
  { induction xs as [|x xs IH]; intros acc; simpl.
    - split; [auto|]. intros [H|(tx & [] & _)]. exact H.
    - rewrite IH. clear IH.
      destruct (Z.ltb (t x) minT || Z.gtb (t x) maxT) eqn:Et.
      + split.
        * intros [H|(tx & H1 & H2)]; [now left|]. right. exists tx. tauto.
        * intros [H|(tx & [<-|H1] & H2 & H3 & H4)]; [now left| |].
          -- exfalso. apply orb_true_iff in Et. rewrite Z.gtb_ltb in Et.
             destruct Et as [Et|Et]; apply Z.ltb_lt in Et; lia.
          -- right. exists tx. tauto.
      + apply orb_false_iff in Et. rewrite Z.gtb_ltb in Et.
        destruct Et as [Et1 Et2]. apply Z.ltb_ge in Et1, Et2.
        destruct (JS.has receivers (sender_id x)) eqn:Er.
        * rewrite add_In. apply has_true_iff in Er. split.
          -- intros [[H| ->]|(tx & H1 & H2)]; [now left| |].
             ++ right. exists x. repeat split; auto; lia.
             ++ right. exists tx. tauto.
          -- intros [H|(tx & [<-|H1] & H2 & H3 & H4)]; [auto|auto|].
             right. exists tx. tauto.
        * apply has_false_iff in Er. split.
          -- intros [H|(tx & H1 & H2)]; [now left|]. right. exists tx. tauto.
          -- intros [H|(tx & [<-|H1] & H2 & H3 & H4)]; [now left| |].
             ++ exfalso. apply Er. now rewrite H2.
             ++ right. exists tx. tauto. }
  rewrite G. simpl. tauto.
Qed.

Lemma cash_senders_NoDup (c : string) : NoDup (cash_senders g receivers minT maxT c).
Proof.
  unfold cash_senders. apply fold_left_inv; [|constructor].
  intros acc tx _ H. destruct (_ || _); [exact H|].
  destruct (JS.has _ _); [now apply add_NoDup|exact H].
Qed.

Lemma cash_count_le (c : string) : (cash_count g receivers minT maxT c <= length (list_of (txIn g) c))%nat.
Proof.
  unfold cash_count, cash_senders, JS.size.
  assert (G : forall xs acc,
            (length (fold_left
                       (fun uniqSenders tx =>
                          if Z.ltb (t tx) minT || Z.gtb (t tx) maxT then uniqSenders
                          else if JS.has receivers (sender_id tx)
                               then JS.add uniqSenders (sender_id tx) else uniqSenders)
                       xs acc) <= length acc + length xs)%nat).
  { induction xs as [|x xs IH]; intros acc; simpl; [lia|].
    eapply Nat.le_trans; [apply IH|].
    destruct (_ || _); [lia|]. destruct (JS.has receivers _); [|lia].
    unfold JS.add. destruct (JS.has acc _); [lia|]. rewrite length_app. simpl. lia. }
  apply (G _ []).
Qed.

Lemma cash_step_spec (acc : option string * nat) (c : string) :
  cash_step g receivers minT maxT acc c
  = if cash_candidate g receivers minT maxT c && Nat.ltb (snd acc) (cash_count g receivers minT maxT c) then (Some c, cash_count g receivers minT maxT c) else acc.
Proof.
  unfold cash_step, cash_candidate.
  pose proof (cash_count_le c) as Hle. unfold cash_count in *.
  destruct (Nat.ltb (length (list_of (txIn g) c)) MIN_UNIQUE) eqn:El.
  - apply Nat.ltb_lt in El.
    assert (E : Nat.leb MIN_UNIQUE
                  (JS.size (cash_senders g receivers minT maxT c)) = false)
      by (apply Nat.leb_gt; lia).
    now rewrite E.
  - destruct (Nat.leb MIN_UNIQUE _); simpl; [|reflexivity].
    destruct (Nat.leb (length (list_of (txOut g) c)) 2); reflexivity.
Qed.

(** The scan returns the first node, in iteration order, that maximises the
    count among the candidates. *)
Lemma cash_fold_first_max (ns : list string) : forall co bu,
  (fold_left (cash_step g receivers minT maxT) ns (co, bu) = (co, bu)
   /\ forall c, In c ns -> cash_candidate g receivers minT maxT c = true -> (cash_count g receivers minT maxT c <= bu)%nat)
  \/ exists pre c post,
       ns = pre ++ c :: post /\ cash_candidate g receivers minT maxT c = true
       /\ fold_left (cash_step g receivers minT maxT) ns (co, bu) = (Some c, cash_count g receivers minT maxT c)
       /\ (bu < cash_count g receivers minT maxT c)%nat
       /\ (forall c', In c' pre -> cash_candidate g receivers minT maxT c' = true -> (cash_count g receivers minT maxT c' < cash_count g receivers minT maxT c)%nat)
       /\ (forall c', In c' post -> cash_candidate g receivers minT maxT c' = true -> (cash_count g receivers minT maxT c' <= cash_count g receivers minT maxT c)%nat).
Proof.
  induction ns as [|x ns IH]; intros co bu; simpl.
  - left. split; [reflexivity|tauto].
  - rewrite cash_step_spec. simpl.
    destruct (cash_candidate g receivers minT maxT x && Nat.ltb bu (cash_count g receivers minT maxT x)) eqn:E.
    + apply andb_true_iff in E. destruct E as [Ec Eu]. apply Nat.ltb_lt in Eu.
      destruct (IH (Some x) (cash_count g receivers minT maxT x)) as [[Hf Hle]|(pre & c & post & Hl & Hc & Hf & Hlt & Hpre & Hpost)].
      * right. exists [], x, ns. simpl. repeat split; auto. tauto.
      * right. exists (x :: pre), c, post. subst ns. simpl.
        repeat split; auto; [lia|].
        intros c' [<-|Hc'] Hcc; [exact Hlt|auto].
    + assert (Hx : cash_candidate g receivers minT maxT x = true -> (cash_count g receivers minT maxT x <= bu)%nat).
      { intros Hc. rewrite Hc in E. simpl in E. now apply Nat.ltb_ge in E. }
      destruct (IH co bu) as [[Hf Hle]|(pre & c & post & Hl & Hc & Hf & Hlt & Hpre & Hpost)].
      * left. split; [exact Hf|]. intros c [<-|Hc]; auto.
      * right. exists (x :: pre), c, post. subst ns. simpl.
        repeat split; auto.
        intros c' [<-|Hc'] Hcc; [|auto]. specialize (Hx Hcc). lia.
Qed.

End CashOutFacts.

(** C6 (as stated) fails on the tie-break: the scan walks the nodes in
    their insertion order and keeps the first maximiser.  In [tie_txs] the
    candidates [z] and [y] both receive from the ten receivers inside the
    window; [z] enters the graph first and is chosen although [y] is the
    smaller id. *)
Lemma cashout_tie_not_lexicographic :
  ~ (forall g hub h c c',
       Smurfing.analyze_hub g hub = Some h ->
       Smurfing.cashout h = Some c ->
       In c' (nodes g) ->
       Smurfing.cash_candidate g (Smurfing.counterparties (Smurfing.bestOut h))
         (Smurfing.hub_minT h) (Smurfing.hub_maxT h) c' = true ->
       Smurfing.cash_count g (Smurfing.counterparties (Smurfing.bestOut h))
         (Smurfing.hub_minT h) (Smurfing.hub_maxT h) c'
       = Smurfing.cash_count g (Smurfing.counterparties (Smurfing.bestOut h))
           (Smurfing.hub_minT h) (Smurfing.hub_maxT h) c ->
       String.leb c c' = true).
Proof.
  intros H.
  destruct (Smurfing.analyze_hub (GraphBuilder.buildGraph Examples.tie_txs) "H")
    as [h|] eqn:E; [|vm_compute in E; discriminate E].
  specialize (H _ _ h "z"%string "y"%string E).
  vm_compute in E. inversion E; subst h. clear E.
  assert (F : String.leb "z" "y" = true).
  { apply H; vm_compute; auto 30. }
  vm_compute in F. discriminate F.
Qed.

(** C6 (amended). For a hub that passes the temporal and amount tests, the
    cash-out member, when present, is a node of the graph whose in-list
    contains at least 10 distinct senders that belong to the hub's receiver
    set and sent within [minT, maxT], and whose out-list has at most 2
    entries; it maximises that count among all such nodes, and among the
    maximisers it is the first in the graph's node order (the order in which
    accounts first appear in the transactions). *)
Theorem cashout_first_maximal_candidate
    (g : Graph) (hub : string) (h : Smurfing.HubHit) (c : string) :
  Smurfing.analyze_hub g hub = Some h ->
  Smurfing.cashout h = Some c ->
  let receivers := Smurfing.counterparties (Smurfing.bestOut h) in
  let minT := Smurfing.hub_minT h in
  let maxT := Smurfing.hub_maxT h in
  let count := Smurfing.cash_count g receivers minT maxT in
  let candidate := Smurfing.cash_candidate g receivers minT maxT in
  In c (nodes g)
  /\ (Smurfing.MIN_UNIQUE <= count c)%nat
  /\ (length (Smurfing.list_of (txOut g) c) <= 2)%nat
  /\ count c = length (Smurfing.cash_senders g receivers minT maxT c)
  /\ NoDup (Smurfing.cash_senders g receivers minT maxT c)
  /\ (forall s, In s (Smurfing.cash_senders g receivers minT maxT c) <->
                exists tx, In tx (Smurfing.list_of (txIn g) c) /\ sender_id tx = s
                           /\ (minT <= t tx <= maxT)%Z /\ In s receivers)
  /\ exists pre post,
       nodes g = pre ++ c :: post
       /\ (forall c', In c' pre -> candidate c' = true -> (count c' < count c)%nat)
       /\ (forall c', In c' post -> candidate c' = true -> (count c' <= count c)%nat).
Proof.
  intros Ha Hc. cbv zeta.
  pose proof (analyze_hub_gate g hub h Ha) as G.
  destruct G as (_ & _ & _ & _ & _ & _ & _ & _ & _ & Hcash).
  rewrite Hc in Hcash. unfold Smurfing.find_cashout in Hcash.
  destruct (cash_fold_first_max g (Smurfing.counterparties (Smurfing.bestOut h))
              (Smurfing.hub_minT h) (Smurfing.hub_maxT h) (nodes g) None 0%nat)
    as [[Hf _]|(pre & c0 & post & Hl & Hcand & Hf & Hlt & Hpre & Hpost)];
    rewrite Hf in Hcash; simpl in Hcash; [discriminate|].
  inversion Hcash; subst c0. clear Hcash.
  unfold Smurfing.cash_candidate in Hcand. apply andb_true_iff in Hcand.
  destruct Hcand as [H1 H2]. apply Nat.leb_le in H1, H2.
  split; [rewrite Hl; apply in_app_iff; right; now left|].
  split; [exact H1|]. split; [exact H2|]. split; [reflexivity|].
  split; [apply cash_senders_NoDup|]. split; [apply cash_senders_spec|].
  exists pre, post. auto.
Qed.

Lemma cashout_first_maximal_candidate_witness :
  let g := GraphBuilder.buildGraph Examples.tie_txs in
  exists h,
    Smurfing.analyze_hub g "H" = Some h
    /\ Smurfing.cashout h = Some "z"%string
    /\ exists pre post,
         nodes g = pre ++ "z"%string :: post
         /\ In "y"%string post.
Proof.
  cbv zeta.
  destruct (Smurfing.analyze_hub (GraphBuilder.buildGraph Examples.tie_txs) "H")
    as [h|] eqn:E; [|vm_compute in E; discriminate E].
  exists h. split; [reflexivity|].
  assert (Hc : Smurfing.cashout h = Some "z"%string).
  { vm_compute in E. inversion E. reflexivity. }
  split; [exact Hc|].
  destruct (cashout_first_maximal_candidate _ _ _ _ E Hc)
    as (_ & _ & _ & _ & _ & _ & pre & post & Hl & Hpre & Hpost).
  exists pre, post. split; [exact Hl|].
  assert (Hy : In "y"%string (nodes (GraphBuilder.buildGraph Examples.tie_txs)))
    by (vm_compute; auto 30).
  rewrite Hl in Hy. apply in_app_iff in Hy. destruct Hy as [Hy|[Hy|Hy]].
  - exfalso. specialize (Hpre _ Hy). vm_compute in E. inversion E; subst h.
    assert (F : (10 < 10)%nat) by (apply Hpre; vm_compute; reflexivity).
    lia.
  - discriminate Hy.
  - exact Hy.
Defined.

(** ** Shell-chain detector *)

Section ShellFacts.
Import ShellChains.
Variables (g : Graph) (low : JS.JsSet).

(** The depth bound makes the fuel irrelevant from [8 - depthEdges] on. *)
Lemma ShellChains_dfs_fuel : forall f1 f2 u depthEdges st,
  (8 - depthEdges <= f1)%nat -> (8 - depthEdges <= f2)%nat ->
  dfs f1 g low u depthEdges st = dfs f2 g low u depthEdges st.
Proof.
  induction f1 as [|f1 IH]; intros [|f2] u d st H1 H2; cbn [dfs]; try reflexivity.
  - assert (E : Nat.ltb MAX_DEPTH d = true) by (apply Nat.ltb_lt; unfold MAX_DEPTH; lia).
    rewrite E. now destruct (Nat.leb MAX_PATHS_PER_START (found st)).
  - assert (E : Nat.ltb MAX_DEPTH d = true) by (apply Nat.ltb_lt; unfold MAX_DEPTH; lia).
    rewrite E. now destruct (Nat.leb MAX_PATHS_PER_START (found st)).
  - destruct (Nat.leb MAX_PATHS_PER_START (found st)); [reflexivity|].
    destruct (Nat.ltb MAX_DEPTH d) eqn:E; [reflexivity|].
    apply Nat.ltb_ge in E. unfold MAX_DEPTH in E.
    destruct (JS.get (outNeighbors g) u) as [nbrs|]; [|reflexivity].
    apply fold_left_ext_in. intros a v _.
    destruct (Nat.leb MAX_PATHS_PER_START (found a)); [reflexivity|].
    destruct (JS.has (visited a) v); [reflexivity|].
    destruct (Nat.ltb (d + 1) 2 && negb (JS.has low v)); [reflexivity|].
    rewrite (IH f2) by lia. reflexivity.
Qed.

(** What the acceptance test guarantees for every emitted chain: pattern
    [layered_shell], and intermediates that are low-activity with exactly one
    in-neighbour and one out-neighbour. *)
Lemma try_emit_accepted nextDepth st :
  Forall (accepted g low) (rings st) ->
  Forall (accepted g low) (rings (try_emit g low nextDepth st)).
Proof.
  intros H. unfold try_emit. destruct (shell_like _ _ _) eqn:Es; [|exact H].
  destruct (walk_edges _ _ _); [|exact H].
  destruct (JS.has _ _); [exact H|]. simpl.
  apply Forall_app. split; [exact H|]. repeat constructor. exact Es.
Qed.

Lemma dfs_accepted : forall fuel u depthEdges st,
  Forall (accepted g low) (rings st) ->
  Forall (accepted g low) (rings (dfs fuel g low u depthEdges st)).
Proof.
  induction fuel as [|fuel IH]; intros u d st H; cbn [dfs]; [exact H|].
  destruct (Nat.leb _ _); [exact H|]. destruct (Nat.ltb _ _); [exact H|].
  destruct (JS.get _ _) as [nbrs|]; [|exact H].
  apply (fold_left_inv (fun s => Forall (accepted g low) (rings s))); [|exact H].
  intros a v _ Ha. cbv beta. destruct (Nat.leb _ _); [exact Ha|].
  destruct (JS.has _ _); [exact Ha|]. destruct (_ && _); [exact Ha|].
  cbn [rings]. apply IH. destruct (Nat.leb 3 _); [|exact Ha].
  apply try_emit_accepted. exact Ha.
Qed.

End ShellFacts.

Lemma detectShellChains_accepted (g : Graph) :
  Forall (ShellChains.accepted g (ShellChains.low_set g))
         (fst (ShellChains.detectShellChains g)).
Proof.
  unfold ShellChains.detectShellChains. simpl.
  apply (fold_left_inv
           (fun s => Forall (ShellChains.accepted g (ShellChains.low_set g))
                            (ShellChains.rings s))); [|constructor].
  intros a s _ Ha. unfold ShellChains.from_start. apply dfs_accepted. exact Ha.
Qed.

Lemma detectShellChains_pattern (g : Graph) (r : RingCandidate) :
  In r (fst (ShellChains.detectShellChains g)) ->
  pattern_type r = "layered_shell"%string.
Proof.
  intros H. pose proof (detectShellChains_accepted g) as G.
  rewrite Forall_forall in G. apply (G r H).
Qed.

(** C3 (as stated) fails on the chain [a -> b -> c -> d]: the guard reads
    [nextDepth < 2], so it filters the first hop only.  The detector extends
    the path to [d] at edge-depth 3 and emits the chain, although [d], with a
    single transaction, is outside the low-activity set. *)
Lemma shell_dfs_extends_to_non_low_node :
  let g := GraphBuilder.buildGraph Examples.chain_txs in
  ShellChains.low_set g = ["b"; "c"]%string
  /\ JS.has (ShellChains.low_set g) "d" = false
  /\ fst (ShellChains.detectShellChains g)
     = [mkRing "layered_shell" ["a"; "b"; "c"; "d"]%string (880 # 10)%Q].
Proof.
  repeat split.
Qed.

(** ** Deduplication *)

Lemma uniqPreserveOrder_of_list (xs : list string) :
  Output.uniqPreserveOrder xs = JS.of_list xs.
Proof.
  unfold Output.uniqPreserveOrder, JS.of_list.
  assert (G : forall l s,
            fold_left
              (fun acc x => if JS.has (snd acc) x then acc
                            else (fst acc ++ [x], JS.add (snd acc) x)) l (s, s)
            = (fold_left JS.add l s, fold_left JS.add l s)).
  { induction l as [|x l IH]; intros s; simpl; [reflexivity|].
    destruct (JS.has s x) eqn:E.
    - rewrite IH. unfold JS.add. now rewrite E.
    - replace (s ++ [x]) with (JS.add s x) by (unfold JS.add; now rewrite E).
      apply IH. }
  now rewrite G.
Qed.

Lemma filter_filter_and {A} (p q : A -> bool) (l : list A) :
  filter p (filter q l) = filter (fun y => q y && p y) l.
Proof.
  induction l as [|x l IH]; simpl; [reflexivity|].
  destruct (q x); simpl; [destruct (p x)|]; now rewrite IH.
Qed.

Lemma has_app s1 s2 x : JS.has (s1 ++ s2) x = JS.has s1 x || JS.has s2 x.
Proof. unfold JS.has. apply existsb_app. Qed.

Lemma fold_add_dedup (xs : list string) : forall acc,
  fold_left JS.add xs acc
  = acc ++ filter (fun y => negb (JS.has acc y)) (Output.dedup_first xs).
Proof.
  induction xs as [|x xs IH]; intros acc; simpl; [now rewrite app_nil_r|].
  rewrite IH. unfold JS.add. destruct (JS.has acc x) eqn:E; simpl.
  - f_equal. rewrite filter_filter_and. apply filter_ext_in. intros y _.
    destruct (String.eqb_spec x y) as [<-|N]; simpl; [now rewrite E|reflexivity].
  - rewrite <- app_assoc. simpl. do 2 f_equal.
    rewrite filter_filter_and. apply filter_ext. intros y.
    rewrite has_app. unfold JS.has at 2. simpl.
    rewrite orb_false_r, negb_orb, (String.eqb_sym y x). apply andb_comm.
Qed.

(** The assembler's [uniqPreserveOrder] removes duplicates and keeps first
    occurrences in place. *)
Lemma uniqPreserveOrder_dedup_first (xs : list string) :
  Output.uniqPreserveOrder xs = Output.dedup_first xs.
Proof.
  rewrite uniqPreserveOrder_of_list. unfold JS.of_list.
  rewrite fold_add_dedup. simpl.
  induction (Output.dedup_first xs) as [|y l IH]; simpl; [reflexivity|].
  now rewrite IH.
Qed.




Lemma dedup_first_In (xs : list string) (x : string) :
  In x (Output.dedup_first xs) <-> In x xs.
Proof.
  rewrite <- uniqPreserveOrder_dedup_first, uniqPreserveOrder_of_list.
  apply of_list_In.
Qed.


Lemma fraud_rings_of_origin (localeCompare : string -> string -> comparison)
    (rings : list RingCandidate) (f : Out.FraudRing) :
  In f (Output.fraud_rings_of localeCompare rings) ->
  exists i k, In k rings /\ f = Output.to_fraud_ring i k.
Proof.
  unfold Output.fraud_rings_of. intros H. apply in_map_iff in H.
  destruct H as ([i k] & <- & Hin). apply in_combine_r in Hin.
  exists i, k. split; [|reflexivity].
  unfold Output.ringList in Hin. apply sort_In in Hin.
  unfold JS.values in Hin. apply in_map_iff in Hin.
  destruct Hin as ([s r] & <- & Hin). simpl.
  destruct (bestBySig_inv rings) as (_ & Hb & _). apply (Hb s r Hin).
Qed.




(** ** Pipeline entry *)






(** * Further properties of the code *)

(** ** Maps: lookup after update *)

Section MapUpdateFacts.
Context {V : Type}.
Implicit Types (m : JS.JsMap V) (k : string) (v : V).

Lemma get_set_same m k v : JS.get (JS.set m k v) k = Some v.
Proof.
  induction m as [|[k' v'] m IH]; simpl.
  - now rewrite String.eqb_refl.
  - destruct (String.eqb_spec k k') as [->|N]; simpl.
    + now rewrite String.eqb_refl.
    + destruct (String.eqb_spec k k'); [contradiction|exact IH].
Qed.

Lemma get_set_other m k v k' : k' <> k -> JS.get (JS.set m k v) k' = JS.get m k'.
Proof.
  intros N. induction m as [|[k0 v0] m IH]; simpl.
  - destruct (String.eqb_spec k' k); [contradiction|reflexivity].
  - destruct (String.eqb_spec k k0) as [->|N0]; simpl.
    + destruct (String.eqb_spec k' k0); [contradiction|reflexivity].
    + destruct (String.eqb_spec k' k0); [reflexivity|exact IH].
Qed.

End MapUpdateFacts.

(** ** Graph builder *)

Section GraphFacts.
Import GraphBuilder.

Lemma ingest_fields (txs : list Tx) : forall g,
  let g' := fold_left ingest txs g in
  nodes g' = fold_left (fun s tx => JS.add (JS.add s (sender_id tx)) (receiver_id tx))
                       txs (nodes g)
  /\ outNeighbors g'
     = fold_left (fun m tx => addNeighbor m (sender_id tx) (receiver_id tx))
                 txs (outNeighbors g)
  /\ inNeighbors g'
     = fold_left (fun m tx => addNeighbor m (receiver_id tx) (sender_id tx))
                 txs (inNeighbors g)
  /\ txIn g' = fold_left (fun m tx => push m (receiver_id tx) tx) txs (txIn g)
  /\ txOut g' = fold_left (fun m tx => push m (sender_id tx) tx) txs (txOut g)
  /\ edgeTx g'
     = fold_left (fun m tx => push m (edgeKey (sender_id tx) (receiver_id tx)) tx)
                 txs (edgeTx g)
  /\ degreeTotal g'
     = fold_left (fun m tx => bump (bump m (sender_id tx)) (receiver_id tx))
                 txs (degreeTotal g).
Proof.
  induction txs as [|tx txs IH]; intros g; simpl; [repeat split|].
  apply (IH (ingest g tx)).
Qed.

(** A map filled by [push] under the key [key tx] holds, per key, the
    transactions of that key in input order. *)
Lemma push_fold (key : Tx -> string) (txs : list Tx) : forall m k,
  Smurfing.list_of (fold_left (fun m tx => push m (key tx) tx) txs m) k
  = Smurfing.list_of m k ++ filter (fun tx => String.eqb (key tx) k) txs.
Proof.
  unfold Smurfing.list_of.
  induction txs as [|tx txs IH]; intros m k; simpl; [now rewrite app_nil_r|].
  rewrite IH. unfold push.
  destruct (String.eqb_spec (key tx) k) as [E|N].
  - subst k. destruct (JS.get m (key tx)) as [a|] eqn:Eg;
      rewrite get_set_same; [now rewrite <- app_assoc|reflexivity].
  - assert (N' : k <> key tx) by congruence.
    destruct (JS.get m (key tx)); now rewrite (get_set_other _ _ _ _ N').
Qed.

Lemma get_sort_lists (m : JS.JsMap (list Tx)) (k : string) :
  Smurfing.list_of (sort_lists m) k = JS.sort by_time (Smurfing.list_of m k).
Proof.
  unfold Smurfing.list_of, sort_lists.
  induction m as [|[k' a] m IH]; simpl; [reflexivity|].
  destruct (String.eqb k k'); [reflexivity|exact IH].
Qed.

Lemma by_time_total (a b : Tx) : by_time a b = Gt -> by_time b a <> Gt.
Proof.
  unfold by_time. rewrite (Z.compare_antisym (t a) (t b)).
  destruct (Z.compare (t a) (t b)); simpl; congruence.
Qed.

Lemma sort_by_time_sorted (xs : list Tx) :
  StronglySorted (fun a b => (t a <= t b)%Z) (JS.sort by_time xs).
Proof.
  apply Sorted_StronglySorted; [intros a b c; apply Z.le_trans|].
  eapply Sorted_ind with (P := fun l => Sorted (fun a b => (t a <= t b)%Z) l);
    [constructor| |apply (sort_sorted _ by_time_total)].
  intros a l _ IH Hd. constructor; [exact IH|].
  destruct Hd as [|b l Hab]; constructor.
  unfold JS.cmp_le, by_time in Hab. now apply Z.compare_le_iff.
Qed.

Lemma nodes_fold (txs : list Tx) : forall s,
  (NoDup s ->
   NoDup (fold_left (fun s tx => JS.add (JS.add s (sender_id tx)) (receiver_id tx)) txs s))
  /\ forall n,
       In n (fold_left (fun s tx => JS.add (JS.add s (sender_id tx)) (receiver_id tx)) txs s)
       <-> In n s \/ exists tx, In tx txs /\ (sender_id tx = n \/ receiver_id tx = n).
Proof.
  induction txs as [|tx txs IH]; intros s; simpl.
  - split; [auto|]. intros n. split; [auto|]. intros [H|(tx & [] & _)]. exact H.
  - destruct (IH (JS.add (JS.add s (sender_id tx)) (receiver_id tx))) as [H1 H2].
    split; [intros H; apply H1; now do 2 apply add_NoDup|].
    intros n. rewrite H2, !add_In. split.
    + intros [[[H|H]|H]|(tx' & Hin & H)]; eauto 6.
    + intros [H|(tx' & [<-|Hin] & [H|H])]; eauto 6.
Qed.

Lemma neighbor_fold (k1 k2 : Tx -> string) (txs : list Tx) : forall m a b,
  In b (match JS.get (fold_left (fun m tx => addNeighbor m (k1 tx) (k2 tx)) txs m) a with
        | Some s => s | None => [] end)
  <-> In b (match JS.get m a with Some s => s | None => [] end)
      \/ exists tx, In tx txs /\ k1 tx = a /\ k2 tx = b.
Proof.
  induction txs as [|tx txs IH]; intros m a b; simpl.
  - split; [auto|]. intros [H|(tx & [] & _)]. exact H.
  - rewrite IH. clear IH. unfold addNeighbor.
    assert (Hstep :
      In b (match JS.get (match JS.get m (k1 tx) with
                          | Some s => JS.set m (k1 tx) (JS.add s (k2 tx))
                          | None => JS.set m (k1 tx) (JS.of_list [k2 tx])
                          end) a with Some s => s | None => [] end)
      <-> In b (match JS.get m a with Some s => s | None => [] end)
          \/ (k1 tx = a /\ k2 tx = b)).
    { destruct (String.eqb_spec (k1 tx) a) as [E|N].
      - subst a. destruct (JS.get m (k1 tx)) as [s|] eqn:Eg; rewrite get_set_same.
        + rewrite add_In. intuition.
        + simpl. intuition.
      - assert (N' : a <> k1 tx) by congruence.
        destruct (JS.get m (k1 tx)); rewrite (get_set_other _ _ _ _ N'); intuition. }
    rewrite Hstep. split.
    + intros [[H|[H1 H2]]|(tx' & Hin & H)]; eauto 6.
    + intros [H|(tx' & [<-|Hin] & H)]; eauto 6.
Qed.

Lemma bump_fold (txs : list Tx) : forall m n,
  match JS.get (fold_left (fun m tx => bump (bump m (sender_id tx)) (receiver_id tx))
                          txs m) n with
  | Some d => d | None => 0%nat end
  = (match JS.get m n with Some d => d | None => 0%nat end
     + length (filter (fun tx => String.eqb (sender_id tx) n) txs)
     + length (filter (fun tx => String.eqb (receiver_id tx) n) txs))%nat.
Proof.
  assert (Hb : forall m k n,
            match JS.get (bump m k) n with Some d => d | None => 0%nat end
            = (match JS.get m n with Some d => d | None => 0%nat end
               + if String.eqb k n then 1 else 0)%nat).
  { intros m k n. unfold bump. destruct (String.eqb_spec k n) as [->|N].
    - now rewrite get_set_same.
    - assert (N' : n <> k) by congruence.
      rewrite (get_set_other _ _ _ _ N'). lia. }
  induction txs as [|tx txs IH]; intros m n; simpl; [lia|].
  rewrite IH, !Hb.
  destruct (String.eqb (sender_id tx) n), (String.eqb (receiver_id tx) n); simpl; lia.
Qed.

End GraphFacts.

Lemma buildGraph_nodes_iff (txs : list Tx) (n : string) :
  In n (nodes (GraphBuilder.buildGraph txs))
  <-> exists tx, In tx txs /\ (sender_id tx = n \/ receiver_id tx = n).
Proof.
  unfold GraphBuilder.buildGraph. simpl.
  destruct (ingest_fields txs GraphBuilder.empty) as (Hn & _). rewrite Hn. simpl.
  destruct (nodes_fold txs []) as [_ H2]. rewrite H2. simpl. tauto.
Qed.

Lemma buildGraph_lists_eq (txs : list Tx) (n : string) :
  let g := GraphBuilder.buildGraph txs in
  Smurfing.list_of (txIn g) n
  = JS.sort GraphBuilder.by_time (filter (fun tx => String.eqb (receiver_id tx) n) txs)
  /\ Smurfing.list_of (txOut g) n
     = JS.sort GraphBuilder.by_time (filter (fun tx => String.eqb (sender_id tx) n) txs)
  /\ Smurfing.list_of (edgeTx g) n
     = JS.sort GraphBuilder.by_time
         (filter (fun tx => String.eqb (edgeKey (sender_id tx) (receiver_id tx)) n) txs).
Proof.
  cbv zeta. unfold GraphBuilder.buildGraph. simpl.
  destruct (ingest_fields txs GraphBuilder.empty) as (_ & _ & _ & Hi & Ho & He & _).
  rewrite !get_sort_lists, Hi, Ho, He.
  rewrite (push_fold receiver_id), (push_fold sender_id),
    (push_fold (fun tx => edgeKey (sender_id tx) (receiver_id tx))).
  simpl. repeat split.
Qed.

Lemma buildGraph_out_edge (txs : list Tx) (a b : string) :
  In b (match JS.get (outNeighbors (GraphBuilder.buildGraph txs)) a with
        | Some s => s | None => [] end)
  <-> exists tx, In tx txs /\ sender_id tx = a /\ receiver_id tx = b.
Proof.
  unfold GraphBuilder.buildGraph. simpl.
  destruct (ingest_fields txs GraphBuilder.empty) as (_ & Ho & _).
  rewrite Ho, (neighbor_fold sender_id receiver_id). simpl.
  split; [intros [[]|H]; exact H|auto].
Qed.

(** X1. The node set of the built graph has no repeats and holds exactly the
    accounts that occur as sender or receiver of a transaction. *)
Theorem buildGraph_nodes (txs : list Tx) :
  NoDup (nodes (GraphBuilder.buildGraph txs))
  /\ forall n, In n (nodes (GraphBuilder.buildGraph txs))
               <-> exists tx, In tx txs /\ (sender_id tx = n \/ receiver_id tx = n).
Proof.
  unfold GraphBuilder.buildGraph. simpl.
  destruct (ingest_fields txs GraphBuilder.empty) as (Hn & _). rewrite Hn. simpl.
  destruct (nodes_fold txs []) as [H1 H2]. split; [apply H1; constructor|].
  intros n. rewrite H2. simpl. tauto.
Qed.

(** X2. For every account, the in-list (out-list) of the built graph is the
    stable time-sort of the transactions it receives (sends), and the list
    under an edge key is the stable time-sort of the transactions with that
    key; so each list holds exactly those transactions, in ascending time. *)
Theorem buildGraph_tx_lists (txs : list Tx) (n : string) :
  let g := GraphBuilder.buildGraph txs in
  let received := filter (fun tx => String.eqb (receiver_id tx) n) txs in
  let sent := filter (fun tx => String.eqb (sender_id tx) n) txs in
  let keyed := filter (fun tx => String.eqb (edgeKey (sender_id tx) (receiver_id tx)) n)
                      txs in
  Smurfing.list_of (txIn g) n = JS.sort GraphBuilder.by_time received
  /\ Smurfing.list_of (txOut g) n = JS.sort GraphBuilder.by_time sent
  /\ Smurfing.list_of (edgeTx g) n = JS.sort GraphBuilder.by_time keyed
  /\ Permutation (Smurfing.list_of (txIn g) n) received
  /\ Permutation (Smurfing.list_of (txOut g) n) sent
  /\ Permutation (Smurfing.list_of (edgeTx g) n) keyed
  /\ StronglySorted (fun a b => (t a <= t b)%Z) (Smurfing.list_of (txIn g) n)
  /\ StronglySorted (fun a b => (t a <= t b)%Z) (Smurfing.list_of (txOut g) n)
  /\ StronglySorted (fun a b => (t a <= t b)%Z) (Smurfing.list_of (edgeTx g) n).
Proof.
  cbv zeta. unfold GraphBuilder.buildGraph. simpl.
  destruct (ingest_fields txs GraphBuilder.empty) as (_ & _ & _ & Hi & Ho & He & _).
  rewrite !get_sort_lists, Hi, Ho, He.
  rewrite (push_fold receiver_id), (push_fold sender_id),
    (push_fold (fun tx => edgeKey (sender_id tx) (receiver_id tx))).
  simpl. repeat split; try apply sort_perm; apply sort_by_time_sorted.
Qed.

(** X3. The total degree recorded for an account is the number of
    transactions it sends plus the number it receives (a self-transfer
    counts twice), that is the length of its out-list plus that of its
    in-list; it is positive exactly for the nodes of the graph. *)
Theorem buildGraph_degree (txs : list Tx) (n : string) :
  let g := GraphBuilder.buildGraph txs in
  let degree := match JS.get (degreeTotal g) n with Some d => d | None => 0%nat end in
  degree = (length (filter (fun tx => String.eqb (sender_id tx) n) txs)
            + length (filter (fun tx => String.eqb (receiver_id tx) n) txs))%nat
  /\ degree = (length (Smurfing.list_of (txOut g) n)
               + length (Smurfing.list_of (txIn g) n))%nat
  /\ (In n (nodes g) <-> (0 < degree)%nat).
Proof.
  cbv zeta.
  destruct (buildGraph_lists_eq txs n) as (Hi & Ho & _).
  rewrite Hi, Ho, !sort_length, buildGraph_nodes_iff.
  unfold GraphBuilder.buildGraph. simpl.
  destruct (ingest_fields txs GraphBuilder.empty) as (_ & _ & _ & _ & _ & _ & Hd).
  rewrite Hd, bump_fold. simpl. split; [reflexivity|]. split; [reflexivity|].
  split.
  - intros (tx & Hin & [H|H]).
    + assert (In tx (filter (fun tx => String.eqb (sender_id tx) n) txs))
        by (apply filter_In; split; [exact Hin|now apply String.eqb_eq]).
      destruct (filter (fun tx => String.eqb (sender_id tx) n) txs); simpl in *; [tauto|lia].
    + assert (In tx (filter (fun tx => String.eqb (receiver_id tx) n) txs))
        by (apply filter_In; split; [exact Hin|now apply String.eqb_eq]).
      destruct (filter (fun tx => String.eqb (receiver_id tx) n) txs); simpl in *; [tauto|lia].
  - intros H.
    destruct (filter (fun tx => String.eqb (sender_id tx) n) txs) as [|tx l] eqn:E1.
    + destruct (filter (fun tx => String.eqb (receiver_id tx) n) txs) as [|tx l] eqn:E2;
        [simpl in H; lia|].
      assert (Hin : In tx (filter (fun tx => String.eqb (receiver_id tx) n) txs))
        by (rewrite E2; now left).
      apply filter_In in Hin. destruct Hin as [Hin He]. apply String.eqb_eq in He. eauto.
    + assert (Hin : In tx (filter (fun tx => String.eqb (sender_id tx) n) txs))
        by (rewrite E1; now left).
      apply filter_In in Hin. destruct Hin as [Hin He]. apply String.eqb_eq in He. eauto.
Qed.

(** X4. Adjacency reflects the transactions: [b] is an out-neighbour of [a]
    exactly when some transaction goes from [a] to [b], and exactly when [a]
    is an in-neighbour of [b]. *)
Theorem buildGraph_neighbors (txs : list Tx) (a b : string) :
  let g := GraphBuilder.buildGraph txs in
  let outs := match JS.get (outNeighbors g) a with Some s => s | None => [] end in
  let ins := match JS.get (inNeighbors g) b with Some s => s | None => [] end in
  (In b outs <-> exists tx, In tx txs /\ sender_id tx = a /\ receiver_id tx = b)
  /\ (In a ins <-> In b outs).
Proof.
  cbv zeta. unfold GraphBuilder.buildGraph. simpl.
  destruct (ingest_fields txs GraphBuilder.empty) as (_ & Ho & Hi & _).
  rewrite Ho, Hi. rewrite (neighbor_fold sender_id receiver_id).
  rewrite (neighbor_fold receiver_id sender_id). simpl. split.
  - split; [intros [[]|H]; exact H|auto].
  - split.
    + intros [[]|(tx & H1 & H2 & H3)]. right. eauto.
    + intros [[]|(tx & H1 & H2 & H3)]. right. eauto.
Qed.

(** ** Walks *)

Lemma combine_snoc (p : list string) : forall a x d,
  combine (a :: p) (p ++ [x]) = combine (a :: p) p ++ [(last (a :: p) d, x)].
Proof.
  induction p as [|b q IH]; intros a x d; [reflexivity|].
  change (combine (a :: b :: q) ((b :: q) ++ [x]))
    with ((a, b) :: combine (b :: q) (q ++ [x])).
  rewrite (IH b x d). reflexivity.
Qed.

Lemma combine_app_extra {A B} (l1 e : list A) : forall (l2 : list B),
  length l2 = length l1 -> combine (l1 ++ e) l2 = combine l1 l2.
Proof.
  induction l1 as [|a l1 IH]; intros [|b l2] H; simpl in *; try discriminate.
  - now destruct e.
  - f_equal. apply IH. lia.
Qed.

Lemma is_walk_snoc (g : Graph) (p : list string) (a v d : string) :
  is_walk g (a :: p) -> has_edge g (last (a :: p) d) v ->
  is_walk g ((a :: p) ++ [v]).
Proof.
  unfold is_walk. intros Hw He.
  change (tl ((a :: p) ++ [v])) with (p ++ [v]).
  rewrite combine_app_extra by (rewrite length_app; simpl; lia).
  rewrite (combine_snoc p a v d). apply Forall_app. split; [exact Hw|].
  constructor; [exact He|constructor].
Qed.

Lemma is_walk_close (g : Graph) (p : list string) (a d : string) :
  is_walk g (a :: p) -> has_edge g (last (a :: p) d) a ->
  Cycles.is_cycle g (a :: p).
Proof.
  unfold is_walk, Cycles.is_cycle, Cycles.cycle_edges. intros Hw He.
  change (skipn 1 (a :: p) ++ firstn 1 (a :: p)) with (p ++ [a]).
  rewrite (combine_snoc p a a d). apply Forall_app. split; [exact Hw|].
  constructor; [exact He|constructor].
Qed.

(** ** Cycle detector: soundness *)

Section CycleSoundness.
Import Cycles.
Variables (g : Graph) (idx : JS.JsMap nat) (start : string) (startIdx : nat).

Lemma close_cycle_sound st rest d :
  path st = start :: rest -> NoDup (path st) -> is_walk g (path st) ->
  has_edge g (last (path st) d) start ->
  Forall (sound g) (rings st) -> Forall (sound g) (rings (close_cycle g st)).
Proof.
  intros Hp Hnd Hw He Hr. unfold close_cycle. destruct (JS.has _ _); simpl; [exact Hr|].
  apply Forall_app. split; [exact Hr|]. constructor; [|constructor].
  exists (path st). simpl. split; [|split; [exact Hnd|]].
  - unfold JS.sort_strings. rewrite sort_perm. symmetry. apply canonicalCycle_perm.
  - rewrite Hp in *. now apply (is_walk_close g rest start d).
Qed.

Lemma dfs_sound : forall fuel u depth st rest,
  path st = start :: rest -> last (path st) ""%string = u ->
  NoDup (path st) -> (forall x, In x (path st) -> In x (visited st)) ->
  is_walk g (path st) ->
  Forall (sound g) (rings st) ->
  Forall (sound g) (rings (dfs fuel g idx start startIdx u depth st)).
Proof.
  induction fuel as [|fuel IH]; intros u depth st rest Hp Hl Hnd Hsub Hw Hr;
    cbn [dfs]; [exact Hr|].
  destruct (Nat.ltb 5 depth); [exact Hr|].
  destruct (JS.get (outNeighbors g) u) as [nbrs|] eqn:En; [|exact Hr].
  match goal with
  | |- Forall _ (rings (fold_left ?f ?l ?a)) =>
      enough (G : (path (fold_left f l a) = path st
                   /\ visited (fold_left f l a) = visited st)
                  /\ Forall (sound g) (rings (fold_left f l a))) by apply G;
      apply (fold_left_inv
               (fun s => (path s = path st /\ visited s = visited st)
                         /\ Forall (sound g) (rings s))); [|auto]
  end.
  intros a v Hv [[Hpa Hva] Ha]. cbv beta.
  assert (Hedge : has_edge g (last (path st) ""%string) v).
  { unfold has_edge. rewrite Hl, En. exact Hv. }
  destruct (JS.get idx v); [|auto].
  destruct (Nat.ltb n startIdx); [auto|].
  destruct (String.eqb_spec v start) as [->|Nv].
  { destruct (_ && _); [|auto].
    destruct (close_cycle_frame g a) as [E1 E2]. rewrite E1, E2.
    split; [auto|]. apply (close_cycle_sound a rest ""%string); rewrite ?Hpa; auto. }
  destruct (JS.has (visited a) v) eqn:Ev; [auto|].
  destruct (dfs_frame g idx start startIdx fuel v (depth + 1)%nat
              (mkSt (path a ++ [v]) (JS.add (visited a) v)
                    (seen a) (rings a) (evidenceByAccount a))) as [E1 E2].
  cbn [path visited rings]. rewrite E1, E2. cbn [path visited].
  rewrite removelast_last, delete_add by exact Ev.
  split; [auto|]. apply (IH v (depth + 1)%nat _ (rest ++ [v])); cbn [path visited rings].
  - rewrite Hpa, Hp. reflexivity.
  - rewrite last_last. reflexivity.
  - rewrite Hpa. apply NoDup_app; auto.
    + repeat constructor. simpl. tauto.
    + intros x Hx [<-|[]]. apply has_false_iff in Ev. apply Ev.
      rewrite Hva. now apply Hsub.
  - intros x Hx. apply add_In. apply in_app_iff in Hx.
    destruct Hx as [Hx|[<-|[]]]; [left|now right].
    rewrite Hva. apply Hsub. now rewrite <- Hpa.
  - rewrite Hpa, Hp. apply (is_walk_snoc g rest start v ""%string).
    + now rewrite <- Hp.
    + now rewrite <- Hp.
  - exact Ha.
Qed.

End CycleSoundness.

Lemma detectCycles35_sound_rings (g : Graph) :
  Forall (Cycles.sound g) (fst (Cycles.detectCycles35 g)).
Proof.
  unfold Cycles.detectCycles35. simpl.
  apply (fold_left_inv (fun s => Forall (Cycles.sound g) (Cycles.rings s))); [|constructor].
  intros a s _ Ha. unfold Cycles.from_start.
  destruct (JS.get _ s); [|exact Ha].
  apply (dfs_sound g _ s _ 6 s 1%nat _ []); simpl; auto.
  all: try (intros x [<-|[]]; now left).
  all: try (unfold is_walk; simpl; constructor).
  all: try (repeat constructor; simpl; tauto).
Qed.

(** X5. Every ring emitted by the cycle detector lists the nodes of a
    directed cycle of the graph: its members can be arranged, without
    repeats, so that each has an out-edge to the next and the last to the
    first.  On a built graph every such edge carries a transaction. *)
Theorem detectCycles35_sound (txs : list Tx) (r : RingCandidate) :
  In r (fst (Cycles.detectCycles35 (GraphBuilder.buildGraph txs))) ->
  exists cyc,
    Permutation cyc (member_accounts r) /\ NoDup cyc
    /\ Cycles.is_cycle (GraphBuilder.buildGraph txs) cyc
    /\ forall a b, In (a, b) (Cycles.cycle_edges cyc) ->
         exists tx, In tx txs /\ sender_id tx = a /\ receiver_id tx = b.
Proof.
  intros H. pose proof (detectCycles35_sound_rings (GraphBuilder.buildGraph txs)) as G.
  rewrite Forall_forall in G. destruct (G r H) as (cyc & Hperm & Hnd & Hc).
  exists cyc. repeat split; auto.
  intros a b Hab. unfold Cycles.is_cycle in Hc. rewrite Forall_forall in Hc.
  apply (buildGraph_out_edge txs a b). exact (Hc (a, b) Hab).
Qed.

Lemma detectCycles35_sound_witness :
  exists cyc,
    Permutation cyc ["A"; "B"; "C"]%string
    /\ Cycles.is_cycle (GraphBuilder.buildGraph Examples.cycle_txs) cyc.
Proof.
  destruct (detectCycles35_sound Examples.cycle_txs
              (mkRing "cycle" ["A"; "B"; "C"]%string (993 # 10)%Q))
    as (cyc & Hp & _ & Hc & _); [left; reflexivity|].
  exists cyc. split; [exact Hp|exact Hc].
Defined.

(** ** Cycle detector: risk *)

Lemma span_of_nonneg (lo : option Z) (hi : Z) : (0 <= span_of lo hi)%Z.
Proof. unfold span_of. destruct lo; lia. Qed.

Lemma cycleRisk_bounds (len : nat) (span : Z) :
  (85 <= Cycles.cycleRisk len span <= 993 # 10)%Q
  /\ (len = 3%nat -> (893 # 10 <= Cycles.cycleRisk len span)%Q)
  /\ (len = 4%nat -> (877 # 10 <= Cycles.cycleRisk len span)%Q).
Proof.
  unfold Cycles.cycleRisk.
  destruct (Nat.eqb_spec len 3) as [E3|N3]; [|destruct (Nat.eqb_spec len 4) as [E4|N4]];
    destruct (Qle_bool (inject_Z span / 3600) 1);
    try destruct (Qle_bool (inject_Z span / 3600) 6);
    try destruct (Qle_bool (inject_Z span / 3600) 24);
    (split; [split; vm_compute; discriminate|]);
    (split; intros E; try contradiction; try (subst; discriminate);
     vm_compute; discriminate).
Qed.

Section CycleRisk.
Import Cycles.
Variables (g : Graph) (idx : JS.JsMap nat) (start : string) (startIdx : nat).

Lemma close_cycle_priced st :
  Forall priced (rings st) -> Forall priced (rings (close_cycle g st)).
Proof.
  intros Hr. unfold close_cycle. destruct (JS.has _ _); simpl; [exact Hr|].
  apply Forall_app. split; [exact Hr|]. constructor; [|constructor].
  exists (cycle_span g (canonicalCycle (path st))). simpl. split.
  - unfold cycle_span. destruct (fold_left _ _ _) as [lo hi]. apply span_of_nonneg.
  - unfold JS.sort_strings. now rewrite sort_length.
Qed.

Lemma dfs_priced : forall fuel u depth st,
  Forall priced (rings st) ->
  Forall priced (rings (dfs fuel g idx start startIdx u depth st)).
Proof.
  induction fuel as [|fuel IH]; intros u depth st Hr; cbn [dfs]; [exact Hr|].
  destruct (Nat.ltb 5 depth); [exact Hr|].
  destruct (JS.get (outNeighbors g) u) as [nbrs|]; [|exact Hr].
  apply (fold_left_inv (fun s => Forall priced (rings s))); [|exact Hr].
  intros a v _ Ha. cbv beta.
  destruct (JS.get idx v); [|exact Ha].
  destruct (Nat.ltb n startIdx); [exact Ha|].
  destruct (String.eqb v start).
  { destruct (_ && _); [|exact Ha]. now apply close_cycle_priced. }
  destruct (JS.has (visited a) v); [exact Ha|].
  cbn [rings]. apply IH. exact Ha.
Qed.

End CycleRisk.

Lemma detectCycles35_priced (g : Graph) :
  Forall Cycles.priced (fst (Cycles.detectCycles35 g)).
Proof.
  unfold Cycles.detectCycles35. simpl.
  apply (fold_left_inv (fun s => Forall Cycles.priced (Cycles.rings s))); [|constructor].
  intros a s _ Ha. unfold Cycles.from_start.
  destruct (JS.get _ s); [|exact Ha]. apply dfs_priced. exact Ha.
Qed.

(** X6. The risk of every emitted cycle ring is the length-based base (89.3
    for 3 members, 87.7 for 4, 85 for 5) plus a tightness bonus of 0, 3, 6 or
    10 for some non-negative span; it lies between 85 and 99.3, so the clamp
    never cuts it. *)
Theorem detectCycles35_risk (g : Graph) (r : RingCandidate) :
  In r (fst (Cycles.detectCycles35 g)) ->
  (exists span, (0 <= span)%Z
      /\ risk_score r = Cycles.cycleRisk (length (member_accounts r)) span)
  /\ (85 <= risk_score r <= 993 # 10)%Q
  /\ (length (member_accounts r) = 3%nat -> (893 # 10 <= risk_score r)%Q)
  /\ (length (member_accounts r) = 4%nat -> (877 # 10 <= risk_score r)%Q).
Proof.
  intros H. pose proof (detectCycles35_priced g) as G.
  rewrite Forall_forall in G. destruct (G r H) as (span & Hs & Hr).
  split; [exists span; auto|]. rewrite Hr. apply cycleRisk_bounds.
Qed.

Lemma detectCycles35_risk_witness :
  let r := mkRing "cycle" ["A"; "B"; "C"]%string (993 # 10)%Q in
  In r (fst (Cycles.detectCycles35 (GraphBuilder.buildGraph Examples.cycle_txs)))
  /\ (85 <= risk_score r <= 993 # 10)%Q.
Proof.
  split; [left; reflexivity|].
  apply (detectCycles35_risk (GraphBuilder.buildGraph Examples.cycle_txs)).
  left. reflexivity.
Defined.

(** ** Canonical rotation *)

Lemma string_compare_refl (x : string) : String.compare x x = Eq.
Proof.
  induction x as [|a x IH]; simpl; [reflexivity|].
  unfold Ascii.compare. now rewrite N.compare_refl.
Qed.

(** X7. [canonicalCycle] returns a rotation of its argument whose ["|"]-joined
    form is not greater than that of any rotation: the lexicographically
    smallest rotation, by which the detector recognises a cycle it has
    already emitted. *)
Theorem canonicalCycle_least_rotation (xs : list string) :
  (exists s, (s = 0 \/ s < length xs)%nat
             /\ Cycles.canonicalCycle xs = skipn s xs ++ firstn s xs)
  /\ forall s, (s < length xs)%nat ->
       String.compare (JS.join "|" (Cycles.canonicalCycle xs))
                      (JS.join "|" (skipn s xs ++ firstn s xs)) <> Gt.
Proof.
  unfold Cycles.canonicalCycle.
  set (rot := fun s => skipn s xs ++ firstn s xs).
  set (step := fun best s =>
                 if String.ltb (JS.join "|" (skipn s xs ++ firstn s xs)) (JS.join "|" best)
                 then skipn s xs ++ firstn s xs else best).
  assert (G : forall ss best,
            (exists s, (s = 0 \/ s < length xs)%nat /\ best = rot s) ->
            (forall s, In s ss -> (s < length xs)%nat) ->
            (exists s, (s = 0 \/ s < length xs)%nat /\ fold_left step ss best = rot s)
            /\ String.compare (JS.join "|" (fold_left step ss best)) (JS.join "|" best) <> Gt
            /\ forall s, In s ss ->
                 String.compare (JS.join "|" (fold_left step ss best))
                                (JS.join "|" (rot s)) <> Gt).
  { induction ss as [|s ss IH]; intros best Hb Hss; simpl.
    - split; [exact Hb|]. split; [rewrite string_compare_refl; discriminate|tauto].
    - assert (Hs : (s < length xs)%nat) by (apply Hss; now left).
      assert (Hstep : (exists s', (s' = 0 \/ s' < length xs)%nat /\ step best s = rot s')
                      /\ String.compare (JS.join "|" (step best s)) (JS.join "|" best) <> Gt
                      /\ String.compare (JS.join "|" (step best s)) (JS.join "|" (rot s)) <> Gt).
      { unfold step. fold (rot s). unfold String.ltb.
        destruct (String.compare (JS.join "|" (rot s)) (JS.join "|" best)) eqn:E.
        - split; [exact Hb|]. split; [rewrite string_compare_refl; discriminate|].
          apply String.compare_eq_iff in E. rewrite E, string_compare_refl. discriminate.
        - split; [exists s; auto|]. split; [congruence|].
          rewrite string_compare_refl. discriminate.
        - split; [exact Hb|]. split; [rewrite string_compare_refl; discriminate|].
          rewrite String.compare_antisym, E. discriminate. }
      destruct Hstep as (H1 & H2 & H3).
      destruct (IH (step best s) H1 (fun s' Hs' => Hss s' (or_intror Hs')))
        as (I1 & I2 & I3).
      split; [exact I1|]. split; [eapply string_compare_trans; eauto|].
      intros s' [<-|Hs']; [eapply string_compare_trans; eauto|auto]. }
  destruct (G (seq 1 (length xs - 1)) xs) as (G1 & G2 & G3).
  - exists 0%nat. split; [now left|]. unfold rot. simpl. now rewrite app_nil_r.
  - intros s Hs. apply in_seq in Hs. lia.
  - split; [exact G1|]. intros s Hs. destruct s as [|s].
    + replace (skipn 0 xs ++ firstn 0 xs) with xs by (simpl; now rewrite app_nil_r).
      exact G2.
    + apply G3. apply in_seq. lia.
Qed.

Lemma canonicalCycle_least_rotation_witness :
  String.compare (JS.join "|" (Cycles.canonicalCycle ["C"; "A"; "B"]%string))
                 (JS.join "|" (skipn 2 ["C"; "A"; "B"]%string
                               ++ firstn 2 ["C"; "A"; "B"]%string))
  <> Gt.
Proof.
  apply (proj2 (canonicalCycle_least_rotation ["C"; "A"; "B"]%string) 2%nat).
  simpl. lia.
Defined.

(** ** Shell-chain detector: shape of the chains and the per-start cap *)

Section ShellShape.
Import ShellChains.
Variables (g : Graph) (low : JS.JsSet).

Lemma walk_edges_has_tx (edges : list (string * string)) : forall w w',
  walk_edges g edges w = Some w' ->
  Forall (fun e => exists x arr,
            JS.get (edgeTx g) (edgeKey (fst e) (snd e)) = Some (x :: arr)) edges.
Proof.
  induction edges as [|[a b] edges IH]; intros w w' H; [constructor|].
  cbn [walk_edges] in H.
  destruct (JS.get (edgeTx g) (edgeKey a b)) as [[|x arr]|] eqn:Eg; try discriminate.
  destruct (match prevEdgeT w with Some _ => _ | None => false end); [discriminate|].
  destruct (match prevAmt w with Some _ => _ | None => false end); [discriminate|].
  constructor; [simpl; eauto|]. eapply IH; eauto.
Qed.

Lemma try_emit_frame nextDepth st :
  path (try_emit g low nextDepth st) = path st
  /\ visited (try_emit g low nextDepth st) = visited st.
Proof.
  unfold try_emit. destruct (shell_like _ _ _); [|auto].
  destruct (walk_edges _ _ _); [|auto]. destruct (JS.has _ _); auto.
Qed.

Lemma try_emit_well_formed nextDepth st :
  (4 <= length (path st) <= 8)%nat -> NoDup (path st) -> is_walk g (path st) ->
  Forall (well_formed g) (rings st) ->
  Forall (well_formed g) (rings (try_emit g low nextDepth st)).
Proof.
  intros Hl Hnd Hw Hr. unfold try_emit. destruct (shell_like _ _ _); [|exact Hr].
  destruct (walk_edges _ _ _) as [w|] eqn:Ew; [|exact Hr].
  destruct (JS.has _ _); [exact Hr|]. simpl.
  apply Forall_app. split; [exact Hr|]. constructor; [|constructor].
  unfold well_formed. simpl. repeat split; auto; try lia.
  eapply walk_edges_has_tx; eauto.
Qed.

Lemma try_emit_count nextDepth st :
  (found st < MAX_PATHS_PER_START)%nat ->
  (found (try_emit g low nextDepth st) <= MAX_PATHS_PER_START)%nat
  /\ (found st <= found (try_emit g low nextDepth st))%nat
  /\ (length (rings (try_emit g low nextDepth st)) + found st
      = length (rings st) + found (try_emit g low nextDepth st))%nat.
Proof.
  intros H. unfold try_emit. destruct (shell_like _ _ _); [|lia].
  destruct (walk_edges _ _ _); [|lia]. destruct (JS.has _ _); [lia|].
  simpl. rewrite length_app. simpl. lia.
Qed.

Lemma shell_dfs_frame : forall fuel u depthEdges st,
  path (dfs fuel g low u depthEdges st) = path st
  /\ visited (dfs fuel g low u depthEdges st) = visited st.
Proof.
  induction fuel as [|fuel IH]; intros u d st; cbn [dfs]; [auto|].
  destruct (Nat.leb _ _); [auto|]. destruct (Nat.ltb _ _); [auto|].
  destruct (JS.get _ _) as [nbrs|]; [|auto].
  apply (fold_left_inv (fun s => path s = path st /\ visited s = visited st)); [|auto].
  intros a v _ [Hp Hv]. cbv beta.
  destruct (Nat.leb _ _); [auto|].
  destruct (JS.has (visited a) v) eqn:Ev; [auto|].
  destruct (_ && _); [auto|].
  match goal with
  | |- context [dfs fuel g low v ?d' ?s'] =>
      destruct (IH v d' s') as [E1 E2];
      assert (F : path s' = path a ++ [v] /\ visited s' = JS.add (visited a) v)
        by (destruct (Nat.leb 3 _); [apply try_emit_frame|auto])
  end.
  destruct F as [F1 F2]. cbn [path visited]. rewrite E1, E2, F1, F2.
  rewrite removelast_last, delete_add by exact Ev. auto.
Qed.

Lemma shell_dfs_well_formed : forall fuel u depthEdges st s0 rest,
  path st = s0 :: rest -> last (path st) ""%string = u ->
  length (path st) = (depthEdges + 1)%nat ->
  NoDup (path st) -> (forall x, In x (path st) -> In x (visited st)) ->
  is_walk g (path st) ->
  Forall (well_formed g) (rings st) ->
  Forall (well_formed g) (rings (dfs fuel g low u depthEdges st)).
Proof.
  induction fuel as [|fuel IH]; intros u d st s0 rest Hp Hl Hlen Hnd Hsub Hw Hr;
    cbn [dfs]; [exact Hr|].
  destruct (Nat.leb _ _); [exact Hr|].
  destruct (Nat.ltb MAX_DEPTH d) eqn:Ed; [exact Hr|].
  apply Nat.ltb_ge in Ed. unfold MAX_DEPTH in Ed.
  destruct (JS.get (outNeighbors g) u) as [nbrs|] eqn:En; [|exact Hr].
  match goal with
  | |- Forall _ (rings (fold_left ?f ?l ?a)) =>
      enough (G : (path (fold_left f l a) = path st
                   /\ visited (fold_left f l a) = visited st)
                  /\ Forall (well_formed g) (rings (fold_left f l a))) by apply G;
      apply (fold_left_inv
               (fun s => (path s = path st /\ visited s = visited st)
                         /\ Forall (well_formed g) (rings s))); [|auto]
  end.
  intros a v Hv [[Hpa Hva] Ha]. cbv beta.
  assert (Hedge : has_edge g (last (path st) ""%string) v).
  { unfold has_edge. rewrite Hl, En. exact Hv. }
  destruct (Nat.leb _ _); [auto|].
  destruct (JS.has (visited a) v) eqn:Ev; [auto|].
  destruct (_ && _); [auto|].
  set (st1 := mkSt (path a ++ [v]) (JS.add (visited a) v) (seen a) (rings a)
                   (evidenceByAccount a) (found a)).
  set (st2 := if Nat.leb 3 (d + 1) then try_emit g low (d + 1)%nat st1 else st1).
  assert (Hnd1 : NoDup (path a ++ [v])).
  { rewrite Hpa. apply NoDup_app; auto.
    - repeat constructor. simpl. tauto.
    - intros x Hx [<-|[]]. apply has_false_iff in Ev. apply Ev.
      rewrite Hva. now apply Hsub. }
  assert (Hw1 : is_walk g (path a ++ [v])).
  { rewrite Hpa, Hp. apply (is_walk_snoc g rest s0 v ""%string); now rewrite <- Hp. }
  assert (F : (path st2 = path a ++ [v] /\ visited st2 = JS.add (visited a) v)
              /\ Forall (well_formed g) (rings st2)).
  { subst st2. destruct (Nat.leb 3 (d + 1)) eqn:E3.
    - split; [apply (try_emit_frame (d + 1) st1)|].
      apply Nat.leb_le in E3.
      apply try_emit_well_formed; subst st1; cbn [path rings]; auto.
      rewrite length_app, Hpa, Hlen. simpl. lia.
    - subst st1. cbn [path visited rings]. auto. }
  destruct F as [[F1 F2] F3].
  destruct (shell_dfs_frame fuel v (d + 1)%nat st2) as [E1 E2].
  cbn [path visited rings]. rewrite E1, E2, F1, F2.
  rewrite removelast_last, delete_add by exact Ev.
  split; [auto|]. apply (IH v (d + 1)%nat st2 s0 (rest ++ [v])); auto.
  - rewrite F1, Hpa, Hp. reflexivity.
  - rewrite F1. apply last_last.
  - rewrite F1, length_app, Hpa, Hlen. simpl. lia.
  - now rewrite F1.
  - rewrite F1, F2. intros x Hx. apply add_In. apply in_app_iff in Hx.
    destruct Hx as [Hx|[<-|[]]]; [left|now right].
    rewrite Hva. apply Hsub. now rewrite <- Hpa.
  - now rewrite F1.
Qed.

Lemma shell_dfs_count : forall fuel u depthEdges st,
  (found st <= MAX_PATHS_PER_START)%nat ->
  (found (dfs fuel g low u depthEdges st) <= MAX_PATHS_PER_START)%nat
  /\ (found st <= found (dfs fuel g low u depthEdges st))%nat
  /\ (length (rings (dfs fuel g low u depthEdges st)) + found st
      = length (rings st) + found (dfs fuel g low u depthEdges st))%nat.
Proof.
  induction fuel as [|fuel IH]; intros u d st H; cbn [dfs]; [lia|].
  destruct (Nat.leb _ _); [lia|]. destruct (Nat.ltb _ _); [lia|].
  destruct (JS.get _ _) as [nbrs|]; [|lia].
  apply (fold_left_inv
           (fun s => (found s <= MAX_PATHS_PER_START)%nat
                     /\ (found st <= found s)%nat
                     /\ (length (rings s) + found st = length (rings st) + found s)%nat));
    [|lia].
  intros a v _ (H1 & H2 & H3). cbv beta.
  destruct (Nat.leb MAX_PATHS_PER_START (found a)) eqn:Ef; [lia|].
  apply Nat.leb_gt in Ef.
  destruct (JS.has (visited a) v); [lia|]. destruct (_ && _); [lia|].
  set (st1 := mkSt (path a ++ [v]) (JS.add (visited a) v) (seen a) (rings a)
                   (evidenceByAccount a) (found a)).
  set (st2 := if Nat.leb 3 (d + 1) then try_emit g low (d + 1)%nat st1 else st1).
  assert (F : (found st2 <= MAX_PATHS_PER_START)%nat
              /\ (found a <= found st2)%nat
              /\ (length (rings st2) + found a = length (rings a) + found st2)%nat).
  { subst st2. destruct (Nat.leb 3 (d + 1)).
    - apply (try_emit_count (d + 1) st1). exact Ef.
    - subst st1. cbn [found rings]. lia. }
  destruct F as (F1 & F2 & F3).
  destruct (IH v (d + 1)%nat st2 F1) as (I1 & I2 & I3).
  cbn [found rings]. lia.
Qed.

End ShellShape.

Lemma low_set_In (g : Graph) (n : string) :
  In n (ShellChains.low_set g)
  <-> exists d, In (n, d) (degreeTotal g) /\ (2 <= d <= 3)%nat.
Proof.
  unfold ShellChains.low_set.
  assert (G : forall l acc,
            In n (fold_left
                    (fun low kv => if Nat.leb 2 (snd kv) && Nat.leb (snd kv) 3
                                   then JS.add low (fst kv) else low) l acc)
            <-> In n acc \/ exists d, In (n, d) l /\ (2 <= d <= 3)%nat).
  { induction l as [|[k d] l IH]; intros acc; cbn [fold_left fst snd].
    - split; [auto|]. intros [H|(d & [] & _)]. exact H.
    - rewrite IH. clear IH. cbn [In].
      destruct (Nat.leb 2 d && Nat.leb d 3) eqn:E.
      + apply andb_true_iff in E. destruct E as [E1 E2]. apply Nat.leb_le in E1, E2.
        rewrite add_In. split.
        * intros [[H| ->]|(d' & H1 & H2)]; eauto 6.
        * intros [H|(d' & [E|H1] & H2)]; eauto 6. inversion E; subst. auto.
      + split.
        * intros [H|(d' & H1 & H2)]; eauto 6.
        * intros [H|(d' & [E'|H1] & H2)]; eauto 6. inversion E'; subst.
          exfalso. apply andb_false_iff in E.
          destruct E as [E|E]; apply Nat.leb_gt in E; lia. }
  rewrite G. simpl. tauto.
Qed.

Lemma detectShellChains_well_formed (g : Graph) :
  Forall (ShellChains.well_formed g) (fst (ShellChains.detectShellChains g)).
Proof.
  unfold ShellChains.detectShellChains. simpl.
  apply (fold_left_inv
           (fun s => Forall (ShellChains.well_formed g) (ShellChains.rings s)));
    [|constructor].
  intros a s _ Ha. unfold ShellChains.from_start.
  apply (shell_dfs_well_formed g _ 8 s 0%nat _ s []); simpl; auto.
  all: try (intros x [<-|[]]; now left).
  all: try (unfold is_walk; simpl; constructor).
  all: try (repeat constructor; simpl; tauto).
Qed.

Lemma nth_intermediates (p : list string) (i : nat) :
  (1 <= i <= length p - 2)%nat ->
  In (nth i p ""%string) (ShellChains.intermediates p).
Proof.
  intros Hi. unfold ShellChains.intermediates.
  destruct p as [|x q]; simpl in *; [lia|].
  destruct i as [|j]; [lia|]. simpl.
  rewrite removelast_firstn_len.
  replace (nth j q ""%string)
    with (nth j (firstn (pred (length q)) q) ""%string).
  - apply nth_In. rewrite length_firstn. lia.
  - rewrite nth_firstn.
    assert (E : Nat.ltb j (pred (length q)) = true) by (apply Nat.ltb_lt; lia).
    now rewrite E.
Qed.

(** C3 (amended). The guard of the search filters the first hop only; what
    the detector requires of the later nodes it requires at acceptance:
    in every emitted chain, of at least 4 nodes, the node appended at
    edge-depth [i] is in the low-activity set (total degree 2 or 3) and has
    exactly one in-neighbour and one out-neighbour for every [i] from 1 to
    the last but one; the node appended last is not constrained. *)
Theorem shell_chain_low_intermediates (g : Graph) (r : RingCandidate) :
  In r (fst (ShellChains.detectShellChains g)) ->
  (4 <= length (member_accounts r))%nat
  /\ forall i,
       (1 <= i <= length (member_accounts r) - 2)%nat ->
       In (nth i (member_accounts r) ""%string) (ShellChains.low_set g)
       /\ (exists d, In (nth i (member_accounts r) ""%string, d) (degreeTotal g)
                     /\ (2 <= d <= 3)%nat)
       /\ ShellChains.degree_in (inNeighbors g) (nth i (member_accounts r) ""%string)
          = 1%nat
       /\ ShellChains.degree_in (outNeighbors g) (nth i (member_accounts r) ""%string)
          = 1%nat.
Proof.
  intros H.
  pose proof (detectShellChains_accepted g) as Ga. rewrite Forall_forall in Ga.
  destruct (Ga r H) as [_ Hs].
  pose proof (detectShellChains_well_formed g) as Gw. rewrite Forall_forall in Gw.
  destruct (Gw r H) as (Hl & _).
  split; [lia|]. intros i Hi.
  apply nth_intermediates in Hi.
  unfold ShellChains.shell_like in Hs. rewrite forallb_forall in Hs.
  specialize (Hs _ Hi).
  apply andb_true_iff in Hs. destruct Hs as [Hs H3].
  apply andb_true_iff in Hs. destruct Hs as [H1 H2].
  apply Nat.eqb_eq in H2, H3. apply has_true_iff in H1.
  split; [exact H1|]. split; [now apply low_set_In|]. auto.
Qed.

Lemma shell_chain_low_intermediates_witness :
  let g := GraphBuilder.buildGraph Examples.chain_txs in
  let r := mkRing "layered_shell" ["a"; "b"; "c"; "d"]%string (880 # 10)%Q in
  In r (fst (ShellChains.detectShellChains g))
  /\ In "b"%string (ShellChains.low_set g)
  /\ In "c"%string (ShellChains.low_set g)
  /\ ~ In "d"%string (ShellChains.low_set g).
Proof.
  cbv zeta.
  assert (Hin : In (mkRing "layered_shell" ["a"; "b"; "c"; "d"]%string (880 # 10)%Q)
                   (fst (ShellChains.detectShellChains
                           (GraphBuilder.buildGraph Examples.chain_txs))))
    by (left; reflexivity).
  destruct (shell_chain_low_intermediates _ _ Hin) as [_ Hlow].
  split; [exact Hin|]. split; [|split].
  - apply (Hlow 1%nat). simpl. lia.
  - apply (Hlow 2%nat). simpl. lia.
  - vm_compute. intros [E|[E|[]]]; discriminate E.
Defined.

(** X8. Every chain emitted by the shell detector has pattern
    [layered_shell] and between 4 and 8 pairwise-distinct members (3 to 7
    hops: the depth test comes after the extension, so a seventh hop is still
    accepted); consecutive members are joined by an out-edge that carries at
    least one transaction; and every intermediate member has total degree 2
    or 3, exactly one in-neighbour and exactly one out-neighbour. *)
Theorem detectShellChains_shape (g : Graph) (r : RingCandidate) :
  In r (fst (ShellChains.detectShellChains g)) ->
  pattern_type r = "layered_shell"%string
  /\ (4 <= length (member_accounts r) <= 8)%nat
  /\ NoDup (member_accounts r)
  /\ is_walk g (member_accounts r)
  /\ (forall a b, In (a, b) (ShellChains.path_edges (member_accounts r)) ->
        exists x arr, JS.get (edgeTx g) (edgeKey a b) = Some (x :: arr))
  /\ (forall node, In node (ShellChains.intermediates (member_accounts r)) ->
        (exists d, In (node, d) (degreeTotal g) /\ (2 <= d <= 3)%nat)
        /\ ShellChains.degree_in (inNeighbors g) node = 1%nat
        /\ ShellChains.degree_in (outNeighbors g) node = 1%nat).
Proof.
  intros H.
  pose proof (detectShellChains_accepted g) as Ga. rewrite Forall_forall in Ga.
  destruct (Ga r H) as [Hp Hs].
  pose proof (detectShellChains_well_formed g) as Gw.
  rewrite Forall_forall in Gw. destruct (Gw r H) as (Hl & Hnd & Hw & Htx).
  split; [exact Hp|]. split; [exact Hl|]. split; [exact Hnd|]. split; [exact Hw|].
  split.
  - intros a b Hab. rewrite Forall_forall in Htx. exact (Htx (a, b) Hab).
  - intros node Hn. unfold ShellChains.shell_like in Hs.
    rewrite forallb_forall in Hs. specialize (Hs node Hn).
    apply andb_true_iff in Hs. destruct Hs as [Hs H3].
    apply andb_true_iff in Hs. destruct Hs as [H1 H2].
    apply Nat.eqb_eq in H2, H3. apply has_true_iff, low_set_In in H1. auto.
Qed.

Lemma detectShellChains_shape_witness :
  let g := GraphBuilder.buildGraph Examples.chain_txs in
  let r := mkRing "layered_shell" ["a"; "b"; "c"; "d"]%string (880 # 10)%Q in
  In r (fst (ShellChains.detectShellChains g))
  /\ NoDup (member_accounts r) /\ is_walk g (member_accounts r).
Proof.
  cbv zeta. split; [left; reflexivity|].
  destruct (detectShellChains_shape (GraphBuilder.buildGraph Examples.chain_txs)
              (mkRing "layered_shell" ["a"; "b"; "c"; "d"]%string (880 # 10)%Q))
    as (_ & _ & Hnd & Hw & _); [left; reflexivity|].
  split; [exact Hnd|exact Hw].
Defined.

Lemma shell_from_start_count (g : Graph) (low : JS.JsSet)
    (acc : ShellChains.St) (start : string) :
  (length (ShellChains.rings (ShellChains.from_start g low acc start))
   <= length (ShellChains.rings acc) + 25)%nat.
Proof.
  unfold ShellChains.from_start.
  destruct (shell_dfs_count g low 8 start 0%nat
              (ShellChains.mkSt [start] (JS.of_list [start]) (ShellChains.seen acc)
                 (ShellChains.rings acc) (ShellChains.evidenceByAccount acc) 0))
    as (H1 & H2 & H3).
  - apply Nat.le_0_l.
  - unfold ShellChains.MAX_PATHS_PER_START in H1.
    rewrite Nat.add_0_r in H3. rewrite H3.
    apply Nat.add_le_mono_l. exact H1.
Qed.

Lemma fold_count_bound {S B} (size : S -> nat) (f : S -> B -> S) (c : nat) :
  (forall acc s, (size (f acc s) <= size acc + c)%nat) ->
  forall (l : list B) acc, (size (fold_left f l acc) <= size acc + c * length l)%nat.
Proof.
  intros Hf. induction l as [|s l IH]; intros acc; simpl; [lia|].
  specialize (IH (f acc s)). specialize (Hf acc s). nia.
Qed.

Lemma shell_fold_count (g : Graph) (low : JS.JsSet) (starts : list string) :
  forall acc,
    (length (ShellChains.rings (fold_left (ShellChains.from_start g low) starts acc))
     <= length (ShellChains.rings acc) + 25 * length starts)%nat.
Proof.
  apply (fold_count_bound (fun st => length (ShellChains.rings st))
                          (ShellChains.from_start g low) 25).
  intros acc s. apply shell_from_start_count.
Qed.

(** X9. The shell detector emits at most 25 chains per start node, hence at
    most 25 times the number of nodes in all. *)
Theorem detectShellChains_cap (g : Graph) :
  (forall acc start,
     (length (ShellChains.rings
                (ShellChains.from_start g (ShellChains.low_set g) acc start))
      <= length (ShellChains.rings acc) + 25)%nat)
  /\ (length (fst (ShellChains.detectShellChains g)) <= 25 * length (nodes g))%nat.
Proof.
  split; [intros acc start; apply shell_from_start_count|].
  unfold ShellChains.detectShellChains. cbv zeta. cbn [fst].
  eapply Nat.le_trans; [apply shell_fold_count|].
  cbn [ShellChains.rings length]. unfold JS.sort_strings. rewrite sort_length.
  apply Nat.le_refl.
Qed.

(** ** Smurfing detector: the sliding window *)

Section RemoveFacts.
Context {V : Type}.
Implicit Types (m : JS.JsMap V) (k : string).

Lemma get_remove_same m k : JS.get (Smurfing.remove m k) k = None.
Proof.
  unfold Smurfing.remove. induction m as [|[k' v] m IH]; simpl; [reflexivity|].
  destruct (String.eqb_spec k k') as [->|N]; simpl; [exact IH|].
  destruct (String.eqb_spec k k'); [contradiction|exact IH].
Qed.

Lemma get_remove_other m k k' :
  k' <> k -> JS.get (Smurfing.remove m k) k' = JS.get m k'.
Proof.
  intros N. unfold Smurfing.remove. induction m as [|[k0 v] m IH]; simpl; [reflexivity|].
  destruct (String.eqb_spec k k0) as [->|N0]; simpl.
  - destruct (String.eqb_spec k' k0); [contradiction|exact IH].
  - destruct (String.eqb_spec k' k0); [reflexivity|exact IH].
Qed.

Lemma keys_remove_NoDup m k : NoDup (JS.keys m) -> NoDup (JS.keys (Smurfing.remove m k)).
Proof.
  unfold Smurfing.remove, JS.keys.
  induction m as [|[k0 v] m IH]; simpl; intros H; [constructor|].
  inversion H as [|? ? Hk Hnd]; subst.
  destruct (String.eqb k k0); simpl; [auto|].
  constructor; [|auto]. intros Hin. apply Hk.
  apply in_map_iff in Hin. destruct Hin as (kv & E & Hf).
  apply filter_In in Hf. rewrite <- E. apply in_map. tauto.
Qed.

End RemoveFacts.

Section WindowFacts.
Import Smurfing.
Variable getCounterparty : Tx -> string.

Lemma count_occ_snoc (xs : list string) (x k : string) :
  count_occ string_dec (xs ++ [x]) k
  = (count_occ string_dec xs k + if String.eqb x k then 1 else 0)%nat.
Proof.
  rewrite count_occ_app. simpl.
  destruct (string_dec x k) as [->|N]; [now rewrite String.eqb_refl|].
  destruct (String.eqb_spec x k); [contradiction|reflexivity].
Qed.

(** Adding the entry [x] to the window. *)
Lemma scan_inv_add (done : list Tx) (sc : Scan) (x : Tx) :
  scan_inv getCounterparty done sc ->
  scan_inv getCounterparty (done ++ [x])
    (mkScan (s_l sc) (s_win sc ++ [x])
       (JS.set (s_counts sc) (getCounterparty x)
          (match JS.get (s_counts sc) (getCounterparty x) with
           | Some c => c | None => 0 end + 1)%Z)
       (s_best sc)).
Proof.
  intros ((pre & Hd & Hl) & Hnd & Hc). unfold scan_inv. cbn [s_l s_win s_counts].
  split; [exists pre; split; [rewrite Hd; now rewrite app_assoc|exact Hl]|].
  split; [now apply keys_set_NoDup|].
  intros k. cbv zeta. rewrite map_app. cbn [map]. rewrite count_occ_snoc.
  destruct (String.eqb_spec (getCounterparty x) k) as [E|N].
  - subst k. rewrite get_set_same, Hc. cbv zeta.
    generalize (count_occ string_dec (map getCounterparty (s_win sc))
                          (getCounterparty x)).
    intros n. destruct (Z.eqb_spec (Z.of_nat n) 0);
      destruct (Z.eqb_spec (Z.of_nat (n + 1)) 0); try lia; f_equal; lia.
  - assert (N' : k <> getCounterparty x) by congruence.
    rewrite (get_set_other _ _ _ _ N'), Hc, Nat.add_0_r. reflexivity.
Qed.

(** The shrinking loop keeps the invariant, leaves a non-empty window that
    still ends with [x], and stops with the head within [WINDOW_SEC] of [x]. *)
Lemma shrink_inv (x : Tx) (best : option WindowHit) :
  forall win done l counts,
    scan_inv getCounterparty done (mkScan l (win ++ [x]) counts best) ->
    let '(l', win', counts') := shrink getCounterparty (t x) l (win ++ [x]) counts in
    scan_inv getCounterparty done (mkScan l' win' counts' best)
    /\ (exists w, win' = w ++ [x])
    /\ (t x - first_t win' <= WINDOW_SEC)%Z.
Proof.
  induction win as [|y win IH]; intros done l counts Hinv.
  - simpl. rewrite Z.sub_diag. simpl. split; [exact Hinv|].
    split; [exists []; reflexivity|]. rewrite Z.sub_diag. unfold WINDOW_SEC. lia.
  - cbn [app shrink]. destruct (Z.gtb (t x - t y) WINDOW_SEC) eqn:Eg.
    + apply IH. destruct Hinv as ((pre & Hd & Hl) & Hnd & Hc).
      cbn [s_l s_win s_counts] in *. unfold scan_inv. cbn [s_l s_win s_counts].
      split; [exists (pre ++ [y]); split;
              [rewrite Hd, <- app_assoc; reflexivity|rewrite length_app; simpl; lia]|].
      pose proof (Hc (getCounterparty y)) as Hy. cbv zeta in Hy.
      simpl in Hy. destruct (string_dec (getCounterparty y) (getCounterparty y));
        [|contradiction].
      set (c0 := count_occ string_dec (map getCounterparty (win ++ [x]))
                           (getCounterparty y)) in *.
      destruct (Z.eqb_spec (Z.of_nat (S c0)) 0) as [|_]; [lia|].
      rewrite Hy.
      assert (Hv : (Z.of_nat (S c0) - 1 = Z.of_nat c0)%Z) by lia. rewrite Hv.
      destruct (Z.leb_spec (Z.of_nat c0) 0) as [Hle|Hgt].
      * split; [now apply keys_remove_NoDup|]. intros k. cbv zeta.
        destruct (String.eqb_spec k (getCounterparty y)) as [->|N].
        -- rewrite get_remove_same. fold c0.
           destruct (Z.eqb_spec (Z.of_nat c0) 0); [reflexivity|lia].
        -- rewrite (get_remove_other _ _ _ N), Hc. cbv zeta. simpl.
           destruct (string_dec (getCounterparty y) k); [congruence|reflexivity].
      * split; [now apply keys_set_NoDup|]. intros k. cbv zeta.
        destruct (String.eqb_spec k (getCounterparty y)) as [->|N].
        -- rewrite get_set_same. fold c0.
           destruct (Z.eqb_spec (Z.of_nat c0) 0); [lia|reflexivity].
        -- rewrite (get_set_other _ _ _ _ N), Hc. cbv zeta. simpl.
           destruct (string_dec (getCounterparty y) k); [congruence|reflexivity].
    + split; [exact Hinv|]. split; [exists (y :: win); reflexivity|].
      simpl. rewrite Z.gtb_ltb in Eg. apply Z.ltb_ge in Eg. exact Eg.
Qed.

(** Under the invariant, the number of keys of [counts] is the number of
    distinct counterparties of the window. *)
Lemma scan_inv_uniq (done : list Tx) (sc : Scan) :
  scan_inv getCounterparty done sc ->
  length (s_counts sc) = JS.size (JS.of_list (map getCounterparty (s_win sc))).
Proof.
  intros (_ & Hnd & Hc). unfold JS.size.
  replace (length (s_counts sc)) with (length (JS.keys (s_counts sc)))
    by (unfold JS.keys; apply length_map).
  apply Permutation_length, NoDup_Permutation; [exact Hnd|apply of_list_NoDup|].
  intros k. rewrite of_list_In.
  specialize (Hc k). cbv zeta in Hc.
  pose proof (count_occ_In string_dec (map getCounterparty (s_win sc)) k) as Ho.
  revert Hc Ho.
  generalize (count_occ string_dec (map getCounterparty (s_win sc)) k).
  intros n Hc Ho.
  destruct (JS.get (s_counts sc) k) as [c|] eqn:Eg.
  - split; intros _.
    + apply Ho. destruct (Z.eqb_spec (Z.of_nat n) 0); [discriminate Hc|lia].
    + apply get_Some_In in Eg. change (In (fst (k, c)) (map fst (s_counts sc))).
      now apply in_map.
  - apply get_None_iff in Eg. split; [contradiction|].
    intros Hin. apply Ho in Hin.
    destruct (Z.eqb_spec (Z.of_nat n) 0); [lia|discriminate Hc].
Qed.

End WindowFacts.

Section WindowScan.
Import Smurfing.
Variable getCounterparty : Tx -> string.

Lemma last_t_snoc (w : list Tx) (x : Tx) : last_t (w ++ [x]) = t x.
Proof. unfold last_t. now rewrite last_last. Qed.

Lemma scan_step_inv (list done todo : list Tx) (x : Tx) (sc : Scan) :
  list = done ++ x :: todo ->
  scan_inv getCounterparty done sc ->
  (forall b, s_best sc = Some b -> hit_ok getCounterparty list b) ->
  scan_inv getCounterparty (done ++ [x])
           (scan_step getCounterparty sc (length done, x))
  /\ (forall b, s_best (scan_step getCounterparty sc (length done, x)) = Some b ->
                hit_ok getCounterparty list b).
Proof.
  intros Hlist Hinv Hbest. unfold scan_step.
  pose proof (scan_inv_add getCounterparty done sc x Hinv) as Hadd.
  set (counts1 := JS.set (s_counts sc) (getCounterparty x)
                    (match JS.get (s_counts sc) (getCounterparty x) with
                     | Some c => c | None => 0 end + 1)%Z) in *.
  pose proof (shrink_inv getCounterparty x (s_best sc) (s_win sc) (done ++ [x])
                (s_l sc) counts1 Hadd) as Hs.
  destruct (shrink getCounterparty (t x) (s_l sc) (s_win sc ++ [x]) counts1)
    as [[l' win'] counts'].
  destruct Hs as (Hinv' & (w & Hw) & Hspan).
  pose proof (scan_inv_uniq getCounterparty _ _ Hinv') as Hu. cbn [s_counts s_win] in Hu.
  destruct Hinv' as ((pre & Hd & Hl) & Hnd & Hc). cbn [s_l s_win s_counts] in *.
  split.
  - unfold scan_inv. cbn [s_l s_win s_counts]. split; [exists pre; auto|]. auto.
  - intros b. cbn [s_best].
    destruct (Nat.leb MIN_UNIQUE (length counts')) eqn:Em; [|apply Hbest].
    apply Nat.leb_le in Em.
    match goal with
    | |- (if ?c then _ else _) = _ -> _ => destruct c; [|apply Hbest]
    end.
    intros E. inversion E; subst b. clear E.
    exists pre, win', todo. cbn [l r uniq minT maxT counterparties amounts].
    assert (Hlen : (length done + 1 = length pre + length win')%nat).
    { apply (f_equal (@length Tx)) in Hd. rewrite !length_app in Hd. simpl in Hd. lia. }
    assert (Hne : win' <> []) by (rewrite Hw; now destruct w).
    split; [rewrite Hlist, app_assoc, <- Hd, <- app_assoc; reflexivity|].
    split; [exact Hne|]. split; [exact Hl|]. split; [lia|].
    split; [reflexivity|]. split; [reflexivity|].
    split; [exact Hu|]. split; [exact Em|]. split; [reflexivity|].
    split; [rewrite Hw; symmetry; apply last_t_snoc|].
    exact Hspan.
Qed.

Lemma scan_fold_inv (list : list Tx) : forall todo done sc,
  list = done ++ todo ->
  scan_inv getCounterparty done sc ->
  (forall b, s_best sc = Some b -> hit_ok getCounterparty list b) ->
  forall b,
    s_best (fold_left (scan_step getCounterparty)
                      (combine (seq (length done) (length todo)) todo) sc) = Some b ->
    hit_ok getCounterparty list b.
Proof.
  induction todo as [|x todo IH]; intros done sc Hlist Hinv Hbest b; simpl; [apply Hbest|].
  destruct (scan_step_inv list done todo x sc Hlist Hinv Hbest) as [H1 H2].
  replace (S (length done)) with (length (done ++ [x]))
    by (rewrite length_app; simpl; lia).
  apply IH; auto. rewrite Hlist, <- app_assoc. reflexivity.
Qed.

End WindowScan.

Lemma bestUniqueWindow_hit_ok (getCounterparty : Tx -> string) (list : list Tx)
    (b : Smurfing.WindowHit) :
  Smurfing.bestUniqueWindow getCounterparty list = Some b ->
  Smurfing.hit_ok getCounterparty list b.
Proof.
  unfold Smurfing.bestUniqueWindow. destruct list as [|x list]; [discriminate|].
  apply (scan_fold_inv getCounterparty (x :: list) (x :: list) []); [reflexivity| |].
  - unfold Smurfing.scan_inv. simpl. split; [exists []; auto|].
    split; [constructor|reflexivity].
  - discriminate.
Qed.

(** X10. The sliding-window search returns nothing on an empty list; a hit
    it returns describes a contiguous window [list[l..r]]: its amounts and
    counterparty set are those of the window, [uniq] is the number of
    distinct counterparties and at least 10, and the window's first and last
    timestamps, reported as [minT] and [maxT], are at most 72 hours apart. *)
Theorem bestUniqueWindow_window (getCounterparty : Tx -> string) (list : list Tx) :
  Smurfing.bestUniqueWindow getCounterparty [] = None
  /\ forall b,
       Smurfing.bestUniqueWindow getCounterparty list = Some b ->
       exists pre win post,
         list = pre ++ win ++ post
         /\ win <> []
         /\ Smurfing.l b = length pre
         /\ Smurfing.r b = (length pre + length win - 1)%nat
         /\ Smurfing.amounts b = map amount win
         /\ Smurfing.counterparties b = JS.of_list (map getCounterparty win)
         /\ Smurfing.uniq b = JS.size (Smurfing.counterparties b)
         /\ (10 <= Smurfing.uniq b)%nat
         /\ Smurfing.minT b = first_t win
         /\ Smurfing.maxT b = last_t win
         /\ (Smurfing.maxT b - Smurfing.minT b <= 72 * 3600)%Z.
Proof.
  split; [reflexivity|]. intros b H.
  exact (bestUniqueWindow_hit_ok getCounterparty list b H).
Qed.

Lemma bestUniqueWindow_window_witness :
  exists b,
    Smurfing.bestUniqueWindow sender_id
      (Smurfing.list_of (txIn (GraphBuilder.buildGraph Examples.tie_txs)) "H") = Some b
    /\ (10 <= Smurfing.uniq b)%nat.
Proof.
  destruct (Smurfing.bestUniqueWindow sender_id
              (Smurfing.list_of (txIn (GraphBuilder.buildGraph Examples.tie_txs)) "H"))
    as [b|] eqn:E; [|vm_compute in E; discriminate E].
  exists b. split; [reflexivity|].
  destruct (proj2 (bestUniqueWindow_window sender_id _) b E)
    as (pre & win & post & _ & _ & _ & _ & _ & _ & _ & H & _).
  exact H.
Defined.

Lemma StronglySorted_app_inv {A} (R : A -> A -> Prop) (l1 l2 : list A) :
  StronglySorted R (l1 ++ l2) -> StronglySorted R l1 /\ StronglySorted R l2.
Proof.
  induction l1 as [|a l1 IH]; simpl; intros H; [split; [constructor|exact H]|].
  inversion H as [|? ? Hs Hf]; subst. destruct (IH Hs) as [H1 H2].
  split; [|exact H2]. constructor; [exact H1|].
  apply Forall_app in Hf. tauto.
Qed.

Lemma sorted_window_bounds (pre win post : list Tx) (tx : Tx) :
  StronglySorted (fun a b => (t a <= t b)%Z) (pre ++ win ++ post) ->
  In tx win -> (first_t win <= t tx <= last_t win)%Z.
Proof.
  intros H Hin. apply StronglySorted_app_inv in H. destruct H as [_ H].
  apply StronglySorted_app_inv in H. destruct H as [H _].
  split.
  - destruct win as [|x win]; [contradiction|]. simpl.
    inversion H as [|? ? _ Hf]; subst. destruct Hin as [<-|Hin]; [lia|].
    rewrite Forall_forall in Hf. now apply Hf.
  - unfold last_t. revert tx Hin. induction H as [|x win Hs IH Hf]; intros tx Hin;
      [contradiction|].
    destruct win as [|y win]; [destruct Hin as [<-|[]]; simpl; lia|].
    change (last (x :: y :: win)) with (last (y :: win)).
    destruct Hin as [<-|Hin]; [|now apply IH].
    inversion Hf as [|? ? Hxy _]; subst.
    specialize (IH y (or_introl eq_refl)). lia.
Qed.

(** X11. On a built graph, every ring emitted by the smurfing detector has
    pattern [smurfing] and lists a hub of the graph, then at least 10
    distinct senders (sorted), each paying the hub inside the window, then at
    least 10 distinct receivers (sorted), each paid by the hub inside the
    window, then at most one further account; the window spans at most 72
    hours. *)
Theorem detectSmurfing_size (txs : list Tx) (r : RingCandidate) :
  In r (fst (Smurfing.detectSmurfing (GraphBuilder.buildGraph txs))) ->
  exists hub senders receivers cash minT maxT,
    In hub (nodes (GraphBuilder.buildGraph txs))
    /\ pattern_type r = "smurfing"%string
    /\ member_accounts r
       = [hub] ++ JS.sort_strings senders ++ JS.sort_strings receivers ++ cash
    /\ (length cash <= 1)%nat
    /\ NoDup senders /\ (10 <= length senders)%nat
    /\ NoDup receivers /\ (10 <= length receivers)%nat
    /\ (forall s, In s senders ->
          exists tx, In tx txs /\ sender_id tx = s /\ receiver_id tx = hub
                     /\ (minT <= t tx <= maxT)%Z)
    /\ (forall x, In x receivers ->
          exists tx, In tx txs /\ sender_id tx = hub /\ receiver_id tx = x
                     /\ (minT <= t tx <= maxT)%Z)
    /\ (maxT - minT <= 72 * 3600)%Z.
Proof.
  intros H. apply detectSmurfing_rings in H. destruct H as (hub & h & Hin & Ha & ->).
  pose proof (analyze_hub_gate _ _ _ Ha)
    as (Hh & Hbi & Hbo & Hmin & Hmax & Hspan & _).
  apply bestUniqueWindow_hit_ok in Hbi, Hbo.
  destruct Hbi as (pre1 & win1 & post1 & L1 & _ & _ & _ & _ & C1 & U1 & M1 & T1 & T1' & _).
  destruct Hbo as (pre2 & win2 & post2 & L2 & _ & _ & _ & _ & C2 & U2 & M2 & T2 & T2' & _).
  destruct (buildGraph_lists_eq txs hub) as (Ei & Eo & _).
  exists hub, (Smurfing.counterparties (Smurfing.bestIn h)),
    (Smurfing.counterparties (Smurfing.bestOut h)),
    (match Smurfing.cashout h with
     | Some c =>
         if Smurfing.truthy (Smurfing.cashout h)
            && negb (Smurfing.includes
                       ([hub] ++ JS.sort_strings (Smurfing.counterparties (Smurfing.bestIn h))
                          ++ JS.sort_strings (Smurfing.counterparties (Smurfing.bestOut h)))
                       c)
         then [c] else []
     | None => []
     end),
    (Smurfing.hub_minT h), (Smurfing.hub_maxT h).
  split; [exact Hin|]. split; [reflexivity|]. split.
  { simpl. unfold Smurfing.members_of. rewrite Hh.
    destruct (Smurfing.cashout h) as [c|]; [|now rewrite app_nil_r].
    destruct (_ && _); [|now rewrite app_nil_r].
    simpl. now rewrite <- !app_assoc. }
  split.
  { destruct (Smurfing.cashout h); [destruct (_ && _)|]; simpl; lia. }
  split; [rewrite C1; apply of_list_NoDup|].
  split; [unfold JS.size in U1; rewrite <- U1; exact M1|].
  split; [rewrite C2; apply of_list_NoDup|].
  split; [unfold JS.size in U2; rewrite <- U2; exact M2|].
  split.
  { intros s Hs. rewrite C1 in Hs. apply of_list_In, in_map_iff in Hs.
    destruct Hs as (tx & Es & Hw).
    assert (Hl : In tx (Smurfing.list_of (txIn (GraphBuilder.buildGraph txs)) hub))
      by (rewrite L1; apply in_app_iff; right; apply in_app_iff; now left).
    pose proof Hl as Hl'. rewrite Ei in Hl'. apply sort_In, filter_In in Hl'.
    destruct Hl' as [Htx Hr]. apply String.eqb_eq in Hr.
    exists tx. repeat split; auto.
    - assert (Hb : (first_t win1 <= t tx)%Z).
      { apply (sorted_window_bounds pre1 win1 post1); [|exact Hw].
        rewrite <- L1, Ei. apply sort_by_time_sorted. }
      lia.
    - assert (Hb : (t tx <= last_t win1)%Z).
      { apply (sorted_window_bounds pre1 win1 post1); [|exact Hw].
        rewrite <- L1, Ei. apply sort_by_time_sorted. }
      lia. }
  split.
  { intros x Hx. rewrite C2 in Hx. apply of_list_In, in_map_iff in Hx.
    destruct Hx as (tx & Es & Hw).
    assert (Hl : In tx (Smurfing.list_of (txOut (GraphBuilder.buildGraph txs)) hub))
      by (rewrite L2; apply in_app_iff; right; apply in_app_iff; now left).
    pose proof Hl as Hl'. rewrite Eo in Hl'. apply sort_In, filter_In in Hl'.
    destruct Hl' as [Htx Hr]. apply String.eqb_eq in Hr.
    exists tx. repeat split; auto.
    - assert (Hb : (first_t win2 <= t tx)%Z).
      { apply (sorted_window_bounds pre2 win2 post2); [|exact Hw].
        rewrite <- L2, Eo. apply sort_by_time_sorted. }
      lia.
    - assert (Hb : (t tx <= last_t win2)%Z).
      { apply (sorted_window_bounds pre2 win2 post2); [|exact Hw].
        rewrite <- L2, Eo. apply sort_by_time_sorted. }
      lia. }
  exact Hspan.
Qed.

Lemma detectSmurfing_size_witness :
  exists r senders,
    In r (fst (Smurfing.detectSmurfing (GraphBuilder.buildGraph Examples.tie_txs)))
    /\ (10 <= length senders)%nat
    /\ exists rest, member_accounts r = ["H"%string] ++ JS.sort_strings senders ++ rest.
Proof.
  destruct (fst (Smurfing.detectSmurfing (GraphBuilder.buildGraph Examples.tie_txs)))
    as [|r rest] eqn:E; [vm_compute in E; discriminate E|].
  assert (Hin : In r (fst (Smurfing.detectSmurfing
                             (GraphBuilder.buildGraph Examples.tie_txs))))
    by (rewrite E; now left).
  destruct (detectSmurfing_size Examples.tie_txs r Hin)
    as (hub & senders & receivers & cash & lo & hi & _ & _ & Hm & _ & _ & Hs & _).
  assert (Hh : hd_error (member_accounts r) = Some "H"%string)
    by (vm_compute in E; inversion E; reflexivity).
  rewrite Hm in Hh. simpl in Hh. inversion Hh; subst hub.
  exists r, senders. split; [left; reflexivity|]. split; [exact Hs|].
  eexists. exact Hm.
Defined.

(** ** Scorer: the jitter *)

Lemma fnv1a_range (s : string) : (0 <= Score.fnv1a s < 2 ^ 32)%Z.
Proof.
  unfold Score.fnv1a.
  apply (fold_left_inv (fun h => (0 <= h < 2 ^ 32)%Z)).
  - intros h c _ _. apply Z.mod_pos_bound. reflexivity.
  - split; [discriminate|reflexivity].
Qed.

(** X12. [stableJitter01] lies in [[0, 1)], as its comment says, so the jitter
    term [(stableJitter01(..) - 0.5) * 0.8] of the scorer lies in
    [[-0.4, 0.4)]. *)
Theorem stableJitter01_range (s : string) :
  (0 <= Score.stableJitter01 s < 1)%Q
  /\ (- (4 # 10) <= (Score.stableJitter01 s - (5 # 10)) * (8 # 10) < 4 # 10)%Q.
Proof.
  pose proof (fnv1a_range s) as H. unfold Score.stableJitter01.
  generalize dependent (Score.fnv1a s). intros h H.
  change (2 ^ 32)%Z with 4294967296%Z in H.
  change (2 ^ 32)%positive with 4294967296%positive.
  unfold Qle, Qlt. cbn. lia.
Qed.

(** ** Ring merger: similarity and coverage *)

Lemma filter_has_NoDup (a b : JS.JsSet) : NoDup a -> NoDup (filter (JS.has b) a).
Proof. apply NoDup_filter. Qed.

Lemma inter_length_sym (a b : JS.JsSet) :
  NoDup a -> NoDup b ->
  length (filter (JS.has b) a) = length (filter (JS.has a) b).
Proof.
  intros Ha Hb. apply Permutation_length. apply NoDup_Permutation.
  - now apply NoDup_filter.
  - now apply NoDup_filter.
  - intros x. rewrite !filter_In, !has_true_iff. tauto.
Qed.

Lemma inter_length_le (a b : JS.JsSet) :
  NoDup a ->
  (length (filter (JS.has b) a) <= length a)%nat
  /\ (length (filter (JS.has b) a) <= length b)%nat.
Proof.
  intros Ha. split; [apply filter_length_le|].
  apply NoDup_incl_length; [now apply NoDup_filter|].
  intros x Hx. apply filter_In in Hx. now apply has_true_iff.
Qed.

Lemma filter_length_all {A} (p : A -> bool) (l : list A) :
  length (filter p l) = length l -> forall x, In x l -> p x = true.
Proof.
  induction l as [|y l IH]; simpl; [tauto|].
  destruct (p y) eqn:E; simpl.
  - intros H x [<-|Hx]; [exact E|]. apply IH; [lia|exact Hx].
  - intros H. pose proof (filter_length_le p l). lia.
Qed.

Lemma filter_all_length {A} (p : A -> bool) (l : list A) :
  (forall x, In x l -> p x = true) -> length (filter p l) = length l.
Proof.
  induction l as [|y l IH]; simpl; [reflexivity|].
  intros H. rewrite (H y) by auto. simpl. f_equal. apply IH. auto.
Qed.

(** X13. On sets (lists without repeats) the Jaccard index lies in [[0, 1]],
    is symmetric, and is 1 exactly when the two sets are equal and not
    empty; two empty sets have index 0. *)
Theorem jaccard_range (a b : JS.JsSet) :
  NoDup a -> NoDup b ->
  (0 <= Merge.jaccard a b <= 1)%Q
  /\ Merge.jaccard a b = Merge.jaccard b a
  /\ ((Merge.jaccard a b == 1)%Q <-> a <> [] /\ forall x, In x a <-> In x b).
Proof.
  intros Ha Hb. unfold Merge.jaccard, JS.size.
  pose proof (inter_length_sym a b Ha Hb) as Hsym.
  destruct (inter_length_le a b Ha) as [Hla Hlb].
  rewrite <- Hsym. rewrite (Nat.add_comm (length b) (length a)).
  split; [|split; [reflexivity|]].
  - destruct (Nat.eqb_spec (length a + length b - length (filter (JS.has b) a)) 0)
      as [E|E]; [split; discriminate|].
    unfold Qle. cbn. lia.
  - destruct (Nat.eqb_spec (length a + length b - length (filter (JS.has b) a)) 0)
      as [E|E].
    + split; [discriminate|]. intros [Hne _]. destruct a as [|s a']; [congruence|]. cbn [length] in *. lia.
    + unfold Qeq. cbn. split.
      * intros H.
        assert (Hi : length (filter (JS.has b) a) = length a
                     /\ length a = length b) by lia.
        destruct Hi as [Hi Hab]. split.
        -- intros ->. simpl in *. lia.
        -- assert (Hinc : incl a b).
           { intros x Hx. apply has_true_iff.
             now apply (filter_length_all _ _ Hi). }
           intros x. split; [apply Hinc|].
           apply (NoDup_length_incl Ha); [lia|exact Hinc].
      * intros [Hne Heq].
        assert (Hi : length (filter (JS.has b) a) = length a).
        { apply filter_all_length. intros x Hx. apply has_true_iff. now apply Heq. }
        assert (Hab : length a = length b).
        { apply Permutation_length. apply NoDup_Permutation; assumption. }
        lia.
Qed.

Lemma jaccard_range_witness :
  NoDup ["x"; "y"]%string /\ NoDup ["y"; "z"]%string
  /\ (0 <= Merge.jaccard ["x"; "y"]%string ["y"; "z"]%string <= 1)%Q.
Proof.
  assert (H1 : NoDup ["x"; "y"]%string).
  { repeat constructor; simpl; intuition discriminate. }
  assert (H2 : NoDup ["y"; "z"]%string).
  { repeat constructor; simpl; intuition discriminate. }
  split; [exact H1|]. split; [exact H2|].
  exact (proj1 (jaccard_range _ _ H1 H2)).
Defined.

Section MergeCoverage.
Import Merge.
Variable J : Q.

Lemma inner_covers base members rest : forall used best i r,
  nth_error rest i = Some r -> nth_error used i = Some false ->
  nth_error (snd (inner J base members rest used best)) i = Some false
  \/ (pattern_type r = pattern_type base
      /\ (risk_score r <= fst (fst (inner J base members rest used best)))%Q).
Proof.
  induction rest as [|r0 rest IH]; intros [|u used] best i r Hr Hu;
    try (destruct i; discriminate).
  simpl. destruct i as [|i]; simpl in Hr, Hu.
  - inversion Hr; inversion Hu; subst. clear Hr Hu.
    destruct (String.eqb_spec (pattern_type r) (pattern_type base)) as [E|E]; simpl.
    + destruct (Qle_bool J _) eqn:EJ.
      * right. split; [exact E|]. fold (upd best r).
        pose proof (inner_fst J base members rest used (upd best r)) as Hf.
        destruct (inner J base members rest used (upd best r)) as [b us]. simpl in *.
        rewrite Hf. eapply Qle_trans; [apply (upd_ge best r)|apply pick_fst_le].
      * left. destruct (inner J base members rest used best). reflexivity.
    + left. destruct (inner J base members rest used best). reflexivity.
  - destruct u.
    + specialize (IH used best i r Hr Hu).
      destruct (inner J base members rest used best). exact IH.
    + destruct (negb (pattern_type r0 =? pattern_type base)%string).
      * specialize (IH used best i r Hr Hu).
        destruct (inner J base members rest used best). exact IH.
      * destruct (Qle_bool J _).
        -- fold (upd best r0). specialize (IH used (upd best r0) i r Hr Hu).
           destruct (inner J base members rest used (upd best r0)). exact IH.
        -- specialize (IH used best i r Hr Hu).
           destruct (inner J base members rest used best). exact IH.
Qed.

Lemma outer_covers rings : forall used i r,
  nth_error rings i = Some r -> nth_error used i = Some false ->
  exists o, In o (outer J rings used)
            /\ pattern_type o = pattern_type r
            /\ (risk_score r <= risk_score o)%Q.
Proof.
  induction rings as [|b rest IH]; intros [|u used] i r Hr Hu;
    try (destruct i; discriminate).
  simpl. destruct i as [|i]; simpl in Hr, Hu.
  - inversion Hr; inversion Hu; subst. clear Hr Hu.
    pose proof (inner_fst J r (JS.of_list (member_accounts r)) rest used
                  (risk_score r, member_accounts r)) as Hf.
    destruct (inner J r (JS.of_list (member_accounts r)) rest used
                (risk_score r, member_accounts r)) as [[bestRisk bestMembers] used''].
    simpl in Hf. eexists. split; [left; reflexivity|]. simpl. split; [reflexivity|].
    replace bestRisk with (fst (bestRisk, bestMembers)) by reflexivity.
    rewrite Hf. apply (pick_fst_le _ (risk_score r, member_accounts r)).
  - destruct u.
    + destruct (IH used i r Hr Hu) as (o & H1 & H2). exists o. tauto.
    + pose proof (inner_covers b (JS.of_list (member_accounts b)) rest used
                    (risk_score b, member_accounts b) i r Hr Hu) as Hc.
      destruct (inner J b (JS.of_list (member_accounts b)) rest used
                  (risk_score b, member_accounts b)) as [[bestRisk bestMembers] used''].
      simpl in Hc. destruct Hc as [Hc|[Hp Hle]].
      * destruct (IH used'' i r Hr Hc) as (o & H1 & H2).
        exists o. split; [right; exact H1|exact H2].
      * eexists. split; [left; reflexivity|]. simpl. split; [congruence|exact Hle].
Qed.

End MergeCoverage.

(** X14. Merging loses no pattern and no risk level: every input ring is
    covered by an output ring of the same pattern type whose risk is at least
    as high. *)
Theorem mergeRings_covers (x : list RingCandidate) (J : Q) (r : RingCandidate) :
  In r x ->
  exists o, In o (Merge.mergeRings x J)
            /\ pattern_type o = pattern_type r
            /\ (risk_score r <= risk_score o)%Q.
Proof.
  intros Hin. apply In_nth_error in Hin. destruct Hin as [i Hi].
  apply (outer_covers J x (repeat false (length x)) i r Hi).
  assert (Hlt : (i < length x)%nat) by (apply nth_error_Some; congruence).
  rewrite nth_error_repeat by exact Hlt. reflexivity.
Qed.

Lemma mergeRings_covers_witness :
  exists o, In o (Merge.mergeRings
                    [mkRing "cycle" ["a"; "b"; "c"] 80%Q;
                     mkRing "cycle" ["a"; "b"; "c"; "d"] 90%Q]%string Merge.J_pipeline)
            /\ pattern_type o = "cycle"%string
            /\ (80 <= risk_score o)%Q.
Proof.
  apply (mergeRings_covers
           [mkRing "cycle" ["a"; "b"; "c"] 80%Q;
            mkRing "cycle" ["a"; "b"; "c"; "d"] 90%Q]%string Merge.J_pipeline
           (mkRing "cycle" ["a"; "b"; "c"]%string 80%Q)).
  left. reflexivity.
Defined.

(** ** Best binding per member *)

Section BestByMember.
Context {I V : Type}.
Variables (members : I -> list string) (val : I -> V) (better : V -> V -> bool)
          (le : V -> V -> Prop).
Hypothesis le_refl : forall v, le v v.
Hypothesis le_trans : forall x y z, le x y -> le y z -> le x z.
Hypothesis better_true : forall p n, better p n = true -> le p n.
Hypothesis better_false : forall p n, better p n = false -> le n p.
Variable a : string.

Lemma best_inv_ext (P P' : I -> Prop) (m : JS.JsMap V) :
  (forall it, P it <-> P' it) -> best_inv val le a P m -> best_inv val le a P' m.
Proof.
  unfold best_inv. intros E. destruct (JS.get m a).
  - intros [(i0 & Hs & Hv) Hmax]. split.
    + exists i0. split; [now apply E|exact Hv].
    + intros i Hi. apply Hmax. now apply E.
  - intros H i Hi. apply (H i). now apply E.
Qed.

Lemma offer_inv (it : I) (Seen : I -> Prop) (x : string) (m : JS.JsMap V) :
  best_inv val le a Seen m ->
  best_inv val le a (fun i => Seen i \/ (i = it /\ x = a))
    (match JS.get m x with
     | Some prev => if better prev (val it) then JS.set m x (val it) else m
     | None => JS.set m x (val it)
     end).
Proof.
  unfold best_inv. intros H.
  destruct (String.eqb_spec x a) as [->|N].
  - destruct (JS.get m a) as [prev|] eqn:E.
    + destruct H as [(i0 & Hs & Hv) Hmax].
      destruct (better prev (val it)) eqn:B.
      * rewrite get_set_same. split.
        -- exists it. split; [right; auto|reflexivity].
        -- intros i [Hi|[-> _]]; [|apply le_refl].
           eapply le_trans; [apply Hmax; exact Hi|].
           apply better_true; exact B.
      * rewrite E. split.
        -- exists i0. split; [left; auto|exact Hv].
        -- intros i [Hi|[-> _]]; [auto|]. apply better_false; exact B.
    + rewrite get_set_same. split.
      * exists it; split; [right; auto|reflexivity].
      * intros i [Hi|[-> _]]; [exfalso; eapply H; eauto|apply le_refl].
  - assert (G : JS.get (match JS.get m x with
                        | Some prev =>
                            if better prev (val it) then JS.set m x (val it) else m
                        | None => JS.set m x (val it)
                        end) a = JS.get m a).
    { destruct (JS.get m x); [destruct (better _ _)|]; try reflexivity;
        apply get_set_other; congruence. }
    rewrite G. destruct (JS.get m a).
    + destruct H as [(i0 & Hs & Hv) Hmax]. split; [exists i0; tauto|].
      intros i [Hi|[_ E]]; [auto|congruence].
    + intros i [Hi|[_ E]]; [eapply H; eauto|congruence].
Qed.

Lemma offers_inv (it : I) (xs : list string) : forall (Seen : I -> Prop) m,
  best_inv val le a Seen m ->
  best_inv val le a (fun i => Seen i \/ (i = it /\ In a xs))
    (fold_left
       (fun m x =>
          match JS.get m x with
          | Some prev => if better prev (val it) then JS.set m x (val it) else m
          | None => JS.set m x (val it)
          end) xs m).
Proof.
  induction xs as [|x xs IH]; intros Seen m H; simpl.
  - eapply best_inv_ext; [|exact H]. intros i; simpl; tauto.
  - eapply best_inv_ext; [|apply IH, (offer_inv it Seen x), H].
    intros i; simpl. tauto.
Qed.

Lemma best_fold_inv (items : list I) : forall (Seen : I -> Prop) m,
  best_inv val le a Seen m ->
  best_inv val le a (fun i => Seen i \/ (In i items /\ In a (members i)))
    (fold_left
       (fun m it =>
          fold_left
            (fun m x =>
               match JS.get m x with
               | Some prev => if better prev (val it) then JS.set m x (val it) else m
               | None => JS.set m x (val it)
               end) (members it) m) items m).
Proof.
  induction items as [|it items IH]; intros Seen m H; simpl.
  - eapply best_inv_ext; [|exact H]. intros i; simpl; tauto.
  - eapply best_inv_ext; [|apply IH, (offers_inv it (members it) Seen), H].
    intros i; simpl. split.
    + intros [[H1|[-> H1]]|H1]; tauto.
    + intros [H1|[[<-|H1] H2]]; tauto.
Qed.

Lemma best_fold_spec (items : list I) :
  best_inv val le a (fun i => In i items /\ In a (members i))
    (fold_left
       (fun m it =>
          fold_left
            (fun m x =>
               match JS.get m x with
               | Some prev => if better prev (val it) then JS.set m x (val it) else m
               | None => JS.set m x (val it)
               end) (members it) m) items []).
Proof.
  eapply best_inv_ext; [|apply (best_fold_inv items (fun _ => False) [])].
  - intros i; simpl; tauto.
  - unfold best_inv. simpl. tauto.
Qed.

End BestByMember.

(** ** Scorer: best ring of an account *)

Lemma bestRingByAccount_inv (rings : list RingCandidate) (acct : string) :
  best_inv (fun r : RingCandidate => r)
           (fun x y => (risk_score x <= risk_score y)%Q) acct
           (fun r => In r rings /\ In acct (member_accounts r))
           (Score.bestRingByAccount rings).
Proof.
  unfold Score.bestRingByAccount.
  apply (best_fold_spec member_accounts (fun r : RingCandidate => r)
           (fun p n => Qlt_bool (risk_score p) (risk_score n))
           (fun x y => (risk_score x <= risk_score y)%Q)).
  - intros v. apply Qle_refl.
  - intros x y z. apply Qle_trans.
  - intros p n H. apply Qlt_bool_true in H. now apply Qlt_le_weak.
  - intros p n H. now apply Qlt_bool_false in H.
Qed.

(** X15. The scorer's best ring of an account: an account that no ring lists
    has none; otherwise it is a ring of the list that contains the account
    and whose risk no ring containing the account exceeds. *)
Theorem bestRingByAccount_spec (rings : list RingCandidate) (acct : string) :
  match JS.get (Score.bestRingByAccount rings) acct with
  | None => forall r, In r rings -> ~ In acct (member_accounts r)
  | Some best =>
      In best rings /\ In acct (member_accounts best)
      /\ forall r, In r rings -> In acct (member_accounts r) ->
                   (risk_score r <= risk_score best)%Q
  end.
Proof.
  pose proof (bestRingByAccount_inv rings acct) as H. unfold best_inv in H.
  destruct (JS.get (Score.bestRingByAccount rings) acct) as [best|].
  - destruct H as [(r & [H1 H2] & <-) Hmax]. split; [exact H1|]. split; [exact H2|].
    intros r' Hr' Ha. apply Hmax. tauto.
  - intros r Hr Ha. apply (H r). tauto.
Qed.

(** ** Output assembler: best ring of a member *)

Lemma ring_pref_trans (x y z : string * Q) :
  Output.ring_pref x y -> Output.ring_pref y z -> Output.ring_pref x z.
Proof.
  unfold Output.ring_pref. intros [H1|[H1 H1']] [H2|[H2 H2']].
  - left. eapply Qlt_trans; eauto.
  - left. rewrite <- H2. exact H1.
  - left. rewrite H1. exact H2.
  - right. split; [rewrite H1; exact H2|].
    eapply string_compare_trans; eauto.
Qed.

Lemma memberToBestRing_inv (frs : list Out.FraudRing) (a : string) :
  best_inv (fun fr => (Out.ring_id fr, Out.risk_score fr)) Output.ring_pref a
           (fun fr => In fr frs /\ In a (Out.member_accounts fr))
           (Output.memberToBestRing frs).
Proof.
  unfold Output.memberToBestRing.
  apply (best_fold_spec Out.member_accounts
           (fun fr => (Out.ring_id fr, Out.risk_score fr))
           (fun prev v => Qlt_bool (snd prev) (snd v)
                          || (Qeq_bool (snd v) (snd prev)
                              && String.ltb (fst v) (fst prev)))
           Output.ring_pref).
  - intros v. right. split; [reflexivity|]. rewrite string_compare_refl. discriminate.
  - apply ring_pref_trans.
  - intros p n H. apply orb_true_iff in H. destruct H as [H|H].
    + left. now apply Qlt_bool_true.
    + apply andb_true_iff in H. destruct H as [H1 H2]. right.
      apply Qeq_bool_iff in H1. split; [symmetry; exact H1|].
      unfold String.ltb in H2. destruct (String.compare (fst n) (fst p)); congruence.
  - intros p n H. apply orb_false_iff in H. destruct H as [H1 H2].
    apply Qlt_bool_false in H1. apply Qle_lt_or_eq in H1.
    destruct H1 as [H1|H1]; [left; exact H1|]. right. split; [exact H1|].
    apply andb_false_iff in H2. destruct H2 as [H2|H2].
    + exfalso. apply Qeq_bool_iff in H1. congruence.
    + unfold String.ltb in H2. rewrite String.compare_antisym.
      destruct (String.compare (fst n) (fst p)); simpl; congruence.
Qed.

(** X16. Step 3 of the assembler binds every account listed by some fraud
    ring, and only those, to the id and risk of a ring that lists it; no ring
    listing the account has a higher risk, and among those of equal risk none
    has a smaller id (in string order). *)
Theorem memberToBestRing_spec (frs : list Out.FraudRing) (a : string) :
  match JS.get (Output.memberToBestRing frs) a with
  | None => forall fr, In fr frs -> ~ In a (Out.member_accounts fr)
  | Some (id, risk) =>
      (exists fr, In fr frs /\ In a (Out.member_accounts fr)
                  /\ Out.ring_id fr = id /\ Out.risk_score fr = risk)
      /\ forall fr, In fr frs -> In a (Out.member_accounts fr) ->
           (Out.risk_score fr < risk)%Q
           \/ ((Out.risk_score fr == risk)%Q
               /\ String.compare id (Out.ring_id fr) <> Gt)
  end.
Proof.
  pose proof (memberToBestRing_inv frs a) as H. unfold best_inv in H.
  destruct (JS.get (Output.memberToBestRing frs) a) as [[id risk]|].
  - destruct H as [(fr & [H1 H2] & E) Hmax]. inversion E; subst. split.
    + exists fr. tauto.
    + intros fr' Hf Ha. apply (Hmax fr'). tauto.
  - intros fr Hf Ha. apply (H fr). tauto.
Qed.

(** ** Scorer: the score update *)

Lemma clamp_range (n : Q) : (0 <= clamp n <= 100)%Q.
Proof.
  unfold clamp. split; [apply Q.le_max_l|].
  apply Q.max_lub; [discriminate|apply Q.le_min_l].
Qed.

Lemma initAccountScores_keys (nodes : JS.JsSet) :
  JS.keys (Score.initAccountScores nodes) = JS.of_list nodes.
Proof.
  unfold Score.initAccountScores, JS.of_list.
  assert (G : forall l (m : JS.JsMap Score.AccountScoreState),
            JS.keys (fold_left (fun m n => JS.set m n (Score.mkState 0%Q [] None)) l m)
            = fold_left JS.add l (JS.keys m)).
  { induction l as [|n l IH]; intros m; simpl; [reflexivity|].
    rewrite IH. f_equal. apply keys_set. }
  apply (G nodes []).
Qed.

Lemma initAccountScores_values (nodes : JS.JsSet) (k : string)
    (v : Score.AccountScoreState) :
  In (k, v) (Score.initAccountScores nodes) ->
  v = Score.mkState 0%Q [] None /\ In k nodes.
Proof.
  unfold Score.initAccountScores.
  assert (G : NoDup (JS.keys (fold_left
                 (fun m n => JS.set m n (Score.mkState 0%Q [] None)) nodes []))
              /\ forall k v,
                   In (k, v) (fold_left
                     (fun m n => JS.set m n (Score.mkState 0%Q [] None)) nodes []) ->
                   v = Score.mkState 0%Q [] None /\ In k nodes).
  { apply (fold_left_inv
             (fun m : JS.JsMap Score.AccountScoreState =>
                NoDup (JS.keys m)
                /\ forall k v, In (k, v) m ->
                               v = Score.mkState 0%Q [] None /\ In k nodes)).
    - intros m n Hn [Hnd Hm]. split; [now apply keys_set_NoDup|].
      intros k' v' Hin. apply set_In in Hin; [|exact Hnd].
      destruct Hin as [[-> ->]|[_ Hin]]; [auto|now apply Hm].
    - split; [constructor|]. intros k' v' []. }
  intros H. now apply (proj2 G).
Qed.

Lemma applyWinModeScoring_entry (rings : list RingCandidate) (evidence : EvidenceMap)
    (nodes : JS.JsSet) (acct : string) (st : Score.AccountScoreState) :
  In (acct, st)
     (Score.applyWinModeScoring rings evidence (Score.initAccountScores nodes)) ->
  In acct nodes
  /\ match JS.get (Score.bestRingByAccount rings) acct with
     | None => st = Score.mkState 0%Q [] None
     | Some ring =>
         Score.patterns st
         = match JS.get evidence acct with Some s => JS.of_list s | None => [] end
         /\ Score.score st
            = clamp (JS.toFixed 1 (Score.role_score acct ring (Score.patterns st)))
         /\ Score.ringId st = None
     end.
Proof.
  unfold Score.applyWinModeScoring. intros H. apply in_map_iff in H.
  destruct H as ([k v] & E & Hin). apply initAccountScores_values in Hin.
  destruct Hin as [-> Hk]. unfold Score.score_account in E.
  destruct (JS.get (Score.bestRingByAccount rings) k) as [ring|] eqn:Eb.
  - inversion E; subst. rewrite Eb. split; [exact Hk|]. simpl.
    destruct (JS.get evidence acct); auto.
  - inversion E; subst. rewrite Eb. auto.
Qed.

Lemma applyWinModeScoring_keys (rings : list RingCandidate) (evidence : EvidenceMap)
    (nodes : JS.JsSet) :
  JS.keys (Score.applyWinModeScoring rings evidence (Score.initAccountScores nodes))
  = JS.of_list nodes.
Proof.
  unfold Score.applyWinModeScoring, JS.keys. rewrite map_map.
  rewrite <- initAccountScores_keys. unfold JS.keys. apply map_ext.
  intros [k v]. unfold Score.score_account.
  destruct (JS.get (Score.bestRingByAccount rings) k); reflexivity.
Qed.



(** ** Output assembler: signatures and ring ids of flagged accounts *)

Lemma append_sep_inj (c : ascii) : forall x x' rest rest',
  existsb (Ascii.eqb c) (list_ascii_of_string x) = false ->
  existsb (Ascii.eqb c) (list_ascii_of_string x') = false ->
  (x ++ String c rest)%string = (x' ++ String c rest')%string ->
  x = x' /\ rest = rest'.
Proof.
  induction x as [|d x IH]; intros [|d' x'] rest rest' Hx Hx' E; simpl in *.
  - inversion E. auto.
  - inversion E; subst. rewrite Ascii.eqb_refl in Hx'. discriminate.
  - inversion E; subst. rewrite Ascii.eqb_refl in Hx. discriminate.
  - inversion E; subst. apply orb_false_iff in Hx, Hx'.
    destruct (IH x' rest rest') as [-> ->]; tauto.
Qed.

Lemma append_sep_has (c : ascii) (r : string) : forall x,
  existsb (Ascii.eqb c) (list_ascii_of_string (x ++ String c r)) = true.
Proof.
  induction x as [|d x IH]; simpl.
  - now rewrite Ascii.eqb_refl.
  - rewrite IH. apply orb_true_r.
Qed.

Lemma id_ok_spec (s : string) :
  Output.id_ok s = true ->
  s <> ""%string /\ existsb (Ascii.eqb ",") (list_ascii_of_string s) = false.
Proof.
  unfold Output.id_ok. intros H. apply andb_true_iff in H. destruct H as [H1 H2].
  apply negb_true_iff in H1, H2. split; [|exact H2].
  intros ->. discriminate H1.
Qed.

Lemma join_cons2 (x y : string) (l : list string) :
  JS.join "," (x :: y :: l) = (x ++ String "," (JS.join "," (y :: l)))%string.
Proof. reflexivity. Qed.

Lemma join_comma_inj : forall l l',
  forallb Output.id_ok l = true -> forallb Output.id_ok l' = true ->
  JS.join "," l = JS.join "," l' -> l = l'.
Proof.
  induction l as [|x l IH]; intros [|x' l'] Hl Hl' E.
  - reflexivity.
  - exfalso. simpl in Hl'. apply andb_true_iff in Hl'. destruct Hl' as [Hx' _].
    apply id_ok_spec in Hx'. destruct Hx' as [Hne _].
    destruct l' as [|y' l'].
    + simpl in E. congruence.
    + rewrite join_cons2 in E. destruct x'; [congruence|discriminate E].
  - exfalso. simpl in Hl. apply andb_true_iff in Hl. destruct Hl as [Hx _].
    apply id_ok_spec in Hx. destruct Hx as [Hne _].
    destruct l as [|y l].
    + simpl in E. congruence.
    + rewrite join_cons2 in E. destruct x; [congruence|discriminate E].
  - simpl in Hl, Hl'. apply andb_true_iff in Hl, Hl'.
    destruct Hl as [Hx Hl], Hl' as [Hx' Hl'].
    apply id_ok_spec in Hx, Hx'. destruct Hx as [_ Hx], Hx' as [_ Hx'].
    destruct l as [|y l], l' as [|y' l'].
    + simpl in E. congruence.
    + exfalso. rewrite join_cons2 in E. change (JS.join "," [x]) with x in E.
      rewrite E in Hx.
      rewrite append_sep_has in Hx. discriminate.
    + exfalso. rewrite join_cons2 in E. change (JS.join "," [x']) with x' in E.
      rewrite <- E in Hx'.
      rewrite append_sep_has in Hx'. discriminate.
    + rewrite !join_cons2 in E.
      apply append_sep_inj in E; [|exact Hx|exact Hx'].
      destruct E as [-> E]. f_equal. now apply IH.
Qed.

Lemma sorted_members_In (r : RingCandidate) (a : string) :
  In a (Output.sorted_members r) <-> In a (member_accounts r).
Proof.
  unfold Output.sorted_members, JS.sort_strings. rewrite sort_In. apply of_list_In.
Qed.

Lemma ringSignature_members (r r' : RingCandidate) :
  Output.ring_ok r = true -> Output.ring_ok r' = true ->
  Output.ringSignature r = Output.ringSignature r' ->
  pattern_type r = pattern_type r'
  /\ forall a, In a (member_accounts r) <-> In a (member_accounts r').
Proof.
  unfold Output.ring_ok. intros H H' E.
  apply andb_true_iff in H, H'. destruct H as [Hp Hm], H' as [Hp' Hm'].
  apply negb_true_iff in Hp, Hp'.
  unfold Output.ringSignature in E.
  change ("|" ++ JS.join "," (Output.sorted_members r))%string
    with (String "|" (JS.join "," (Output.sorted_members r))) in E.
  change ("|" ++ JS.join "," (Output.sorted_members r'))%string
    with (String "|" (JS.join "," (Output.sorted_members r'))) in E.
  apply append_sep_inj in E; [|exact Hp|exact Hp'].
  destruct E as [Ep Ej]. split; [exact Ep|].
  apply join_comma_inj in Ej.
  - intros a. rewrite <- !sorted_members_In. now rewrite Ej.
  - apply forallb_forall. intros x Hx. apply sorted_members_In in Hx.
    rewrite forallb_forall in Hm. now apply Hm.
  - apply forallb_forall. intros x Hx. apply sorted_members_In in Hx.
    rewrite forallb_forall in Hm'. now apply Hm'.
Qed.

Lemma to_fraud_ring_members (i : nat) (r : RingCandidate) (a : string) :
  In a (Out.member_accounts (Output.to_fraud_ring i r)) <-> In a (member_accounts r).
Proof.
  unfold Output.to_fraud_ring. simpl.
  destruct (String.eqb (pattern_type r) "cycle").
  - apply sorted_members_In.
  - rewrite uniqPreserveOrder_of_list. apply of_list_In.
Qed.

Lemma In_combine_seq {A} (l : list A) (x : A) : forall s,
  In x l -> exists i, In (i, x) (combine (seq s (length l)) l).
Proof.
  induction l as [|y l IH]; intros s; simpl; [tauto|].
  intros [<-|H].
  - exists s. now left.
  - destruct (IH (S s) H) as [i Hi]. exists i. now right.
Qed.

Lemma fraud_rings_of_covers (localeCompare : string -> string -> comparison)
    (rings : list RingCandidate) (r : RingCandidate) (a : string) :
  (forall k, In k rings -> Output.ring_ok k = true) ->
  In r rings -> In a (member_accounts r) ->
  exists fr, In fr (Output.fraud_rings_of localeCompare rings)
             /\ In a (Out.member_accounts fr).
Proof.
  intros Hok Hr Ha.
  destruct (bestBySig_inv rings) as (_ & Hb & Hk).
  pose proof (Hk r Hr) as Hkey. unfold JS.keys in Hkey.
  apply in_map_iff in Hkey. destruct Hkey as ([sig r'] & Es & Hin'). simpl in Es.
  destruct (Hb sig r' Hin') as (Hsig & Hr' & _).
  assert (Hmem : In a (member_accounts r')).
  { apply (ringSignature_members r r'); auto. congruence. }
  assert (Hl : In r' (Output.ringList localeCompare rings)).
  { unfold Output.ringList. apply sort_In. unfold JS.values.
    change r' with (snd (sig, r')). now apply in_map. }
  destruct (In_combine_seq _ r' 0%nat Hl) as [i Hi].
  exists (Output.to_fraud_ring i r'). split.
  - unfold Output.fraud_rings_of.
    change (Output.to_fraud_ring i r')
      with ((fun ir : nat * RingCandidate => Output.to_fraud_ring (fst ir) (snd ir))
              (i, r')).
    now apply in_map.
  - now apply to_fraud_ring_members.
Qed.

Lemma init_state_not_flagged (localeCompare : string -> string -> comparison)
    (best : JS.JsMap (string * Q)) (acct : string) :
  Output.suspicious_entry localeCompare best (acct, Score.mkState 0%Q [] None) = None.
Proof. reflexivity. Qed.

Lemma assembled_flagged_ring (localeCompare : string -> string -> comparison)
    (rings : list RingCandidate) (evidence : EvidenceMap) (nodes : JS.JsSet)
    (processingSeconds : Q) :
  (forall r, In r rings -> Output.ring_ok r = true) ->
  let out :=
    Output.buildDeterministicOutput localeCompare nodes rings
      (Score.applyWinModeScoring rings evidence (Score.initAccountScores nodes))
      processingSeconds in
  forall sa, In sa (Out.suspicious_accounts out) ->
    exists fr,
      In fr (Out.fraud_rings out)
      /\ Out.sa_ring_id sa = Some (Out.ring_id fr)
      /\ In (Out.account_id sa) (Out.member_accounts fr)
      /\ forall fr', In fr' (Out.fraud_rings out) ->
           In (Out.account_id sa) (Out.member_accounts fr') ->
           (Out.risk_score fr' <= Out.risk_score fr)%Q.
Proof.
  intros Hok out sa Hsa. unfold out, Output.buildDeterministicOutput in *.
  cbn [Out.suspicious_accounts Out.fraud_rings] in *.
  set (frs := Output.fraud_rings_of localeCompare rings) in *.
  unfold Output.suspicious_of in Hsa. apply sort_In in Hsa.
  apply suspicious_fold_In in Hsa. destruct Hsa as [[]|([acct st] & Hin & He)].
  apply applyWinModeScoring_entry in Hin. destruct Hin as [_ Hm].
  pose proof (bestRingByAccount_inv rings acct) as Hb. unfold best_inv in Hb.
  destruct (JS.get (Score.bestRingByAccount rings) acct) as [ring|].
  - destruct Hb as [(r0 & [H1 H2] & _) _].
    destruct (fraud_rings_of_covers localeCompare rings r0 acct Hok H1 H2)
      as (fr0 & Hf0 & Ha0). fold frs in Hf0.
    pose proof (memberToBestRing_inv frs acct) as Hbest. unfold best_inv in Hbest.
    unfold Output.suspicious_entry in He.
    destruct (Qlt_bool _ 60); [discriminate He|].
    destruct (JS.get (Output.memberToBestRing frs) acct) as [[id risk]|].
    + destruct Hbest as [(fr & [Hf Ha] & E) Hmax]. inversion E; subst.
      destruct (Nat.eqb _ 0); [discriminate He|]. inversion He; subst. simpl.
      exists fr. split; [exact Hf|]. split; [reflexivity|]. split; [exact Ha|].
      intros fr' Hf' Ha'. destruct (Hmax fr' (conj Hf' Ha')) as [Hlt|[Heq _]].
      * apply Qlt_le_weak. exact Hlt.
      * simpl in Heq. rewrite Heq. apply Qle_refl.
    + exfalso. apply (Hbest fr0). tauto.
  - subst st. rewrite init_state_not_flagged in He. discriminate He.
Qed.

(** X18. Referential integrity of the document assembled from the scorer's
    result.  When the pattern types hold no [|] and the member ids are not
    empty and hold no comma (so that equal signatures mean equal member
    sets), every flagged account carries the id of a fraud ring of the
    document that lists it, and no fraud ring listing the account has a
    higher risk than that one. *)
Theorem flagged_account_ring (localeCompare : string -> string -> comparison)
    (rings : list RingCandidate) (evidence : EvidenceMap) (nodes : JS.JsSet)
    (processingSeconds : Q) :
  (forall r, In r rings -> Output.ring_ok r = true) ->
  let out :=
    Output.buildDeterministicOutput localeCompare nodes rings
      (Score.applyWinModeScoring rings evidence (Score.initAccountScores nodes))
      processingSeconds in
  forall sa, In sa (Out.suspicious_accounts out) ->
    exists fr,
      In fr (Out.fraud_rings out)
      /\ Out.sa_ring_id sa = Some (Out.ring_id fr)
      /\ In (Out.account_id sa) (Out.member_accounts fr)
      /\ forall fr', In fr' (Out.fraud_rings out) ->
           In (Out.account_id sa) (Out.member_accounts fr') ->
           (Out.risk_score fr' <= Out.risk_score fr)%Q.
Proof. apply assembled_flagged_ring. Qed.

Lemma flagged_account_ring_witness :
  exists sa fr,
    let out :=
      Output.buildDeterministicOutput String.compare ["a"; "b"; "c"]%string
        [mkRing "cycle" ["a"; "b"; "c"] 95%Q]%string
        (Score.applyWinModeScoring
           [mkRing "cycle" ["a"; "b"; "c"] 95%Q]%string
           [("a", ["cycle_length_3"])]%string
           (Score.initAccountScores ["a"; "b"; "c"]%string))
        0%Q in
    In sa (Out.suspicious_accounts out)
    /\ In fr (Out.fraud_rings out)
    /\ Out.sa_ring_id sa = Some (Out.ring_id fr).
Proof.
  pose proof (flagged_account_ring String.compare
                [mkRing "cycle" ["a"; "b"; "c"] 95%Q]%string
                [("a", ["cycle_length_3"])]%string ["a"; "b"; "c"]%string 0%Q) as H.
  assert (Hok : forall r, In r [mkRing "cycle" ["a"; "b"; "c"]%string 95%Q] ->
                          Output.ring_ok r = true)
    by (intros r [<-|[]]; reflexivity).
  specialize (H Hok). cbv zeta in H. cbv zeta.
  destruct (Out.suspicious_accounts
              (Output.buildDeterministicOutput String.compare ["a"; "b"; "c"]%string
                 [mkRing "cycle" ["a"; "b"; "c"] 95%Q]%string
                 (Score.applyWinModeScoring
                    [mkRing "cycle" ["a"; "b"; "c"] 95%Q]%string
                    [("a", ["cycle_length_3"])]%string
                    (Score.initAccountScores ["a"; "b"; "c"]%string))
                 0%Q)) as [|sa rest] eqn:E; [vm_compute in E; discriminate E|].
  destruct (H sa (or_introl eq_refl)) as (fr & Hf & Hid & _).
  exists sa, fr. split; [left; reflexivity|]. split; [exact Hf|exact Hid].
Defined.

(** ** Pipeline: the rings handed to the assembler *)

Lemma combine_fst_In {A B} (l : list A) : forall (l' : list B) a,
  (length l <= length l')%nat -> In a l -> exists b, In (a, b) (combine l l').
Proof.
  induction l as [|x l IH]; intros [|y l'] a Hlen Hin; simpl in *; try tauto; try lia.
  destruct Hin as [<-|Hin].
  - exists y. now left.
  - destruct (IH l' a) as [b Hb]; [lia|exact Hin|]. exists b. now right.
Qed.

Lemma walk_member_edge (a : string) : forall p,
  (2 <= length p)%nat -> In a p ->
  exists b, In (a, b) (combine p (tl p)) \/ In (b, a) (combine p (tl p)).
Proof.
  induction p as [|x p IH]; simpl; [lia|].
  destruct p as [|y p]; simpl; [lia|]. intros _ [<-|Hin].
  - exists y. left. now left.
  - destruct p as [|z p].
    + destruct Hin as [<-|[]]. exists x. right. now left.
    + destruct (IH ltac:(simpl; lia) Hin) as [b [Hb|Hb]]; exists b; simpl in *; tauto.
Qed.

Section RingMembers.
Variable txs : list Tx.

Lemma edge_nodes (a b : string) :
  has_edge (GraphBuilder.buildGraph txs) a b ->
  In a (nodes (GraphBuilder.buildGraph txs))
  /\ In b (nodes (GraphBuilder.buildGraph txs)).
Proof.
  unfold has_edge. intros H. apply buildGraph_out_edge in H.
  destruct H as (tx & Hin & Hs & Hr).
  split; apply buildGraph_nodes_iff; exists tx; auto.
Qed.

Lemma cycle_members_nodes (r : RingCandidate) (a : string) :
  In r (fst (Cycles.detectCycles35 (GraphBuilder.buildGraph txs))) ->
  In a (member_accounts r) -> In a (nodes (GraphBuilder.buildGraph txs)).
Proof.
  intros H Ha.
  pose proof (detectCycles35_sound_rings (GraphBuilder.buildGraph txs)) as G.
  rewrite Forall_forall in G. destruct (G r H) as (cyc & Hp & _ & Hc).
  apply (Permutation_in _ (Permutation_sym Hp)) in Ha.
  destruct (combine_fst_In cyc (skipn 1 cyc ++ firstn 1 cyc) a) as [b Hb];
    [|exact Ha|].
  - destruct cyc as [|x cyc]; simpl; [lia|]. rewrite length_app. simpl. lia.
  - unfold Cycles.is_cycle in Hc. rewrite Forall_forall in Hc.
    apply (edge_nodes a b). exact (Hc (a, b) Hb).
Qed.

Lemma shell_members_nodes (r : RingCandidate) (a : string) :
  In r (fst (ShellChains.detectShellChains (GraphBuilder.buildGraph txs))) ->
  In a (member_accounts r) -> In a (nodes (GraphBuilder.buildGraph txs)).
Proof.
  intros H Ha.
  pose proof (detectShellChains_well_formed (GraphBuilder.buildGraph txs)) as G.
  rewrite Forall_forall in G. destruct (G r H) as (Hl & _ & Hw & _).
  destruct (walk_member_edge a (member_accounts r)) as [b [Hb|Hb]];
    [lia|exact Ha| |]; unfold is_walk in Hw; rewrite Forall_forall in Hw.
  - apply (edge_nodes a b). exact (Hw (a, b) Hb).
  - apply (edge_nodes b a). exact (Hw (b, a) Hb).
Qed.

Lemma find_cashout_node (g : Graph) (receivers : JS.JsSet) (minT maxT : Z) (c : string) :
  Smurfing.find_cashout g receivers minT maxT = Some c -> In c (nodes g).
Proof.
  unfold Smurfing.find_cashout. intros H.
  destruct (cash_fold_first_max g receivers minT maxT (nodes g) None 0%nat)
    as [[Hf _]|(pre & c' & post & Hl & _ & Hf & _)]; rewrite Hf in H; simpl in H.
  - discriminate H.
  - inversion H; subst c'. rewrite Hl. apply in_app_iff. right. now left.
Qed.

Lemma smurfing_members_nodes (r : RingCandidate) (a : string) :
  In r (fst (Smurfing.detectSmurfing (GraphBuilder.buildGraph txs))) ->
  In a (member_accounts r) -> In a (nodes (GraphBuilder.buildGraph txs)).
Proof.
  intros H Ha. apply detectSmurfing_rings in H.
  destruct H as (hub & h & Hin & Hh & ->).
  pose proof (analyze_hub_gate _ _ _ Hh)
    as (Hhub & Hbi & Hbo & _ & _ & _ & _ & _ & _ & Hcash).
  apply bestUniqueWindow_hit_ok in Hbi, Hbo.
  destruct Hbi as (pre1 & win1 & post1 & L1 & _ & _ & _ & _ & C1 & _).
  destruct Hbo as (pre2 & win2 & post2 & L2 & _ & _ & _ & _ & C2 & _).
  destruct (buildGraph_lists_eq txs hub) as (Ei & Eo & _).
  assert (Hbase : forall x,
            In x ([Smurfing.hub h]
                    ++ JS.sort_strings (Smurfing.counterparties (Smurfing.bestIn h))
                    ++ JS.sort_strings (Smurfing.counterparties (Smurfing.bestOut h))) ->
            In x (nodes (GraphBuilder.buildGraph txs))).
  { intros x Hx. apply in_app_iff in Hx. destruct Hx as [[<-|[]]|Hx].
    - now rewrite Hhub.
    - apply in_app_iff in Hx. destruct Hx as [Hx|Hx].
      + unfold JS.sort_strings in Hx. apply sort_In in Hx. rewrite C1 in Hx.
        apply of_list_In, in_map_iff in Hx. destruct Hx as (tx & Es & Hw).
        assert (Hl : In tx (Smurfing.list_of (txIn (GraphBuilder.buildGraph txs)) hub))
          by (rewrite L1; apply in_app_iff; right; apply in_app_iff; now left).
        rewrite Ei in Hl. apply sort_In, filter_In in Hl.
        apply buildGraph_nodes_iff. exists tx. tauto.
      + unfold JS.sort_strings in Hx. apply sort_In in Hx. rewrite C2 in Hx.
        apply of_list_In, in_map_iff in Hx. destruct Hx as (tx & Es & Hw).
        assert (Hl : In tx (Smurfing.list_of (txOut (GraphBuilder.buildGraph txs)) hub))
          by (rewrite L2; apply in_app_iff; right; apply in_app_iff; now left).
        rewrite Eo in Hl. apply sort_In, filter_In in Hl.
        apply buildGraph_nodes_iff. exists tx. tauto. }
  simpl in Ha. unfold Smurfing.members_of in Ha.
  destruct (Smurfing.cashout h) as [c|] eqn:Ec; [|now apply Hbase].
  destruct (_ && _); [|now apply Hbase].
  apply in_app_iff in Ha. destruct Ha as [Ha|[<-|[]]]; [now apply Hbase|].
  symmetry in Hcash. now apply find_cashout_node in Hcash.
Qed.

Lemma node_id_ok (a : string) :
  Route.ids_ok txs = true ->
  In a (nodes (GraphBuilder.buildGraph txs)) -> Output.id_ok a = true.
Proof.
  unfold Route.ids_ok. intros Hok Ha. rewrite forallb_forall in Hok.
  apply buildGraph_nodes_iff in Ha. destruct Ha as (tx & Hin & Hx).
  specialize (Hok tx Hin). apply andb_true_iff in Hok.
  destruct Hx as [<-|<-]; tauto.
Qed.

Lemma merged_rings_ok (r : RingCandidate) :
  Route.ids_ok txs = true ->
  In r (Route.merged_rings (GraphBuilder.buildGraph txs)) ->
  Output.ring_ok r = true.
Proof.
  intros Hok H.
  unfold Route.merged_rings, Merge.mergeRings, Score.adjustRingRisks in H.
  apply outer_In in H. unfold Route.detected_rings in H.
  unfold Output.ring_ok. apply andb_true_iff.
  apply in_app_iff in H. destruct H as [H|H]; [|apply in_app_iff in H; destruct H as [H|H]].
  - split.
    + apply detectSmurfing_rings in H. destruct H as (hub & h & _ & _ & ->).
      reflexivity.
    + apply forallb_forall. intros a Ha.
      apply node_id_ok; [exact Hok|]. now apply (smurfing_members_nodes r).
  - split.
    + pose proof (detectCycles35_good (GraphBuilder.buildGraph txs)) as G.
      rewrite Forall_forall in G. destruct (G r H) as [Hc _]. now rewrite Hc.
    + apply forallb_forall. intros a Ha.
      apply node_id_ok; [exact Hok|]. now apply (cycle_members_nodes r).
  - split.
    + apply detectShellChains_pattern in H. now rewrite H.
    + apply forallb_forall. intros a Ha.
      apply node_id_ok; [exact Hok|]. now apply (shell_members_nodes r).
Qed.

End RingMembers.

(** X19. Referential integrity of the response.  When every account id of
    the input is non-empty and holds no comma, every suspicious account of
    the document carries the id of a fraud ring of the same document that
    lists it; no fraud ring listing the account has a higher risk. *)
Theorem analyze_flagged_account_ring (localeCompare : string -> string -> comparison)
    (txs : list Tx) (t0 t1 : Z) :
  Route.ids_ok txs = true ->
  forall sa, In sa (Out.suspicious_accounts (Route.analyze localeCompare txs t0 t1)) ->
    exists fr,
      In fr (Out.fraud_rings (Route.analyze localeCompare txs t0 t1))
      /\ Out.sa_ring_id sa = Some (Out.ring_id fr)
      /\ In (Out.account_id sa) (Out.member_accounts fr)
      /\ forall fr', In fr' (Out.fraud_rings (Route.analyze localeCompare txs t0 t1)) ->
           In (Out.account_id sa) (Out.member_accounts fr') ->
           (Out.risk_score fr' <= Out.risk_score fr)%Q.
Proof.
  intros Hok sa Hsa. unfold Route.analyze in *.
  apply (assembled_flagged_ring localeCompare
           (Route.merged_rings (GraphBuilder.buildGraph txs))
           (Route.merged_evidence (GraphBuilder.buildGraph txs))
           (nodes (GraphBuilder.buildGraph txs))
           (inject_Z (t1 - t0) / 1000)%Q).
  - intros r Hr. now apply (merged_rings_ok txs).
  - exact Hsa.
Qed.

Lemma analyze_flagged_account_ring_witness :
  exists sa fr,
    In sa (Out.suspicious_accounts
             (Route.analyze String.compare Examples.cycle_txs 0 0))
    /\ In fr (Out.fraud_rings (Route.analyze String.compare Examples.cycle_txs 0 0))
    /\ Out.sa_ring_id sa = Some (Out.ring_id fr).
Proof.
  pose proof (analyze_flagged_account_ring String.compare Examples.cycle_txs 0 0
                eq_refl) as H.
  destruct (Out.suspicious_accounts
              (Route.analyze String.compare Examples.cycle_txs 0 0))
    as [|sa rest] eqn:E; [vm_compute in E; discriminate E|].
  destruct (H sa (or_introl eq_refl)) as (fr & Hf & Hid & _).
  exists sa, fr. split; [left; reflexivity|]. split; [exact Hf|exact Hid].
Defined.

(** ** Evidence tags of ring members *)

Lemma add_evidence_here (ev : EvidenceMap) (a p : string) :
  has_evidence (add_evidence ev a p) a.
Proof.
  unfold has_evidence, add_evidence.
  exists (JS.add (match JS.get ev a with Some s => s | None => [] end) p), p.
  split; [apply get_set_same|apply add_In; now right].
Qed.

Lemma add_evidence_mono (ev : EvidenceMap) (a p b : string) :
  has_evidence ev b -> has_evidence (add_evidence ev a p) b.
Proof.
  intros (s & q & E & Hq). unfold has_evidence, add_evidence.
  destruct (String.eqb_spec b a) as [->|N].
  - exists (JS.add s p), q.
    split; [rewrite E; apply get_set_same|apply add_In; now left].
  - exists s, q. split; [|exact Hq]. rewrite get_set_other by exact N. exact E.
Qed.

Section TagFold.
Context {X : Type}.
Variables (step : EvidenceMap -> X -> EvidenceMap) (key : X -> string).
Hypothesis step_mono : forall ev x b, has_evidence ev b -> has_evidence (step ev x) b.
Hypothesis step_here : forall ev x, has_evidence (step ev x) (key x).

Lemma fold_tag_mono (l : list X) (ev : EvidenceMap) (b : string) :
  has_evidence ev b -> has_evidence (fold_left step l ev) b.
Proof.
  apply (fold_left_inv (fun e => has_evidence e b)). intros e x _. apply step_mono.
Qed.

Lemma fold_tag_here (l : list X) : forall (ev : EvidenceMap) (x : X),
  In x l -> has_evidence (fold_left step l ev) (key x).
Proof.
  induction l as [|y l IH]; intros ev x; simpl; [tauto|].
  intros [<-|H]; [|now apply IH]. apply fold_tag_mono, step_here.
Qed.

End TagFold.

Lemma tag_all_mono (tag : string) (accts : list string) (ev : EvidenceMap) (b : string) :
  has_evidence ev b -> has_evidence (Cycles.tag_all tag accts ev) b.
Proof.
  unfold Cycles.tag_all. apply fold_tag_mono. intros e x c. apply add_evidence_mono.
Qed.

Lemma tag_all_here (tag : string) (accts : list string) (ev : EvidenceMap) (b : string) :
  In b accts -> has_evidence (Cycles.tag_all tag accts ev) b.
Proof.
  unfold Cycles.tag_all.
  apply (fold_tag_here (fun ev a => add_evidence ev a tag) (fun a => a)).
  - intros e x c. apply add_evidence_mono.
  - intros e x. apply add_evidence_here.
Qed.

Lemma addPats_mono (pats : list string) (ev : EvidenceMap) (a b : string) :
  has_evidence ev b -> has_evidence (Smurfing.addPats pats ev a) b.
Proof.
  unfold Smurfing.addPats. apply fold_tag_mono. intros e x c. apply add_evidence_mono.
Qed.

Lemma addPats_here (p : string) (pats : list string) (ev : EvidenceMap) (a : string) :
  has_evidence (Smurfing.addPats (p :: pats) ev a) a.
Proof.
  unfold Smurfing.addPats. simpl.
  apply fold_tag_mono; [intros e x c; apply add_evidence_mono|].
  apply add_evidence_here.
Qed.

Lemma tag_path_mono (p : list string) (ev : EvidenceMap) (b : string) :
  has_evidence ev b -> has_evidence (ShellChains.tag_path p ev) b.
Proof.
  intros H. unfold ShellChains.tag_path. cbv zeta.
  do 4 apply add_evidence_mono.
  apply fold_tag_mono; [intros e x c Hc; now do 2 apply add_evidence_mono|].
  now do 2 apply add_evidence_mono.
Qed.

Lemma tag_path_here (p : list string) (ev : EvidenceMap) (a : string) :
  In a p -> has_evidence (ShellChains.tag_path p ev) a.
Proof.
  intros H. apply (In_nth _ _ ""%string) in H. destruct H as (i & Hi & <-).
  unfold ShellChains.tag_path. cbv zeta.
  destruct (Nat.eq_dec i (length p - 1)) as [->|N1]; [apply add_evidence_here|].
  do 2 apply add_evidence_mono.
  destruct (Nat.eq_dec i (length p - 2)) as [->|N2]; [apply add_evidence_here|].
  do 2 apply add_evidence_mono.
  destruct (Nat.eq_dec i 0) as [->|N0].
  - apply fold_tag_mono; [intros e x c Hc; now do 2 apply add_evidence_mono|].
    apply add_evidence_here.
  - apply (fold_tag_here
             (fun ev i => add_evidence
                            (add_evidence ev (nth i p ""%string) "layered_shell_chain")
                            (nth i p ""%string) "low_activity_shell")
             (fun i => nth i p ""%string)).
    + intros e x c Hc. now do 2 apply add_evidence_mono.
    + intros e x. apply add_evidence_here.
    + apply in_seq. lia.
Qed.

Lemma tagged_app (rings : list RingCandidate) (r : RingCandidate) (ev ev' : EvidenceMap) :
  tagged rings ev ->
  (forall b, has_evidence ev b -> has_evidence ev' b) ->
  (forall a, In a (member_accounts r) -> has_evidence ev' a) ->
  tagged (rings ++ [r]) ev'.
Proof.
  intros Ht Hmono Hnew r' a Hr Ha. apply in_app_iff in Hr.
  destruct Hr as [Hr|[<-|[]]]; [|now apply Hnew]. apply Hmono. now apply (Ht r').
Qed.

Section CycleTags.
Import Cycles.
Variables (g : Graph) (idx : JS.JsMap nat) (start : string) (startIdx : nat).

Lemma close_cycle_tagged st :
  tagged (rings st) (evidenceByAccount st) ->
  tagged (rings (close_cycle g st)) (evidenceByAccount (close_cycle g st)).
Proof.
  intros H. unfold close_cycle. destruct (JS.has _ _); [exact H|]. cbn [rings evidenceByAccount].
  apply (tagged_app _ _ (evidenceByAccount st)); [exact H| |].
  - intros b Hb. now do 2 apply tag_all_mono.
  - cbn [member_accounts]. intros a Ha. unfold JS.sort_strings in Ha.
    apply sort_In in Ha. now apply tag_all_here.
Qed.

Lemma dfs_tagged : forall fuel u depth st,
  tagged (rings st) (evidenceByAccount st) ->
  tagged (rings (dfs fuel g idx start startIdx u depth st))
         (evidenceByAccount (dfs fuel g idx start startIdx u depth st)).
Proof.
  induction fuel as [|fuel IH]; intros u depth st Hr; cbn [dfs]; [exact Hr|].
  destruct (Nat.ltb 5 depth); [exact Hr|].
  destruct (JS.get (outNeighbors g) u) as [nbrs|]; [|exact Hr].
  apply (fold_left_inv (fun s => tagged (rings s) (evidenceByAccount s))); [|exact Hr].
  intros a v _ Ha. cbv beta.
  destruct (JS.get idx v); [|exact Ha].
  destruct (Nat.ltb n startIdx); [exact Ha|].
  destruct (String.eqb v start).
  { destruct (_ && _); [|exact Ha]. now apply close_cycle_tagged. }
  destruct (JS.has (visited a) v); [exact Ha|].
  cbn [rings evidenceByAccount]. apply IH. exact Ha.
Qed.

End CycleTags.

Lemma detectCycles35_tagged (g : Graph) :
  tagged (fst (Cycles.detectCycles35 g)) (snd (Cycles.detectCycles35 g)).
Proof.
  unfold Cycles.detectCycles35. simpl.
  apply (fold_left_inv
           (fun s => tagged (Cycles.rings s) (Cycles.evidenceByAccount s))).
  - intros a s _ Ha. unfold Cycles.from_start.
    destruct (JS.get _ s); [|exact Ha]. apply dfs_tagged. exact Ha.
  - intros r a [].
Qed.

Section ShellTags.
Import ShellChains.
Variables (g : Graph) (low : JS.JsSet).

Lemma try_emit_tagged nextDepth st :
  tagged (rings st) (evidenceByAccount st) ->
  tagged (rings (try_emit g low nextDepth st))
         (evidenceByAccount (try_emit g low nextDepth st)).
Proof.
  intros H. unfold try_emit. destruct (shell_like _ _ _); [|exact H].
  destruct (walk_edges _ _ _); [|exact H].
  destruct (JS.has _ _); [exact H|]. cbn [rings evidenceByAccount].
  apply (tagged_app _ _ (evidenceByAccount st)); [exact H| |].
  - intros b. apply tag_path_mono.
  - cbn [member_accounts]. intros a. apply tag_path_here.
Qed.

Lemma shell_dfs_tagged : forall fuel u depthEdges st,
  tagged (rings st) (evidenceByAccount st) ->
  tagged (rings (dfs fuel g low u depthEdges st))
         (evidenceByAccount (dfs fuel g low u depthEdges st)).
Proof.
  induction fuel as [|fuel IH]; intros u d st H; cbn [dfs]; [exact H|].
  destruct (Nat.leb _ _); [exact H|]. destruct (Nat.ltb _ _); [exact H|].
  destruct (JS.get _ _) as [nbrs|]; [|exact H].
  apply (fold_left_inv (fun s => tagged (rings s) (evidenceByAccount s))); [|exact H].
  intros a v _ Ha. cbv beta. destruct (Nat.leb _ _); [exact Ha|].
  destruct (JS.has _ _); [exact Ha|]. destruct (_ && _); [exact Ha|].
  cbn [rings evidenceByAccount]. apply IH. destruct (Nat.leb 3 _); [|exact Ha].
  apply try_emit_tagged. exact Ha.
Qed.

End ShellTags.

Lemma detectShellChains_tagged (g : Graph) :
  tagged (fst (ShellChains.detectShellChains g)) (snd (ShellChains.detectShellChains g)).
Proof.
  unfold ShellChains.detectShellChains. simpl.
  apply (fold_left_inv
           (fun s => tagged (ShellChains.rings s) (ShellChains.evidenceByAccount s))).
  - intros a s _ Ha. unfold ShellChains.from_start. apply shell_dfs_tagged. exact Ha.
  - intros r a [].
Qed.

Lemma tag_hub_mono (h : Smurfing.HubHit) (ev : EvidenceMap) (b : string) :
  has_evidence ev b -> has_evidence (Smurfing.tag_hub h ev) b.
Proof.
  intros H. unfold Smurfing.tag_hub. cbv zeta.
  assert (H3 : has_evidence
                 (fold_left (Smurfing.addPats ["smurfing_fan_out"; "temporal_72h"]%string)
                    (Smurfing.counterparties (Smurfing.bestOut h))
                    (fold_left (Smurfing.addPats ["smurfing_fan_in"; "temporal_72h"]%string)
                       (Smurfing.counterparties (Smurfing.bestIn h))
                       (Smurfing.addPats
                          ["smurfing_fan_in"; "smurfing_fan_out"; "temporal_72h"]%string
                          ev (Smurfing.hub h)))) b).
  { apply fold_tag_mono; [intros e x c; apply addPats_mono|].
    apply fold_tag_mono; [intros e x c; apply addPats_mono|].
    now apply addPats_mono. }
  destruct (Smurfing.cashout h); [|exact H3].
  destruct (Smurfing.truthy _); [|exact H3]. now apply addPats_mono.
Qed.

Lemma tag_hub_here (h : Smurfing.HubHit) (ev : EvidenceMap) (a : string) :
  In a (Smurfing.members_of h) -> has_evidence (Smurfing.tag_hub h ev) a.
Proof.
  intros Ha.
  assert (Hbase : In a ([Smurfing.hub h]
                    ++ JS.sort_strings (Smurfing.counterparties (Smurfing.bestIn h))
                    ++ JS.sort_strings (Smurfing.counterparties (Smurfing.bestOut h))) ->
                  has_evidence
                    (fold_left (Smurfing.addPats ["smurfing_fan_out"; "temporal_72h"]%string)
                       (Smurfing.counterparties (Smurfing.bestOut h))
                       (fold_left (Smurfing.addPats ["smurfing_fan_in"; "temporal_72h"]%string)
                          (Smurfing.counterparties (Smurfing.bestIn h))
                          (Smurfing.addPats
                             ["smurfing_fan_in"; "smurfing_fan_out"; "temporal_72h"]%string
                             ev (Smurfing.hub h)))) a).
  { intros Hx. apply in_app_iff in Hx. destruct Hx as [[<-|[]]|Hx].
    - apply fold_tag_mono; [intros e x c; apply addPats_mono|].
      apply fold_tag_mono; [intros e x c; apply addPats_mono|].
      apply addPats_here.
    - apply in_app_iff in Hx. destruct Hx as [Hx|Hx];
        unfold JS.sort_strings in Hx; apply sort_In in Hx.
      + apply fold_tag_mono; [intros e x c; apply addPats_mono|].
        apply (fold_tag_here
                 (Smurfing.addPats ["smurfing_fan_in"; "temporal_72h"]%string)
                 (fun x => x)); [intros e x c; apply addPats_mono| |exact Hx].
        intros e x. apply addPats_here.
      + apply (fold_tag_here
                 (Smurfing.addPats ["smurfing_fan_out"; "temporal_72h"]%string)
                 (fun x => x)); [intros e x c; apply addPats_mono| |exact Hx].
        intros e x. apply addPats_here. }
  unfold Smurfing.members_of in Ha. unfold Smurfing.tag_hub. cbv zeta in *.
  destruct (Smurfing.cashout h) as [c|]; [|now apply Hbase].
  destruct (Smurfing.truthy (Some c)); cbn [andb] in Ha.
  - destruct (negb _).
    + apply in_app_iff in Ha. destruct Ha as [Ha|[<-|[]]].
      * apply addPats_mono. now apply Hbase.
      * apply addPats_here.
    + apply addPats_mono. now apply Hbase.
  - now apply Hbase.
Qed.

Lemma detectSmurfing_tagged (g : Graph) :
  tagged (fst (Smurfing.detectSmurfing g)) (snd (Smurfing.detectSmurfing g)).
Proof.
  unfold Smurfing.detectSmurfing.
  apply (fold_left_inv (fun acc => tagged (fst acc) (snd acc))).
  - intros acc hub _ Ha. unfold Smurfing.hub_step.
    destruct (Smurfing.analyze_hub g hub) as [h|]; [|exact Ha]. simpl.
    apply (tagged_app _ _ (snd acc)); [exact Ha| |].
    + intros b. apply tag_hub_mono.
    + simpl. intros a. apply tag_hub_here.
  - intros r a [].
Qed.

Lemma fold_add_In (l : list string) : forall (s : JS.JsSet) (x : string),
  In x (fold_left JS.add l s) <-> In x s \/ In x l.
Proof.
  induction l as [|y l IH]; intros s x; simpl; [tauto|].
  rewrite IH, add_In. intuition.
Qed.

Lemma mergeEv_mono (m acc : EvidenceMap) (b : string) :
  has_evidence acc b -> has_evidence (Route.mergeEv acc m) b.
Proof.
  unfold Route.mergeEv. apply (fold_left_inv (fun e => has_evidence e b)).
  intros e kv _ (s & q & E & Hq). cbv beta zeta. unfold has_evidence.
  destruct (String.eqb_spec b (fst kv)) as [->|N].
  - exists (fold_left JS.add (snd kv) s), q. unfold JS.JsSet in *.
    split; [rewrite E; apply get_set_same|apply fold_add_In; now left].
  - exists s, q. split; [|exact Hq]. rewrite get_set_other by exact N. exact E.
Qed.

Lemma mergeEv_here (m : EvidenceMap) : forall (acc : EvidenceMap) (b : string),
  has_evidence m b -> has_evidence (Route.mergeEv acc m) b.
Proof.
  intros acc b (s & q & E & Hq). apply get_Some_In in E.
  unfold Route.mergeEv. revert acc.
  induction m as [|kv m IH]; intros acc; simpl in *; [tauto|].
  destruct E as [->|E]; [|now apply IH].
  cbn [fst snd]. apply (mergeEv_mono m). unfold has_evidence.
  exists (fold_left JS.add s (match JS.get acc b with Some s0 => s0 | None => [] end)), q.
  split; [apply get_set_same|apply fold_add_In; now right].
Qed.

Lemma merged_evidence_tagged (g : Graph) :
  tagged (Route.detected_rings g) (Route.merged_evidence g).
Proof.
  intros r a Hr Ha. unfold Route.detected_rings in Hr. unfold Route.merged_evidence.
  cbv zeta in *.
  apply in_app_iff in Hr. destruct Hr as [Hr|Hr]; [|apply in_app_iff in Hr; destruct Hr as [Hr|Hr]].
  - do 2 apply mergeEv_mono. apply mergeEv_here.
    now apply (detectSmurfing_tagged g r).
  - apply mergeEv_mono. apply mergeEv_here. now apply (detectCycles35_tagged g r).
  - apply mergeEv_here. now apply (detectShellChains_tagged g r).
Qed.

(** ** Risk floors of the detectors *)

Lemma clamp_ge (c x : Q) : (c <= 100)%Q -> (c <= x)%Q -> (c <= clamp x)%Q.
Proof.
  intros H1 H2. unfold clamp. eapply Qle_trans; [|apply Q.le_max_r].
  now apply Q.min_glb.
Qed.

Lemma toFixed1_ge (k : Z) (x : Q) :
  (0 <= x)%Q -> (inject_Z k <= x * 10)%Q -> (inject_Z k <= JS.toFixed 1 x * 10)%Q.
Proof.
  intros H0 Hk. unfold JS.toFixed.
  assert (E : Qle_bool 0 x = true) by now apply Qle_bool_iff.
  rewrite E. change (Z.to_pos (10 ^ Z.of_nat 1)) with 10%positive.
  change (inject_Z (10 ^ Z.of_nat 1)) with 10%Q.
  assert (Hf : (k <= Qfloor (x * 10 + (1 # 2)))%Z).
  { rewrite <- (Qfloor_Z k). apply Qfloor_resp_le. lra. }
  generalize dependent (Qfloor (x * 10 + (1 # 2))). intros f Hf.
  unfold Qle, Qmult, inject_Z. simpl. lia.
Qed.

Lemma toFixed1_le (k : Z) (x : Q) :
  (0 <= x)%Q -> (x * 10 <= inject_Z k)%Q -> (JS.toFixed 1 x * 10 <= inject_Z k)%Q.
Proof.
  intros H0 Hk. unfold JS.toFixed.
  assert (E : Qle_bool 0 x = true) by now apply Qle_bool_iff.
  rewrite E. change (Z.to_pos (10 ^ Z.of_nat 1)) with 10%positive.
  change (inject_Z (10 ^ Z.of_nat 1)) with 10%Q.
  assert (Hf : (Qfloor (x * 10 + (1 # 2)) <= k)%Z).
  { pose proof (Qfloor_le (x * 10 + (1 # 2))) as Hl.
    assert (Hlt : (inject_Z (Qfloor (x * 10 + (1 # 2))) < inject_Z (k + 1))%Q).
    { rewrite inject_Z_plus. change (inject_Z 1) with 1%Q. lra. }
    rewrite <- Zlt_Qlt in Hlt. lia. }
  generalize dependent (Qfloor (x * 10 + (1 # 2))). intros f Hf.
  unfold Qle, Qmult, inject_Z. simpl. lia.
Qed.

Lemma rounded_range (lo hi : Z) (x : Q) :
  (0 <= lo)%Z ->
  (inject_Z lo <= x * 10 <= inject_Z hi)%Q ->
  (inject_Z lo <= JS.toFixed 1 x * 10 <= inject_Z hi)%Q.
Proof.
  intros H0 [H1 H2].
  assert (Hx : (0 <= x)%Q).
  { assert (Hl : (inject_Z 0 <= inject_Z lo)%Q) by now rewrite <- Zle_Qle.
    change (inject_Z 0) with 0%Q in Hl. lra. }
  split; [now apply toFixed1_ge|now apply toFixed1_le].
Qed.

Lemma jitter_bounds (s : string) :
  (- (4 # 10) <= (Score.stableJitter01 s - (5 # 10)) * (8 # 10) < 4 # 10)%Q.
Proof.
  pose proof (fnv1a_range s) as H. unfold Score.stableJitter01.
  generalize dependent (Score.fnv1a s). intros h H.
  change (2 ^ 32)%Z with 4294967296%Z in H.
  change (2 ^ 32)%positive with 4294967296%positive.
  unfold Qle, Qlt. cbn. lia.
Qed.

Lemma chainRisk_ge (hops : nat) (span : Z) :
  (3 <= hops)%nat -> (78 <= ShellChains.chainRisk hops span)%Q.
Proof.
  intros H. unfold ShellChains.chainRisk. cbv zeta.
  assert (Hh : (3 <= inject_Z (Z.of_nat hops))%Q).
  { change 3%Q with (inject_Z 3). rewrite <- Zle_Qle. lia. }
  generalize dependent (inject_Z (Z.of_nat hops)). intros q Hq.
  apply clamp_ge; [discriminate|].
  destruct (Qle_bool _ 2); [lra|]. destruct (Qle_bool _ 12); [lra|].
  destruct (Qle_bool _ 48); lra.
Qed.

Lemma shell_risk_ge (hops : nat) (span : Z) :
  (3 <= hops)%nat ->
  (78 <= JS.toFixed 1 (ShellChains.chainRisk hops span) <= 100)%Q.
Proof.
  intros H. pose proof (chainRisk_ge hops span H) as Hc.
  assert (Hu : (ShellChains.chainRisk hops span <= 100)%Q)
    by (unfold ShellChains.chainRisk; cbv zeta; apply clamp_range).
  pose proof (rounded_range 780 1000 (ShellChains.chainRisk hops span)) as Ht.
  change (inject_Z 780) with 780%Q in Ht. change (inject_Z 1000) with 1000%Q in Ht.
  assert (H1 : (780 <= ShellChains.chainRisk hops span * 10 <= 1000)%Q) by lra.
  specialize (Ht ltac:(lia) H1). lra.
Qed.

Section ShellRates.
Import ShellChains.
Variables (g : Graph) (low : JS.JsSet).

Lemma try_emit_rated nextDepth st :
  (3 <= nextDepth)%nat ->
  Forall rated (rings st) -> Forall rated (rings (try_emit g low nextDepth st)).
Proof.
  intros Hd H. unfold try_emit. destruct (shell_like _ _ _); [|exact H].
  destruct (walk_edges _ _ _); [|exact H].
  destruct (JS.has _ _); [exact H|]. cbn [rings].
  apply Forall_app. split; [exact H|]. constructor; [|constructor].
  right. right. split; [reflexivity|]. cbn [risk_score]. now apply shell_risk_ge.
Qed.

Lemma shell_dfs_rated : forall fuel u depthEdges st,
  Forall rated (rings st) -> Forall rated (rings (dfs fuel g low u depthEdges st)).
Proof.
  induction fuel as [|fuel IH]; intros u d st H; cbn [dfs]; [exact H|].
  destruct (Nat.leb _ _); [exact H|]. destruct (Nat.ltb _ _); [exact H|].
  destruct (JS.get _ _) as [nbrs|]; [|exact H].
  apply (fold_left_inv (fun s => Forall rated (rings s))); [|exact H].
  intros a v _ Ha. cbv beta. destruct (Nat.leb _ _); [exact Ha|].
  destruct (JS.has _ _); [exact Ha|]. destruct (_ && _); [exact Ha|].
  cbn [rings]. apply IH. destruct (Nat.leb 3 (d + 1)) eqn:E3; [|exact Ha].
  apply Nat.leb_le in E3. apply try_emit_rated; [exact E3|exact Ha].
Qed.

End ShellRates.

Lemma detectShellChains_rated (g : Graph) :
  Forall rated (fst (ShellChains.detectShellChains g)).
Proof.
  unfold ShellChains.detectShellChains. simpl.
  apply (fold_left_inv (fun s => Forall rated (ShellChains.rings s))); [|constructor].
  intros a s _ Ha. unfold ShellChains.from_start. apply shell_dfs_rated. exact Ha.
Qed.

Lemma detectCycles35_rated (g : Graph) :
  Forall rated (fst (Cycles.detectCycles35 g)).
Proof.
  apply Forall_forall. intros r Hr.
  pose proof (detectCycles35_priced g) as Gp. rewrite Forall_forall in Gp.
  pose proof (detectCycles35_good g) as Gg. rewrite Forall_forall in Gg.
  destruct (Gp r Hr) as (span & _ & Er). destruct (Gg r Hr) as [Hp _].
  left. split; [exact Hp|]. rewrite Er.
  destruct (cycleRisk_bounds (length (member_accounts r)) span) as [Hb _]. lra.
Qed.

Lemma smurfing_risk_ge (g : Graph) (hub : string) (h : Smurfing.HubHit) :
  Smurfing.analyze_hub g hub = Some h ->
  (94 <= JS.toFixed 1 (Smurfing.risk_of h) <= 100)%Q.
Proof.
  intros Ha.
  pose proof (analyze_hub_gate _ _ _ Ha)
    as (_ & Hbi & Hbo & _ & _ & _ & _ & _ & Hgate & _).
  apply bestUniqueWindow_hit_ok in Hbi, Hbo.
  destruct Hbi as (pre1 & win1 & post1 & _ & _ & _ & _ & _ & _ & U1 & M1 & _).
  destruct Hbo as (pre2 & win2 & post2 & _ & _ & _ & _ & _ & _ & U2 & M2 & _).
  rewrite U1 in M1. rewrite U2 in M2. unfold Smurfing.MIN_UNIQUE in M1, M2.
  assert (Hr : (94 <= Smurfing.risk_of h)%Q).
  { unfold Smurfing.risk_of. cbv zeta. apply clamp_ge; [discriminate|].
    assert (H1 : (10 <= inject_Z (Z.of_nat
                     (JS.size (Smurfing.counterparties (Smurfing.bestIn h)))))%Q).
    { change 10%Q with (inject_Z 10). rewrite <- Zle_Qle. lia. }
    assert (H2 : (10 <= inject_Z (Z.of_nat
                     (JS.size (Smurfing.counterparties (Smurfing.bestOut h)))))%Q).
    { change 10%Q with (inject_Z 10). rewrite <- Zle_Qle. lia. }
    assert (H3 : (0 <= Qmax (Smurfing.inCons h) (Smurfing.outCons h))%Q).
    { destruct Hgate as [Hg|Hg].
      - eapply Qle_trans; [|apply Q.le_max_l]. lra.
      - eapply Qle_trans; [|apply Q.le_max_r]. lra. }
    revert H1 H2 H3.
    generalize (inject_Z (Z.of_nat
                  (JS.size (Smurfing.counterparties (Smurfing.bestIn h)))))
               (inject_Z (Z.of_nat
                  (JS.size (Smurfing.counterparties (Smurfing.bestOut h)))))
               (Qmax (Smurfing.inCons h) (Smurfing.outCons h)).
    intros a b m H1 H2 H3. destruct (Smurfing.truthy _); lra. }
  assert (Hu : (Smurfing.risk_of h <= 100)%Q)
    by (unfold Smurfing.risk_of; cbv zeta; apply clamp_range).
  pose proof (rounded_range 940 1000 (Smurfing.risk_of h)) as Ht.
  change (inject_Z 940) with 940%Q in Ht. change (inject_Z 1000) with 1000%Q in Ht.
  assert (H1 : (940 <= Smurfing.risk_of h * 10 <= 1000)%Q) by lra.
  specialize (Ht ltac:(lia) H1). lra.
Qed.

Lemma detectSmurfing_rated (g : Graph) :
  Forall rated (fst (Smurfing.detectSmurfing g)).
Proof.
  apply Forall_forall. intros r Hr. apply detectSmurfing_rings in Hr.
  destruct Hr as (hub & h & _ & Ha & ->).
  right. left. split; [reflexivity|]. simpl. now apply (smurfing_risk_ge g hub).
Qed.

Lemma detected_rings_rated (g : Graph) (r : RingCandidate) :
  In r (Route.detected_rings g) -> rated r.
Proof.
  unfold Route.detected_rings. intros H.
  apply in_app_iff in H. destruct H as [H|H]; [|apply in_app_iff in H; destruct H as [H|H]].
  - pose proof (detectSmurfing_rated g) as G. rewrite Forall_forall in G. now apply G.
  - pose proof (detectCycles35_rated g) as G. rewrite Forall_forall in G. now apply G.
  - pose proof (detectShellChains_rated g) as G. rewrite Forall_forall in G. now apply G.
Qed.

Lemma merged_rings_rated (g : Graph) (r : RingCandidate) :
  In r (Route.merged_rings g) -> rated r.
Proof.
  unfold Route.merged_rings, Merge.mergeRings, Score.adjustRingRisks.
  intros H. apply outer_In in H. now apply (detected_rings_rated g).
Qed.

(** X22. Every ring a detector emits, and every ring the merger hands to the
    scorer, has pattern type [cycle], [smurfing] or [layered_shell], with a
    risk of at least 85, 94 and 78 respectively, and of at most 100. *)
Theorem pipeline_rings_rated (g : Graph) (r : RingCandidate) :
  In r (Route.detected_rings g) \/ In r (Route.merged_rings g) ->
  (pattern_type r = "cycle"%string /\ (85 <= risk_score r <= 100)%Q)
  \/ (pattern_type r = "smurfing"%string /\ (94 <= risk_score r <= 100)%Q)
  \/ (pattern_type r = "layered_shell"%string /\ (78 <= risk_score r <= 100)%Q).
Proof.
  intros [H|H]; [now apply (detected_rings_rated g)|now apply (merged_rings_rated g)].
Qed.

Lemma pipeline_rings_rated_witness :
  In (mkRing "cycle" ["A"; "B"; "C"]%string (993 # 10)%Q)
     (Route.detected_rings (GraphBuilder.buildGraph Examples.cycle_txs))
  /\ (85 <= risk_score (mkRing "cycle" ["A"; "B"; "C"]%string (993 # 10)%Q) <= 100)%Q.
Proof.
  assert (Hin : In (mkRing "cycle" ["A"; "B"; "C"]%string (993 # 10)%Q)
                   (Route.detected_rings (GraphBuilder.buildGraph Examples.cycle_txs)))
    by (vm_compute; left; reflexivity).
  split; [exact Hin|].
  destruct (pipeline_rings_rated
              (GraphBuilder.buildGraph Examples.cycle_txs)
              (mkRing "cycle" ["A"; "B"; "C"]%string (993 # 10)%Q)
              (or_introl Hin))
    as [[_ H]|[[Hp _]|[Hp _]]].
  - exact H.
  - discriminate Hp.
  - discriminate Hp.
Defined.

(** ** Scorer: floor of the role score *)

Lemma role_score_ge (acct : string) (ring : RingCandidate) (pats : JS.JsSet) :
  rated ring -> (722 # 10 <= Score.role_score acct ring pats)%Q.
Proof.
  intros Hr. unfold Score.role_score. cbv zeta.
  pose proof (jitter_bounds (acct ++ "|" ++ pattern_type ring)) as Hj.
  generalize dependent ((Score.stableJitter01 (acct ++ "|" ++ pattern_type ring)
                         - (5 # 10)) * (8 # 10))%Q.
  intros j Hj.
  destruct Hr as [[Hp [Hk _]]|[[Hp [Hk _]]|[Hp [Hk _]]]]; rewrite Hp;
    cbn [String.eqb Ascii.eqb Bool.eqb andb].
  - lra.
  - destruct (match member_accounts ring with
              | [] => false | m0 :: _ => String.eqb m0 acct end); [lra|].
    destruct (JS.has pats "cash_out"); [lra|].
    destruct (JS.has pats "smurfing_fan_out"); [lra|].
    destruct (JS.has pats "smurfing_fan_in"); lra.
  - destruct (JS.has pats "cash_out"); [lra|].
    destruct (JS.has pats "low_activity_shell"); [lra|].
    destruct (JS.has pats "pre_cashout"); [lra|].
    destruct (JS.has pats "source_funds"); lra.
Qed.

(** X20. Every member of every ring a detector emits has at least one
    evidence tag in the evidence map the pipeline merges from the three
    detectors. *)
Theorem ring_members_have_evidence (g : Graph) (r : RingCandidate) (a : string) :
  In r (Route.detected_rings g) -> In a (member_accounts r) ->
  exists tags p, JS.get (Route.merged_evidence g) a = Some tags /\ In p tags.
Proof.
  intros Hr Ha. exact (merged_evidence_tagged g r a Hr Ha).
Qed.

Lemma ring_members_have_evidence_witness :
  exists tags p,
    JS.get (Route.merged_evidence (GraphBuilder.buildGraph Examples.cycle_txs))
           "A"%string = Some tags
    /\ In p tags.
Proof.
  apply (ring_members_have_evidence
           (GraphBuilder.buildGraph Examples.cycle_txs)
           (mkRing "cycle" ["A"; "B"; "C"]%string (993 # 10)%Q) "A"%string).
  - vm_compute. left. reflexivity.
  - left. reflexivity.
Defined.

(** ** Pipeline: every ring member is flagged *)

Lemma rounded_ge (x : Q) :
  (722 # 10 <= x)%Q -> (722 # 10 <= clamp (JS.toFixed 1 x))%Q.
Proof.
  intros H. apply clamp_ge; [discriminate|].
  pose proof (toFixed1_ge 722 x) as Ht. change (inject_Z 722) with 722%Q in Ht.
  assert (H1 : (0 <= x)%Q) by lra.
  assert (H2 : (722 <= x * 10)%Q) by lra.
  specialize (Ht H1 H2). lra.
Qed.

Lemma detected_members_nodes (txs : list Tx) (r : RingCandidate) (a : string) :
  In r (Route.detected_rings (GraphBuilder.buildGraph txs)) ->
  In a (member_accounts r) -> In a (nodes (GraphBuilder.buildGraph txs)).
Proof.
  unfold Route.detected_rings. intros H Ha.
  apply in_app_iff in H. destruct H as [H|H]; [|apply in_app_iff in H; destruct H as [H|H]].
  - now apply (smurfing_members_nodes txs r).
  - now apply (cycle_members_nodes txs r).
  - now apply (shell_members_nodes txs r).
Qed.

(** X21. Every account that a fraud ring of the response lists is among the
    suspicious accounts of the same response, with a suspicion score of at
    least 72.2: the risk floors of the detectors (85 for cycles, 94 for
    smurfing, 78 for shell chains) and the role offsets leave every ring
    member above the threshold of 60, and every ring member carries an
    evidence tag. *)
Theorem analyze_ring_members_flagged (localeCompare : string -> string -> comparison)
    (txs : list Tx) (t0 t1 : Z) (fr : Out.FraudRing) (a : string) :
  In fr (Out.fraud_rings (Route.analyze localeCompare txs t0 t1)) ->
  In a (Out.member_accounts fr) ->
  exists sa,
    In sa (Out.suspicious_accounts (Route.analyze localeCompare txs t0 t1))
    /\ Out.account_id sa = a
    /\ (722 # 10 <= Out.suspicion_score sa)%Q.
Proof.
  unfold Route.analyze, Output.buildDeterministicOutput.
  cbn [Out.suspicious_accounts Out.fraud_rings].
  set (g := GraphBuilder.buildGraph txs).
  set (rings := Route.merged_rings g).
  set (ev := Route.merged_evidence g).
  set (scored := Score.applyWinModeScoring rings ev (Score.initAccountScores (nodes g))).
  set (best := Output.memberToBestRing (Output.fraud_rings_of localeCompare rings)).
  intros Hfr Ha.
  apply fraud_rings_of_origin in Hfr. destruct Hfr as (i & k & Hk & ->).
  apply to_fraud_ring_members in Ha.
  assert (Hd : In k (Route.detected_rings g)).
  { unfold rings, Route.merged_rings, Merge.mergeRings, Score.adjustRingRisks in Hk.
    now apply outer_In in Hk. }
  pose proof (detected_members_nodes txs k a Hd Ha) as Hn. fold g in Hn.
  pose proof (merged_evidence_tagged g k a Hd Ha) as (tags & p & Et & Hp). fold ev in Et.
  assert (Hkey : In a (JS.keys scored)).
  { unfold scored. rewrite applyWinModeScoring_keys. now apply of_list_In. }
  unfold JS.keys in Hkey. apply in_map_iff in Hkey.
  destruct Hkey as ([a' st] & Ea & Hin). simpl in Ea. subst a'.
  pose proof (applyWinModeScoring_entry rings ev (nodes g) a st Hin) as [_ Hm].
  pose proof (bestRingByAccount_inv rings a) as Hb. unfold best_inv in Hb.
  destruct (JS.get (Score.bestRingByAccount rings) a) as [ring|];
    [|exfalso; apply (Hb k); tauto].
  destruct Hb as [(r0 & [H1 _] & <-) _]. destruct Hm as (Hpat & Hsc & _).
  assert (Hs : (722 # 10 <= Score.score st)%Q).
  { rewrite Hsc. apply rounded_ge, role_score_ge. now apply (merged_rings_rated g). }
  assert (Hne : Score.patterns st <> []).
  { rewrite Hpat. unfold JS.JsSet in *. rewrite Et. intros E.
    assert (Hin' : In p (JS.of_list tags)) by now apply of_list_In.
    rewrite E in Hin'. exact Hin'. }
  assert (H60 : (60 <= clamp (JS.toFixed 1 (Score.score st)))%Q).
  { pose proof (rounded_ge _ Hs). lra. }
  destruct (suspicious_entry_complete localeCompare best a st H60 Hne) as (sa & Es & Eid).
  exists sa. split; [|split; [exact Eid|]].
  - unfold Output.suspicious_of. apply sort_In. apply suspicious_fold_In.
    right. exists (a, st). auto.
  - apply suspicious_entry_Some in Es. destruct Es as (_ & _ & _ & ->). simpl.
    now apply rounded_ge.
Qed.

Lemma analyze_ring_members_flagged_witness :
  exists fr a sa,
    In fr (Out.fraud_rings (Route.analyze String.compare Examples.cycle_txs 0 0))
    /\ In a (Out.member_accounts fr)
    /\ In sa (Out.suspicious_accounts
                (Route.analyze String.compare Examples.cycle_txs 0 0))
    /\ Out.account_id sa = a.
Proof.
  destruct (Out.fraud_rings (Route.analyze String.compare Examples.cycle_txs 0 0))
    as [|fr rest] eqn:E; [vm_compute in E; discriminate E|].
  assert (Hin : In fr (Out.fraud_rings
                         (Route.analyze String.compare Examples.cycle_txs 0 0)))
    by (rewrite E; left; reflexivity).
  destruct (Out.member_accounts fr) as [|a rest'] eqn:Em;
    [vm_compute in E; inversion E; subst fr; discriminate Em|].
  assert (Ha : In a (Out.member_accounts fr)) by (rewrite Em; left; reflexivity).
  destruct (analyze_ring_members_flagged String.compare Examples.cycle_txs 0 0 fr a
              Hin Ha) as (sa & Hs & Eid & _).
  exists fr, a, sa. split; [left; reflexivity|]. split; [exact Ha|].
  split; [exact Hs|exact Eid].
Defined.
